(** * xdress.descfilter: filtering of API description dictionaries

    A shallow embedding of [src/xdress/descfilter.py] and the properties of
    its passes.  The module is written for Python 2 ([basestring],
    [filter(...)[0]], [collections.Mapping]): [dict.keys()] and
    [dict.items()] return list snapshots and [filter] returns a list.

    Python dictionaries are association lists with unique keys; the order of
    the list is the iteration order of the dictionary.  Deleting a key keeps
    the order of the remaining entries. *)

From Stdlib Require Import String List Bool Arith ZArith Lia.
Import ListNotations.
Open Scope string_scope.
Open Scope list_scope.

Set Implicit Arguments.
Set Warnings "-register-all".

(** ** Keys with a boolean equality *)

Class EqbKey (K : Type) := { keqb : K -> K -> bool }.

(** The boolean equality decides equality: the keys that are equal for
    Python are those that are equal here. *)
Class EqbKeyOk (K : Type) `{EqbKey K} := {
  keqb_eq : forall x y : K, keqb x y = true <-> x = y
}.
Arguments EqbKeyOk K {_}.

(** [x in l] for a list, a tuple, a set or the keys of a dictionary. *)
Definition inb {K} `{EqbKey K} (x : K) (l : list K) : bool :=
  existsb (keqb x) l.

Definition list_eqb {A} (eqb : A -> A -> bool) : list A -> list A -> bool :=
  fix go (l1 l2 : list A) {struct l1} : bool :=
    match l1, l2 with
    | [], [] => true
    | x :: l1', y :: l2' => eqb x y && go l1' l2'
    | _, _ => false
    end.

Definition option_eqb {A} (eqb : A -> A -> bool) (o1 o2 : option A) : bool :=
  match o1, o2 with
  | None, None => true
  | Some x, Some y => eqb x y
  | _, _ => false
  end.

#[export] Instance string_EqbKey : EqbKey string := {| keqb := String.eqb |}.

(** ** Python dictionaries *)

Module Dict.
Section Ops.
Context {K V : Type} `{EqbKey K}.

(** [d.keys()] *)
Definition keys (d : list (K * V)) : list K := map fst d.

(** [k in d] *)
Definition mem (k : K) (d : list (K * V)) : bool := inb k (keys d).

(** [d[k]]; [None] stands for [KeyError]. *)
Fixpoint get (k : K) (d : list (K * V)) : option V :=
  match d with
  | [] => None
  | (k', v) :: rest => if keqb k k' then Some v else get k rest
  end.

(** [del d[k]], for a key that is present. *)
Definition del (k : K) (d : list (K * V)) : list (K * V) :=
  filter (fun kv => negb (keqb k (fst kv))) d.

(** [d[k] = v]: an existing key keeps its place, a new one goes last. *)
Fixpoint set (k : K) (v : V) (d : list (K * V)) : list (K * V) :=
  match d with
  | [] => [(k, v)]
  | (k', v') :: rest =>
      if keqb k k' then (k', v) :: rest else (k', v') :: set k v rest
  end.

(** The keys of a dictionary are pairwise distinct. *)
Fixpoint uniqb (l : list K) : bool :=
  match l with
  | [] => true
  | k :: rest => negb (inb k rest) && uniqb rest
  end.

Definition wf (d : list (K * V)) : bool := uniqb (keys d).
End Ops.
End Dict.

(** ** Type descriptors

    A type is a Python string ([Atom]) or a nested tuple of types
    ([Compound]), as in ['float64'], [('vector', 'float32')] or
    [(('int32', 'const'), '&')]. *)

Inductive TypeDescriptor : Type :=
| Atom (name : string)
| Compound (items : list TypeDescriptor).

Fixpoint type_eqb (a b : TypeDescriptor) {struct a} : bool :=
  match a, b with
  | Atom x, Atom y => String.eqb x y
  | Compound xs, Compound ys => list_eqb type_eqb xs ys
  | _, _ => false
  end.

(** Values of the configuration file and default values of arguments. *)
Inductive PyVal : Type :=
| PNone
| PInt (n : Z)
| PStr (s : string)
| PTuple (items : list PyVal).

Fixpoint pyval_eqb (a b : PyVal) {struct a} : bool :=
  match a, b with
  | PNone, PNone => true
  | PInt x, PInt y => Z.eqb x y
  | PStr x, PStr y => String.eqb x y
  | PTuple xs, PTuple ys => list_eqb pyval_eqb xs ys
  | _, _ => false
  end.

(** An argument of a signature: the pair [(name, type)] when [arg_default]
    is [None], the triple [(name, type, default)] otherwise. *)
Record Arg : Type := {
  arg_name : string;
  arg_type : TypeDescriptor;     (* arg[1] *)
  arg_default : option PyVal
}.

Definition arg_eqb (a b : Arg) : bool :=
  String.eqb (arg_name a) (arg_name b)
  && type_eqb (arg_type a) (arg_type b)
  && option_eqb pyval_eqb (arg_default a) (arg_default b).

(** [m_key[0]]: a string, or for a templated method a tuple whose first
    component is the string. *)
Inductive MethodName : Type :=
| NameStr (s : string)
| NameTuple (base : string) (targs : list TypeDescriptor).

Definition name_eqb (a b : MethodName) : bool :=
  match a, b with
  | NameStr x, NameStr y => String.eqb x y
  | NameTuple x xs, NameTuple y ys => String.eqb x y && list_eqb type_eqb xs ys
  | _, _ => false
  end.

#[export] Instance name_EqbKey : EqbKey MethodName := {| keqb := name_eqb |}.

(** A method key [(name, arg1, arg2, ...)]. *)
Record Signature : Type := {
  sig_name : MethodName;     (* m_key[0] *)
  sig_args : list Arg        (* m_key[1:] *)
}.

Definition sig_eqb (a b : Signature) : bool :=
  name_eqb (sig_name a) (sig_name b) && list_eqb arg_eqb (sig_args a) (sig_args b).

#[export] Instance sig_EqbKey : EqbKey Signature := {| keqb := sig_eqb |}.

(** The value stored under a method key: [None], or a dictionary with the
    entry ['return']. *)
Record MethodInfo : Type := { ret : TypeDescriptor }.

(** ** Class descriptions and the environment [rc.env] *)

Record ClassDesc : Type := {
  tarname : string;                                   (* desc['name']['tarname'] *)
  attrs : list (string * TypeDescriptor);             (* desc['attrs'] *)
  methods : list (Signature * option MethodInfo)      (* desc['methods'] *)
}.

Definition with_attrs (c : ClassDesc) (a : list (string * TypeDescriptor)) :=
  {| tarname := tarname c; attrs := a; methods := methods c |}.

Definition with_methods (c : ClassDesc)
    (m : list (Signature * option MethodInfo)) :=
  {| tarname := tarname c; attrs := attrs c; methods := m |}.

(** Modelled from the spec: [xdress.utils.isclassdesc] is not part of the
    sources at hand; an entry of a module is either recognised as a class
    description or is a description of another kind, which no pass
    touches. *)
Inductive Desc : Type :=
| DClass (c : ClassDesc)
| DOther (payload : PyVal).

(** Modelled from the spec: the test of [xdress.utils.isclassdesc]. *)
Definition isclassdesc (d : Desc) : bool :=
  match d with DClass _ => true | DOther _ => false end.

Definition Module_ : Type := list (string * Desc).
Definition Env : Type := list (string * Module_).

(** ** Type matchers *)

Record TypeMatcher : Type := { pattern : TypeDescriptor }.

Fixpoint flatten (t : TypeDescriptor) : list string :=
  match t with
  | Atom s => [s]
  | Compound items => flat_map flatten items
  end.

(** Modelled from the spec: [xdress.type.matching.TypeMatcher] is not part
    of the sources at hand.  A bare identifier matches every type in whose
    flattened form it occurs; a compound pattern matches the structurally
    equal type only. *)
Definition flatmatches (tm : TypeMatcher) (t : TypeDescriptor) : bool :=
  match pattern tm with
  | Atom a => inb a (flatten t)
  | Compound _ => type_eqb (pattern tm) t
  end.

(** ** Exceptions, results and printed messages *)

Inductive Exn : Type :=
| KeyError
| AttributeError
| ValueError
| MalformedPattern.

Inductive Result (A : Type) : Type :=
| Value (a : A)
| Raise (e : Exn).
Arguments Value {A} a.
Arguments Raise {A} e.

Notation "'Returns'" := (Value tt).

(** One constructor for each [print] of the module, with the values that
    are formatted into the message. *)
Inductive LogEvent : Type :=
| LogSkippingTheseTypes (tms : list TypeMatcher)
| LogRemovingTypes
| LogRemovingSkipmethods
| LogMethodNotFound (m k_key : string)
| LogRemovingSkipattrs
| LogAttrNotFound (m k_key : string)
| LogRemovingAllBut
| LogAttrUnknownType (a_name cls_name : string) (a_type : TypeDescriptor)
| LogMethodUnknownType (m_name : MethodName) (cls_name : string)
                       (arg_type : TypeDescriptor).

Definition Log : Type := list LogEvent.

(** A procedure that mutates a value of type [S] in place: how it ends, the
    value as it is left (also when an exception is raised) and what was
    printed. *)
Definition Proc (S : Type) : Type := (Result unit * S * Log)%type.

(** ** [modify_desc] *)

(** [for tm in skips: if tm.flatmatches(t): ...; break]: the position in
    [skips] at which the loop breaks, if it does. *)
Fixpoint first_match (skips : list TypeMatcher) (t : TypeDescriptor)
  : option nat :=
  match skips with
  | [] => None
  | tm :: rest =>
      if flatmatches tm t then Some 0 else option_map S (first_match rest t)
  end.

(** Where the scan of a method stops. *)
Inductive Site : Type :=
| AtReturn
| AtArg (i : nat).

(** [for arg in m_args: t = arg[1]; for tm in skips: ...]: the argument
    position and the matcher position of the first match. *)
Fixpoint scan_args (skips : list TypeMatcher) (m_args : list Arg) (i : nat)
  : option (Site * nat) :=
  match m_args with
  | [] => None
  | arg :: rest =>
      match first_match skips (arg_type arg) with
      | Some j => Some (AtArg i, j)
      | None => scan_args skips rest (S i)
      end
  end.

(** The body of the loop over the methods: the return type first, when
    [m_ret] is not [None], then the arguments. *)
Definition scan_method (skips : list TypeMatcher) (m_key : Signature)
    (m_ret : option MethodInfo) : option (Site * nat) :=
  match match m_ret with
        | Some info => first_match skips (ret info)
        | None => None
        end with
  | Some j => Some (AtReturn, j)
  | None => scan_args skips (sig_args m_key) 0
  end.

(** Both loops run over a copy of the dictionary and delete from the
    dictionary itself. *)
Definition modify_desc (skips : list TypeMatcher) (desc : ClassDesc)
  : ClassDesc :=
  let attrs' :=
    fold_left
      (fun live item =>
         match first_match skips (snd item) with
         | Some _ => Dict.del (fst item) live
         | None => live
         end)
      (attrs desc) (attrs desc) in
  let methods' :=
    fold_left
      (fun live item =>
         match scan_method skips (fst item) (snd item) with
         | Some _ => Dict.del (fst item) live
         | None => live
         end)
      (methods desc) (methods desc) in
  {| tarname := tarname desc; attrs := attrs'; methods := methods' |}.

(** ** The run control *)

(** [rc.ts]: [canon] returns the canonical form of a type, [None] stands
    for the [TypeError] it raises on an unknown type. *)
Record TypeSystem : Type := {
  canon : TypeDescriptor -> option TypeDescriptor
}.

(** [rc.skiptypes], with patterns of type [P]: raw values of the
    configuration before [setup], type matchers after it.  [STOther] is a
    value that is neither a mapping nor a sequence, such as [None]. *)
Inductive SkipTypes (P : Type) : Type :=
| STNotSpecified
| STMapping (m : list (string * list P))
| STSequence (l : list P)
| STOther (v : PyVal).
Arguments STNotSpecified {P}.
Arguments STMapping {P} m.
Arguments STSequence {P} l.
Arguments STOther {P} v.

(** The attributes of [rc] that the plugin reads; [rc.env] is passed
    separately.  [None] is [NotSpecified] for the four rules below [skips].
    [skips] is an attribute that neither [defaultrc] nor [setup] defines:
    [None] when [rc] has no such attribute (reading it raises
    [AttributeError]). *)
Record RunControl (P : Type) : Type := {
  skiptypes : SkipTypes P;
  skips : option (list (string * list TypeMatcher));
  skipmethods : option (list (string * list string));
  skipattrs : option (list (string * list string));
  includemethods : option (list (string * list MethodName));
  skipauto : option bool;
  ts : TypeSystem;
  verbose : bool
}.

(** ** Iteration over [rc.env] *)

(** [for k, v in d.items(): body]: the body mutates [v] in place; an
    exception leaves the rest of the dictionary as it was. *)
Fixpoint for_items {V : Type} (body : string -> V -> Proc V)
    (d : list (string * V)) : Proc (list (string * V)) :=
  match d with
  | [] => (Returns, [], [])
  | (k, v) :: rest =>
      match body k v with
      | (Value _, v', l1) =>
          let '(r, rest', l2) := for_items body rest in
          (r, (k, v') :: rest', l1 ++ l2)
      | (Raise e, v', l1) => (Raise e, (k, v') :: rest, l1)
      end
  end.

(** [if isclassdesc(desc): body] *)
Definition on_class (body : string -> ClassDesc -> Proc ClassDesc)
    (k_key : string) (d : Desc) : Proc Desc :=
  match d with
  | DClass c => let '(r, c', l) := body k_key c in (r, DClass c', l)
  | DOther _ => (Returns, d, [])
  end.

(** [for m_key, mod in rc.env.items(): for k_key, desc in mod.items(): ...] *)
Definition for_classes (body : string -> ClassDesc -> Proc ClassDesc)
    (env : Env) : Proc Env :=
  for_items (fun _ mod_ => for_items (on_class body) mod_) env.

(** [print(msg)] before a procedure. *)
Definition printing {S : Type} (msg : LogEvent) (p : Proc S) : Proc S :=
  let '(r, s, l) := p in (r, s, msg :: l).

(** ** The passes *)

Section Passes.
Variable rc : RunControl TypeMatcher.

(** *** [skip_types] *)

(** The mapping branch reads the matchers from [rc.skips]. *)
Definition skip_types_mapping_body (m : list (string * list TypeMatcher))
    (kls_key : string) (desc : ClassDesc) : Proc ClassDesc :=
  if inb (tarname desc) (Dict.keys m) then
    match skips rc with
    | None => (Raise AttributeError, desc, [])
    | Some sk =>
        match Dict.get (tarname desc) sk with
        | None => (Raise KeyError, desc, [])
        | Some skips_ => (Returns, modify_desc skips_ desc, [])
        end
    end
  else (Returns, desc, []).

Definition skip_types_sequence_body (l : list TypeMatcher)
    (kls_key : string) (desc : ClassDesc) : Proc ClassDesc :=
  (Returns, modify_desc l desc, []).

Definition skip_types (env : Env) : Proc Env :=
  match skiptypes rc with
  | STNotSpecified => (Returns, env, [])
  | STMapping m =>
      printing LogRemovingTypes
        (for_classes (skip_types_mapping_body m) env)
  | STSequence l =>
      printing LogRemovingTypes
        (for_classes (skip_types_sequence_body l) env)
  | STOther _ => (Returns, env, [LogRemovingTypes])
  end.

(** *** [skip_methods] *)

(** The lambda [f] of the source. *)
Definition starts_with (m : string) (x : Signature) : bool :=
  match sig_name x with
  | NameStr s => String.prefix m s
  | NameTuple base _ => String.prefix m base
  end.

(** [for m in skippers: ...]; [m_nms] is the list of keys taken before
    the loop, [live] the dictionary of methods. *)
Fixpoint skip_methods_loop (k_key : string) (m_nms : list Signature)
    (skippers : list string)
    (live : list (Signature * option MethodInfo))
  : Proc (list (Signature * option MethodInfo)) :=
  match skippers with
  | [] => (Returns, live, [])
  | m :: rest =>
      match filter (starts_with m) m_nms with
      | [] =>
          (* IndexError, caught *)
          printing (LogMethodNotFound m k_key)
            (skip_methods_loop k_key m_nms rest live)
      | del_key :: _ =>
          if Dict.mem del_key live
          then skip_methods_loop k_key m_nms rest (Dict.del del_key live)
          else (Raise KeyError, live, [])
      end
  end.

Definition skip_methods_body (sm : list (string * list string))
    (k_key : string) (kls_desc : ClassDesc) : Proc ClassDesc :=
  if inb (tarname kls_desc) (Dict.keys sm) then
    match Dict.get k_key sm with
    | None => (Raise KeyError, kls_desc, [])
    | Some skippers =>
        let m_nms := Dict.keys (methods kls_desc) in
        let '(r, live, l) :=
          skip_methods_loop k_key m_nms skippers (methods kls_desc) in
        (r, with_methods kls_desc live, l)
    end
  else (Returns, kls_desc, []).

Definition skip_methods (env : Env) : Proc Env :=
  match skipmethods rc with
  | None => (Returns, env, [])
  | Some sm =>
      printing LogRemovingSkipmethods (for_classes (skip_methods_body sm) env)
  end.

(** *** [skip_attrs] *)

Fixpoint skip_attrs_loop (k_key : string) (skippers : list string)
    (a_nms : list (string * TypeDescriptor))
  : list (string * TypeDescriptor) * Log :=
  match skippers with
  | [] => (a_nms, [])
  | m :: rest =>
      if Dict.mem m a_nms
      then skip_attrs_loop k_key rest (Dict.del m a_nms)
      else
        let '(a, l) := skip_attrs_loop k_key rest a_nms in
        (a, LogAttrNotFound m k_key :: l)
  end.

Definition skip_attrs_body (sa : list (string * list string))
    (k_key : string) (kls_desc : ClassDesc) : Proc ClassDesc :=
  if inb (tarname kls_desc) (Dict.keys sa) then
    match Dict.get k_key sa with
    | None => (Raise KeyError, kls_desc, [])
    | Some skippers =>
        let '(a, l) := skip_attrs_loop k_key skippers (attrs kls_desc) in
        (Returns, with_attrs kls_desc a, l)
    end
  else (Returns, kls_desc, []).

Definition skip_attrs (env : Env) : Proc Env :=
  match skipattrs rc with
  | None => (Returns, env, [])
  | Some sa =>
      printing LogRemovingSkipattrs (for_classes (skip_attrs_body sa) env)
  end.

(** *** [include_methods] *)

(** [for mm in m_keep: new_meths[mm] = methods[mm]] *)
Fixpoint copy_methods (live : list (Signature * option MethodInfo))
    (m_keep : list Signature)
    (new_meths : list (Signature * option MethodInfo))
  : Result (list (Signature * option MethodInfo)) :=
  match m_keep with
  | [] => Value new_meths
  | mm :: rest =>
      match Dict.get mm live with
      | Some v => copy_methods live rest (Dict.set mm v new_meths)
      | None => Raise KeyError
      end
  end.

Definition include_methods_body (im : list (string * list MethodName))
    (k_key : string) (kls_desc : ClassDesc) : Proc ClassDesc :=
  if inb (tarname kls_desc) (Dict.keys im) then
    match Dict.get k_key im with
    | None => (Raise KeyError, kls_desc, [])
    | Some keeps =>
        let m_nms := Dict.keys (methods kls_desc) in
        let m_keep := filter (fun x => inb (sig_name x) keeps) m_nms in
        match copy_methods (methods kls_desc) m_keep [] with
        | Value new_meths => (Returns, with_methods kls_desc new_meths, [])
        | Raise e => (Raise e, kls_desc, [])
        end
    end
  else (Returns, kls_desc, []).

Definition include_methods (env : Env) : Proc Env :=
  match includemethods rc with
  | None => (Returns, env, [])
  | Some im =>
      printing LogRemovingAllBut (for_classes (include_methods_body im) env)
  end.

(** *** [skip_auto] *)

(** The scan of the attributes: the blacklist and the messages. *)
Fixpoint scan_attrs (cls_name : string)
    (items : list (string * TypeDescriptor)) : list string * Log :=
  match items with
  | [] => ([], [])
  | (a_name, a_type) :: rest =>
      let '(bl, l) := scan_attrs cls_name rest in
      match canon (ts rc) a_type with
      | Some _ => (bl, l)
      | None => (a_name :: bl, LogAttrUnknownType a_name cls_name a_type :: l)
      end
  end.

(** How the [try] block of one method ends. *)
Inductive Check : Type :=
| Known
| Unknown (arg_type : TypeDescriptor)     (* TypeError, caught *)
| Unpack.                                 (* ValueError, not caught *)

(** [for _, arg_type in m_sig[1:]: ts.canon(arg_type)]: a triple cannot
    be unpacked into two names. *)
Fixpoint check_args (m_args : list Arg) : Check :=
  match m_args with
  | [] => Known
  | arg :: rest =>
      match arg_default arg with
      | Some _ => Unpack
      | None =>
          match canon (ts rc) (arg_type arg) with
          | Some _ => check_args rest
          | None => Unknown (arg_type arg)
          end
      end
  end.

Definition check_method (m_sig : Signature) (m_attr : option MethodInfo)
  : Check :=
  match m_attr with
  | Some info =>
      match canon (ts rc) (ret info) with
      | Some _ => check_args (sig_args m_sig)
      | None => Unknown (ret info)
      end
  | None => check_args (sig_args m_sig)
  end.

(** The scan of the methods: the blacklist, unless a [ValueError] ends
    the scan, and the messages printed up to there. *)
Fixpoint scan_methods (cls_name : string)
    (items : list (Signature * option MethodInfo))
  : Result (list Signature) * Log :=
  match items with
  | [] => (Value [], [])
  | (m_sig, m_attr) :: rest =>
      match check_method m_sig m_attr with
      | Known => scan_methods cls_name rest
      | Unknown arg_type =>
          let '(r, l) := scan_methods cls_name rest in
          (match r with
           | Value bl => Value (m_sig :: bl)
           | Raise e => Raise e
           end,
           LogMethodUnknownType (sig_name m_sig) cls_name arg_type :: l)
      | Unpack => (Raise ValueError, [])
      end
  end.

(** [for a in blacklist: del d[a]] *)
Definition del_all {K V : Type} `{EqbKey K} (blacklist : list K)
    (d : list (K * V)) : list (K * V) :=
  fold_left (fun live a => Dict.del a live) blacklist d.

Definition skip_auto_body (cls_name : string) (cls_desc : ClassDesc)
  : Proc ClassDesc :=
  let '(attr_blacklist, l1) := scan_attrs cls_name (attrs cls_desc) in
  let desc1 := with_attrs cls_desc (del_all attr_blacklist (attrs cls_desc)) in
  match scan_methods cls_name (methods desc1) with
  | (Value method_blacklist, l2) =>
      (Returns,
       with_methods desc1 (del_all method_blacklist (methods desc1)),
       l1 ++ l2)
  | (Raise e, l2) => (Raise e, desc1, l1 ++ l2)
  end.

Definition skip_auto (env : Env) : Proc Env :=
  match skipauto rc with
  | None => (Returns, env, [])
  | Some _ => for_classes skip_auto_body env
  end.

(** *** [execute] *)

(** [p; q]: [q] runs when [p] returns. *)
Definition andthen {S : Type} (p q : S -> Proc S) (s : S) : Proc S :=
  match p s with
  | (Value _, s', l1) => let '(r, s'', l2) := q s' in (r, s'', l1 ++ l2)
  | (Raise e, s', l1) => (Raise e, s', l1)
  end.

Definition execute : Env -> Proc Env :=
  andthen skip_types
    (andthen skip_methods
       (andthen skip_attrs
          (andthen skip_auto include_methods))).
End Passes.

(** ** [setup] *)

Definition all_some {A B : Type} (f : A -> option B)
  : list A -> option (list B) :=
  fix go (l : list A) : option (list B) :=
    match l with
    | [] => Some []
    | x :: rest =>
        match f x, go rest with
        | Some y, Some ys => Some (y :: ys)
        | _, _ => None
        end
    end.

(** Modelled from the spec: the constructor of
    [xdress.type.matching.TypeMatcher] is not part of the sources at hand.
    A raw value is a pattern when it is a string or a non-empty tuple of
    patterns; any other value is malformed. *)
Fixpoint parse_pattern (v : PyVal) : option TypeDescriptor :=
  match v with
  | PStr s => Some (Atom s)
  | PTuple [] => None
  | PTuple items => option_map Compound (all_some parse_pattern items)
  | PNone | PInt _ => None
  end.

(** Modelled from the spec: [TypeMatcher(t)], which fails with
    [MalformedPattern] on a raw value that is not a pattern. *)
Definition TypeMatcher_new (v : PyVal) : Result TypeMatcher :=
  match parse_pattern v with
  | Some p => Value {| pattern := p |}
  | None => Raise MalformedPattern
  end.

(** [[TypeMatcher(t) for t in l]] *)
Fixpoint matchers_of (l : list PyVal) : Result (list TypeMatcher) :=
  match l with
  | [] => Value []
  | t :: rest =>
      match TypeMatcher_new t with
      | Raise e => Raise e
      | Value tm =>
          match matchers_of rest with
          | Raise e => Raise e
          | Value tms => Value (tm :: tms)
          end
      end
  end.

(** [for kls in rc.skiptypes.keys(): _skippers[kls] = [...]] *)
Fixpoint setup_mapping (raw : list (string * list PyVal))
    (klss : list string) (_skippers : list (string * list TypeMatcher))
  : Result (list (string * list TypeMatcher)) :=
  match klss with
  | [] => Value _skippers
  | kls :: rest =>
      match Dict.get kls raw with
      | None => Raise KeyError
      | Some l =>
          match matchers_of l with
          | Raise e => Raise e
          | Value tms => setup_mapping raw rest (Dict.set kls tms _skippers)
          end
      end
  end.

Definition with_skiptypes {P Q : Type} (rc : RunControl P) (st : SkipTypes Q)
  : RunControl Q :=
  {| skiptypes := st;
     skips := skips rc;
     skipmethods := skipmethods rc;
     skipattrs := skipattrs rc;
     includemethods := includemethods rc;
     skipauto := skipauto rc;
     ts := ts rc;
     verbose := verbose rc |}.

(** [setup] replaces [rc.skiptypes]; a value that is neither a mapping nor
    a sequence is left as it is. *)
Definition setup (rc : RunControl PyVal)
  : Result (RunControl TypeMatcher) * Log :=
  match skiptypes rc with
  | STNotSpecified => (Value (with_skiptypes rc STNotSpecified), [])
  | STMapping raw =>
      match setup_mapping raw (Dict.keys raw) [] with
      | Value _skippers => (Value (with_skiptypes rc (STMapping _skippers)), [])
      | Raise e => (Raise e, [])
      end
  | STSequence l =>
      match matchers_of l with
      | Value tms =>
          (Value (with_skiptypes rc (STSequence tms)),
           if verbose rc then [LogSkippingTheseTypes tms] else [])
      | Raise e => (Raise e, [])
      end
  | STOther v => (Value (with_skiptypes rc (STOther v)), [])
  end.

(** Modelled from the spec: the driver of the plugins is not part of the
    sources at hand.  The caller normalizes the configuration with [setup]
    and then runs [execute] once over the registry; an exception of [setup]
    ends the run before any pass. *)
Definition run (rc : RunControl PyVal) (env : Env) : Proc Env :=
  match setup rc with
  | (Value rc', l1) =>
      let '(r, env', l2) := execute rc' env in (r, env', l1 ++ l2)
  | (Raise e, l1) => (Raise e, env, l1)
  end.

(** ** Vocabulary of the statements *)

(** Some matcher of the list flatmatches the type. *)
Definition matches_any (skips : list TypeMatcher) (t : TypeDescriptor) : Prop :=
  exists tm, In tm skips /\ flatmatches tm t = true.

(** Some matcher flatmatches the return type, when there is one, or the
    type of some argument. *)
Definition method_matched (skips : list TypeMatcher) (m_key : Signature)
    (m_ret : option MethodInfo) : Prop :=
  (exists info, m_ret = Some info /\ matches_any skips (ret info))
  \/ (exists arg, In arg (sig_args m_key) /\ matches_any skips (arg_type arg)).

(** The matcher at position [j] is the first of the list to flatmatch. *)
Definition first_at (skips : list TypeMatcher) (t : TypeDescriptor) (j : nat)
  : Prop :=
  (exists tm, nth_error skips j = Some tm /\ flatmatches tm t = true)
  /\ forall j' tm', j' < j -> nth_error skips j' = Some tm' ->
                    flatmatches tm' t = false.

(** A raw value is malformed when the constructor of the matcher rejects
    it. *)
Definition malformed (v : PyVal) : Prop := parse_pattern v = None.

(** The class [c] is stored under [rc.env[m_key][k_key]]. *)
Definition class_in (env : Env) (m_key k_key : string) (c : ClassDesc) : Prop :=
  exists mod_, In (m_key, mod_) env /\ In (k_key, DClass c) mod_.

(** The attributes and the methods of a class have unique keys. *)
Definition wf_class (c : ClassDesc) : bool :=
  Dict.wf (attrs c) && Dict.wf (methods c).

Definition wf_desc (d : Desc) : bool :=
  match d with DClass c => wf_class c | DOther _ => true end.

Definition wf_env (env : Env) : bool :=
  forallb (fun m => forallb (fun kd => wf_desc (snd kd)) (snd m)) env.

(** The test of the loop over the methods. *)
Definition method_kept (skips : list TypeMatcher)
    (item : Signature * option MethodInfo) : bool :=
  match scan_method skips (fst item) (snd item) with
  | Some _ => false
  | None => true
  end.

(** The test of the loop over the attributes. *)
Definition attr_kept (skips : list TypeMatcher)
    (item : string * TypeDescriptor) : bool :=
  match first_match skips (snd item) with
  | Some _ => false
  | None => true
  end.

(** The procedure returns on [s] and leaves [s']. *)
Definition runs_to {S : Type} (p : S -> Proc S) (s s' : S) : Prop :=
  exists l, p s = (Returns, s', l).

(** [d'] has the keys of [d] in the same order, with values related by
    [R]. *)
Definition items_rel {V : Type} (R : string -> V -> V -> Prop)
    (d d' : list (string * V)) : Prop :=
  Forall2 (fun kv kv' => fst kv = fst kv' /\ R (fst kv) (snd kv) (snd kv'))
          d d'.

Definition desc_rel (R : string -> ClassDesc -> ClassDesc -> Prop)
    (k : string) (d d' : Desc) : Prop :=
  match d, d' with
  | DClass c, DClass c' => R k c c'
  | DOther v, DOther v' => v = v'
  | _, _ => False
  end.

(** [env'] has the modules and the entries of [env]; the descriptions that
    are not classes are the same and the classes are related by [R]. *)
Definition env_rel (R : string -> ClassDesc -> ClassDesc -> Prop)
    (env env' : Env) : Prop :=
  items_rel (fun _ mod_ mod_' => items_rel (desc_rel R) mod_ mod_') env env'.

(** The body of a pass returns on [c] and leaves [c']. *)
Definition step (body : string -> ClassDesc -> Proc ClassDesc)
    (k : string) (c c' : ClassDesc) : Prop :=
  exists l, body k c = (Returns, c', l).

(** The body of a pass returns on [c] and leaves it as it is. *)
Definition stable (body : string -> ClassDesc -> Proc ClassDesc)
    (k : string) (c : ClassDesc) : Prop :=
  step body k c c.

(** A pass returns on [env] and leaves it as it is. *)
Definition idempotent_at (pass : Env -> Proc Env) (env : Env) : Prop :=
  forall env' l,
    pass env = (Returns, env', l) ->
    exists l', pass env' = (Returns, env', l').

(** The class with the attributes and the methods that pass a test. *)
Definition restrict (p : string * TypeDescriptor -> bool)
    (q : Signature * option MethodInfo -> bool) (c : ClassDesc) : ClassDesc :=
  {| tarname := tarname c;
     attrs := filter p (attrs c);
     methods := filter q (methods c) |}.

Definition narrowed (c c' : ClassDesc) : Prop :=
  exists p q, c' = restrict p q c.

(** A body that, on a class with unique keys, either raises or keeps the
    entries that pass a test which depends on the key and the name of the
    class only; whether it raises does not change when entries are
    removed. *)
Definition filter_pass (body : string -> ClassDesc -> Proc ClassDesc) : Prop :=
  exists (ok : string -> ClassDesc -> bool)
         (pa : string -> string -> string * TypeDescriptor -> bool)
         (pm : string -> string -> Signature * option MethodInfo -> bool),
    (forall k c,
        wf_class c = true ->
        if ok k c
        then exists l,
            body k c
            = (Returns, restrict (pa k (tarname c)) (pm k (tarname c)) c, l)
        else exists e c' l, body k c = (Raise e, c', l))
    /\ (forall k c p q, ok k c = true -> ok k (restrict p q c) = true).


(** No argument of a method of the environment carries a default value. *)
Definition no_defaults (env : Env) : Prop :=
  forall m k c m_sig m_attr arg,
    class_in env m k c -> In (m_sig, m_attr) (methods c) ->
    In arg (sig_args m_sig) -> arg_default arg = None.

(** What each pass does to one class; a pass whose rule is
    [NotSpecified] leaves the class as it is. *)
Definition skip_types_cls (rc : RunControl TypeMatcher)
  : string -> ClassDesc -> Proc ClassDesc :=
  match skiptypes rc with
  | STMapping m => skip_types_mapping_body rc m
  | STSequence l => skip_types_sequence_body l
  | STNotSpecified | STOther _ => fun _ c => (Returns, c, [])
  end.

Definition skip_methods_cls (rc : RunControl TypeMatcher)
  : string -> ClassDesc -> Proc ClassDesc :=
  match skipmethods rc with
  | Some sm => skip_methods_body sm
  | None => fun _ c => (Returns, c, [])
  end.

Definition skip_attrs_cls (rc : RunControl TypeMatcher)
  : string -> ClassDesc -> Proc ClassDesc :=
  match skipattrs rc with
  | Some sa => skip_attrs_body sa
  | None => fun _ c => (Returns, c, [])
  end.

Definition skip_auto_cls (rc : RunControl TypeMatcher)
  : string -> ClassDesc -> Proc ClassDesc :=
  match skipauto rc with
  | Some _ => skip_auto_body rc
  | None => fun _ c => (Returns, c, [])
  end.

Definition include_methods_cls (rc : RunControl TypeMatcher)
  : string -> ClassDesc -> Proc ClassDesc :=
  match includemethods rc with
  | Some im => include_methods_body im
  | None => fun _ c => (Returns, c, [])
  end.

(** The tests of [skip_auto]: the type of the attribute is known; the
    check of the method does not end on an unknown type; the check of the
    method does not end on an argument that cannot be unpacked. *)
Definition attr_known (rc : RunControl TypeMatcher)
    (item : string * TypeDescriptor) : bool :=
  match canon (ts rc) (snd item) with Some _ => true | None => false end.

Definition method_not_unknown (rc : RunControl TypeMatcher)
    (item : Signature * option MethodInfo) : bool :=
  match check_method rc (fst item) (snd item) with
  | Unknown _ => false
  | Known | Unpack => true
  end.

Definition method_unpacks (rc : RunControl TypeMatcher)
    (item : Signature * option MethodInfo) : bool :=
  match check_method rc (fst item) (snd item) with
  | Unpack => false
  | Known | Unknown _ => true
  end.

(** A body that, when it returns on a class with unique keys, has only
    removed entries. *)
Definition narrowing (body : string -> ClassDesc -> Proc ClassDesc) : Prop :=
  forall k c c', wf_class c = true -> step body k c c' -> narrowed c c'.

(** ** Worked inputs *)

Definition matcher (name : string) : TypeMatcher := {| pattern := Atom name |}.

Definition plain_arg (name : string) (t : TypeDescriptor) : Arg :=
  {| arg_name := name; arg_type := t; arg_default := None |}.

Definition method_key (name : string) (args : list Arg) : Signature :=
  {| sig_name := NameStr name; sig_args := args |}.

(** A type system that knows every type but ['unknownclass']. *)
Definition sample_ts : TypeSystem :=
  {| canon := fun t => if inb "unknownclass" (flatten t) then None else Some t |}.

(** A run control with every rule left [NotSpecified]. *)
Definition rc_unset : RunControl TypeMatcher :=
  {| skiptypes := STNotSpecified; skips := None; skipmethods := None;
     skipattrs := None; includemethods := None; skipauto := None;
     ts := sample_ts; verbose := false |}.

(** Scenario A: the class [Foo]. *)
Definition Foo : ClassDesc :=
  {| tarname := "Foo";
     attrs := [("x", Atom "float64"); ("y", Atom "int32")];
     methods := [] |}.

Definition Foo_env : Env := [("foo_module", [("Foo", DClass Foo)])].

Definition rc_skip_float64 : RunControl TypeMatcher :=
  with_skiptypes rc_unset (STSequence [matcher "float64"]).

(** Scenario C: the method [foo(a: ('vector', 'float64'))]. *)
Definition foo_vector : Signature :=
  method_key "foo"
    [plain_arg "a" (Compound [Atom "vector"; Atom "float64"])].

Definition Bar : ClassDesc :=
  {| tarname := "Bar";
     attrs := [];
     methods := [(foo_vector, None);
                 (method_key "size" [], Some {| ret := Atom "int32" |})] |}.

(** Scenario E: an attribute and an argument of the unknown type. *)
Definition Baz : ClassDesc :=
  {| tarname := "Baz";
     attrs := [("z", Atom "unknownclass"); ("n", Atom "int32")];
     methods :=
       [(method_key "get" [plain_arg "u" (Atom "unknownclass")],
         Some {| ret := Atom "int32" |});
        (method_key "size" [], Some {| ret := Atom "int32" |})] |}.

Definition Baz_env : Env := [("baz_module", [("Baz", DClass Baz)])].

Definition rc_auto (b : bool) : RunControl TypeMatcher :=
  {| skiptypes := STNotSpecified; skips := None; skipmethods := None;
     skipattrs := None; includemethods := None; skipauto := Some b;
     ts := sample_ts; verbose := false |}.

(** Scenarios B and D: the class [Computer], here with two overloads of
    [turnOn]. *)
Definition Computer : ClassDesc :=
  {| tarname := "Computer";
     attrs := [];
     methods :=
       [(method_key "checkEmail" [], None);
        (method_key "turnOn" [], None);
        (method_key "turnOn" [plain_arg "fast" (Atom "bool")], None);
        (method_key "blowUp" [], None);
        (method_key "sleep" [], None);
        (method_key "crash" [], None)] |}.

Definition Computer_env : Env :=
  [("computer_module", [("Computer", DClass Computer)])].

Definition rc_computer : RunControl TypeMatcher :=
  {| skiptypes := STNotSpecified; skips := None;
     skipmethods := Some [("Computer", ["blowUp"; "sleep"; "crash"])];
     skipattrs := None;
     includemethods := Some [("Computer", [NameStr "turnOn"])];
     skipauto := None; ts := sample_ts; verbose := false |}.

(** One prefix that two overloads of [Computer] match. *)
Definition rc_turn_off : RunControl TypeMatcher :=
  {| skiptypes := STNotSpecified; skips := None;
     skipmethods := Some [("Computer", ["turnOn"])];
     skipattrs := None; includemethods := None;
     skipauto := None; ts := sample_ts; verbose := false |}.

(** A per-class [skiptypes], as written in the configuration and as
    [setup] leaves it. *)
Definition raw_per_class : RunControl PyVal :=
  {| skiptypes := STMapping [("Foo", [PStr "float64"])]; skips := None;
     skipmethods := None; skipattrs := None; includemethods := None;
     skipauto := None; ts := sample_ts; verbose := false |}.

Definition rc_per_class : RunControl TypeMatcher :=
  with_skiptypes rc_unset (STMapping [("Foo", [matcher "float64"])]).

(** The same with an attribute [skips] defined elsewhere, here with an
    empty list for [Foo]. *)
Definition rc_per_class_skips : RunControl TypeMatcher :=
  {| skiptypes := STMapping [("Foo", [matcher "float64"])];
     skips := Some [("Foo", [])];
     skipmethods := None; skipattrs := None; includemethods := None;
     skipauto := None; ts := sample_ts; verbose := false |}.

(** The prefix [turnOn] twice, for the two overloads of [Computer]. *)
Definition rc_turn_off_twice : RunControl TypeMatcher :=
  {| skiptypes := STNotSpecified; skips := None;
     skipmethods := Some [("Computer", ["turnOn"; "turnOn"])];
     skipattrs := None; includemethods := None;
     skipauto := None; ts := sample_ts; verbose := false |}.

(** [skiptypes = None], and a list with an entry that is not a pattern. *)
Definition raw_none : RunControl PyVal :=
  {| skiptypes := STOther PNone; skips := None;
     skipmethods := None; skipattrs := None; includemethods := None;
     skipauto := None; ts := sample_ts; verbose := false |}.

Definition raw_bad_list : RunControl PyVal :=
  {| skiptypes := STSequence [PStr "float64"; PInt 3]; skips := None;
     skipmethods := None; skipattrs := None; includemethods := None;
     skipauto := None; ts := sample_ts; verbose := false |}.





(** A method whose first argument carries a default value. *)
Definition Qux : ClassDesc :=
  {| tarname := "Qux";
     attrs := [("z", Atom "unknownclass")];
     methods :=
       [(method_key "resize"
           [{| arg_name := "n"; arg_type := Atom "int32";
               arg_default := Some (PInt 0) |}],
         None)] |}.

Definition Qux_env : Env := [("qux_module", [("Qux", DClass Qux)])].

(** ** Vocabulary of the further properties *)

(** [filter(f, m_nms)[0]] for the prefix [m], when the list is not
    empty. *)
Definition first_hit (m_nms : list Signature) (m : string)
  : option Signature :=
  hd_error (filter (starts_with m) m_nms).

(** The keys that the prefixes find, in the order of the prefixes. *)
Definition first_hits (m_nms : list Signature) (skippers : list string)
  : list Signature :=
  flat_map (fun m => match first_hit m_nms m with
                     | Some s => [s]
                     | None => []
                     end) skippers.

(** The prefixes that find no key. *)
Definition unmatched (m_nms : list Signature) (skippers : list string)
  : list string :=
  filter (fun m => match first_hit m_nms m with
                   | Some _ => false
                   | None => true
                   end) skippers.

(** What [skip_attrs] leaves of a class stored under [k]. *)
Definition skip_attrs_result (sa : list (string * list string)) (k : string)
    (c : ClassDesc) : ClassDesc :=
  if inb (tarname c) (Dict.keys sa) then
    match Dict.get k sa with
    | Some skippers =>
        with_attrs c
          (filter (fun item => negb (inb (fst item) skippers)) (attrs c))
    | None => c
    end
  else c.

(** The value is as it was, or as the body has left it, however the body
    ended. *)
Definition touched {V : Type} (body : string -> V -> Proc V)
    (k : string) (v v' : V) : Prop :=
  v' = v \/ exists r l, body k v = (r, v', l).

(** Two passes give the same environment in either order, when both
    orders return. *)
Definition commute_at (p q : Env -> Proc Env) (env : Env) : Prop :=
  forall e e',
    runs_to (andthen p q) env e -> runs_to (andthen q p) env e' -> e = e'.

(** Every class is stored under its target name. *)
Definition keys_agree (env : Env) : Prop :=
  forall m k c, class_in env m k c -> tarname c = k.

(** ** Worked inputs of the further properties *)

(** One attribute of [Foo] and one name that [Foo] does not have. *)
Definition rc_skip_attrs : RunControl TypeMatcher :=
  {| skiptypes := STNotSpecified; skips := None; skipmethods := None;
     skipattrs := Some [("Foo", ["x"; "w"])]; includemethods := None;
     skipauto := None; ts := sample_ts; verbose := false |}.

(** However the pass ends on an environment whose dictionaries have unique
    keys, it leaves the same modules and entries, with classes that have
    lost entries at most and whose dictionaries still have unique keys. *)
Definition only_narrows (pass : Env -> Proc Env) : Prop :=
  forall env r env' l,
    wf_env env = true -> pass env = (r, env', l) ->
    env_rel (fun _ => narrowed) env env' /\ wf_env env' = true.

(** What the mapping branch of [skip_types] leaves of a class. *)
Definition skip_types_mapping_result (rc : RunControl TypeMatcher)
    (mp : list (string * list TypeMatcher)) (c : ClassDesc) : ClassDesc :=
  if inb (tarname c) (Dict.keys mp) then
    match skips rc with
    | Some sk =>
        match Dict.get (tarname c) sk with
        | Some sl => modify_desc sl c
        | None => c
        end
    | None => c
    end
  else c.

(** The per-class [skiptypes] of [rc_per_class] with an attribute [skips]
    that names [Foo]. *)
Definition rc_per_class_int32 : RunControl TypeMatcher :=
  {| skiptypes := STMapping [("Foo", [matcher "float64"])];
     skips := Some [("Foo", [matcher "int32"])];
     skipmethods := None; skipattrs := None; includemethods := None;
     skipauto := None; ts := sample_ts; verbose := false |}.

(** The check of a method by [skip_auto] reaches, after types that are all
    known, an argument that carries a default value. *)
Definition reaches_default (rc : RunControl TypeMatcher) (m_sig : Signature)
    (m_attr : option MethodInfo) : Prop :=
  (forall info, m_attr = Some info -> canon (ts rc) (ret info) <> None)
  /\ exists n arg,
       nth_error (sig_args m_sig) n = Some arg
       /\ arg_default arg <> None
       /\ forall n' arg', n' < n -> nth_error (sig_args m_sig) n' = Some arg' ->
            arg_default arg' = None /\ canon (ts rc) (arg_type arg') <> None.

(** A per-class [skiptypes] with two classes, as written in the
    configuration. *)
Definition raw_two_classes : RunControl PyVal :=
  {| skiptypes :=
       STMapping [("Foo", [PStr "float64"]);
                  ("Bar", [PTuple [PStr "vector"; PStr "float64"];
                           PStr "int32"])];
     skips := None; skipmethods := None; skipattrs := None;
     includemethods := None; skipauto := None; ts := sample_ts;
     verbose := false |}.

(** An empty list of methods to include for [Computer]. *)
Definition rc_include_none : RunControl TypeMatcher :=
  {| skiptypes := STNotSpecified; skips := None; skipmethods := None;
     skipattrs := None; includemethods := Some [("Computer", [])];
     skipauto := None; ts := sample_ts; verbose := false |}.

(** The prefixes are distinct and no key starts with two of them. *)
Definition prefixes_apart (skippers : list string) (m_nms : list Signature)
  : Prop :=
  NoDup skippers
  /\ forall m1 m2 s,
       In m1 skippers -> In m2 skippers -> In s m_nms ->
       starts_with m1 s = true -> starts_with m2 s = true -> m1 = m2.

(** The rules of [rc] can be applied to every class of [env]: the classes
    are stored under their target name; a per-class [skiptypes] comes with
    an attribute [skips] that has its keys; the prefixes of [skipmethods]
    for a class are apart on its methods; and [skipauto] is unset or no
    argument carries a default value. *)
Definition applicable (rc : RunControl TypeMatcher) (env : Env) : Prop :=
  keys_agree env
  /\ (forall mp, skiptypes rc = STMapping mp ->
        exists sk, skips rc = Some sk /\ incl (Dict.keys mp) (Dict.keys sk))
  /\ (forall sm m k c skippers,
        skipmethods rc = Some sm -> class_in env m k c ->
        Dict.get k sm = Some skippers ->
        prefixes_apart skippers (Dict.keys (methods c)))
  /\ (skipauto rc = None \/ no_defaults env).

(** The messages of [skip_auto] for the class [c] stored under [k]: one
    for each attribute whose type the canonicalizer does not know, in the
    order of the attributes, then one for each method whose check ends on
    an unknown type, in the order of the methods. *)
Definition attr_messages (rc : RunControl TypeMatcher) (k : string)
    (c : ClassDesc) : Log :=
  flat_map (fun item => match canon (ts rc) (snd item) with
                        | None => [LogAttrUnknownType (fst item) k (snd item)]
                        | Some _ => []
                        end) (attrs c).

Definition method_messages (rc : RunControl TypeMatcher) (k : string)
    (c : ClassDesc) : Log :=
  flat_map (fun item => match check_method rc (fst item) (snd item) with
                        | Unknown t =>
                            [LogMethodUnknownType (sig_name (fst item)) k t]
                        | Known | Unpack => []
                        end) (methods c).

(** The messages for the environment, in the order of the modules and of
    their entries. *)
Definition skip_auto_messages (rc : RunControl TypeMatcher) (env : Env)
  : Log :=
  flat_map (fun m =>
              flat_map (fun kd =>
                          match snd kd with
                          | DClass c =>
                              attr_messages rc (fst kd) c
                              ++ method_messages rc (fst kd) c
                          | DOther _ => []
                          end) (snd m)) env.

(** Two overloads that use the unknown type. *)
Definition Twin : ClassDesc :=
  {| tarname := "Twin";
     attrs := [];
     methods :=
       [(method_key "get" [plain_arg "u" (Atom "unknownclass")], None);
        (method_key "get" [plain_arg "u" (Atom "unknownclass");
                           plain_arg "n" (Atom "int32")], None)] |}.

Definition Twin_env : Env := [("twin_module", [("Twin", DClass Twin)])].

(** A class with a method that uses the unknown type and a method whose
    argument carries a default value, followed by a class with an
    attribute of the unknown type; and the same with the two methods in
    the other order. *)
Definition W : ClassDesc :=
  {| tarname := "W";
     attrs := [("n", Atom "int32")];
     methods :=
       [(method_key "f" [plain_arg "u" (Atom "unknownclass")], None);
        (method_key "g"
           [{| arg_name := "a"; arg_type := Atom "int32";
               arg_default := Some (PInt 0) |}],
         None)] |}.

Definition V : ClassDesc :=
  {| tarname := "V"; attrs := [("z", Atom "unknownclass")]; methods := [] |}.

Definition W_env : Env := [("w_module", [("W", DClass W); ("V", DClass V)])].

Definition W_env_rev : Env :=
  [("w_module",
    [("W", DClass (with_methods W (rev (methods W)))); ("V", DClass V)])].



(** * Properties *)

(** ** Equality of keys *)

Lemma list_eqb_eq {A} (eqb : A -> A -> bool) (l1 : list A) :
  Forall (fun x => forall y, eqb x y = true <-> x = y) l1 ->
  forall l2, list_eqb eqb l1 l2 = true <-> l1 = l2.
Proof.
  induction 1 as [|x l1 Hx _ IH]; intros [|y l2]; simpl;
    try (split; [discriminate|discriminate]); try tauto.
  rewrite andb_true_iff, Hx, IH. split.
  - intros [-> ->]; reflexivity.
  - intros E; injection E; auto.
Qed.

Lemma Forall_all {A} (P : A -> Prop) (l : list A) :
  (forall x, P x) -> Forall P l.
Proof. intros HP; induction l; constructor; auto. Qed.

Lemma type_eqb_eq : forall a b, type_eqb a b = true <-> a = b.
Proof.
  fix IH 1. intros [x|xs] [y|ys]; simpl;
    try (split; discriminate).
  - rewrite String.eqb_eq. split; congruence.
  - assert (HF : Forall (fun x => forall y, type_eqb x y = true <-> x = y) xs).
    { induction xs as [|x xs IHxs]; constructor; auto. }
    rewrite (list_eqb_eq type_eqb HF). split; congruence.
Qed.

Lemma pyval_eqb_eq : forall a b, pyval_eqb a b = true <-> a = b.
Proof.
  fix IH 1. intros [|x|x|xs] [|y|y|ys]; simpl;
    try (split; discriminate); try tauto.
  - rewrite Z.eqb_eq. split; congruence.
  - rewrite String.eqb_eq. split; congruence.
  - assert (HF : Forall (fun x => forall y, pyval_eqb x y = true <-> x = y) xs).
    { induction xs as [|x xs IHxs]; constructor; auto. }
    rewrite (list_eqb_eq pyval_eqb HF). split; congruence.
Qed.

Lemma option_eqb_eq {A} (eqb : A -> A -> bool) :
  (forall x y, eqb x y = true <-> x = y) ->
  forall o1 o2, option_eqb eqb o1 o2 = true <-> o1 = o2.
Proof.
  intros He [x|] [y|]; simpl; try (split; discriminate); try tauto.
  rewrite He. split; congruence.
Qed.

Lemma arg_eqb_eq : forall a b, arg_eqb a b = true <-> a = b.
Proof.
  intros [n1 t1 d1] [n2 t2 d2]. unfold arg_eqb; simpl.
  rewrite !andb_true_iff, String.eqb_eq, type_eqb_eq,
    (option_eqb_eq pyval_eqb pyval_eqb_eq).
  split.
  - intros [[-> ->] ->]; reflexivity.
  - intros E; injection E; auto.
Qed.

Lemma name_eqb_eq : forall a b, name_eqb a b = true <-> a = b.
Proof.
  intros [x|x xs] [y|y ys]; simpl; try (split; discriminate).
  - rewrite String.eqb_eq. split; congruence.
  - rewrite andb_true_iff, String.eqb_eq,
      (list_eqb_eq type_eqb (Forall_all _ xs type_eqb_eq)).
    split.
    + intros [-> ->]; reflexivity.
    + intros E; injection E; auto.
Qed.

Lemma sig_eqb_eq : forall a b, sig_eqb a b = true <-> a = b.
Proof.
  intros [n1 a1] [n2 a2]. unfold sig_eqb; simpl.
  rewrite andb_true_iff, name_eqb_eq,
    (list_eqb_eq arg_eqb (Forall_all _ a1 arg_eqb_eq)).
  split.
  - intros [-> ->]; reflexivity.
  - intros E; injection E; auto.
Qed.

#[export] Instance string_EqbKeyOk : EqbKeyOk string.
Proof. constructor. exact String.eqb_eq. Qed.

#[export] Instance name_EqbKeyOk : EqbKeyOk MethodName.
Proof. constructor. exact name_eqb_eq. Qed.

#[export] Instance sig_EqbKeyOk : EqbKeyOk Signature.
Proof. constructor. exact sig_eqb_eq. Qed.

(** ** Dictionaries *)

Section DictFacts.
Context {K V : Type} `{EqbKeyOk K}.

Lemma keqb_refl (x : K) : keqb x x = true.
Proof. apply keqb_eq; reflexivity. Qed.

Lemma keqb_neq (x y : K) : keqb x y = false <-> x <> y.
Proof.
  destruct (keqb x y) eqn:E.
  - apply keqb_eq in E. split; [discriminate | congruence].
  - split; [|reflexivity]. intros _ Hxy. apply keqb_eq in Hxy. congruence.
Qed.

Lemma inb_In (x : K) (l : list K) : inb x l = true <-> In x l.
Proof.
  unfold inb. rewrite existsb_exists. split.
  - intros [y [Hy E]]. apply keqb_eq in E. subst; assumption.
  - intros Hx. exists x. split; [assumption | apply keqb_refl].
Qed.

Lemma inb_not_In (x : K) (l : list K) : inb x l = false <-> ~ In x l.
Proof.
  rewrite <- inb_In. destruct (inb x l); split; congruence.
Qed.

Lemma uniqb_NoDup (l : list K) : Dict.uniqb l = true <-> NoDup l.
Proof.
  induction l as [|k l IH]; simpl.
  - split; [constructor | reflexivity].
  - rewrite andb_true_iff, negb_true_iff, inb_not_In, IH, NoDup_cons_iff.
    tauto.
Qed.

Lemma keys_filter (p : K * V -> bool) (d : list (K * V)) (k : K) :
  In k (Dict.keys (filter p d)) -> In k (Dict.keys d).
Proof.
  unfold Dict.keys. rewrite !in_map_iff.
  intros [kv [E Hin]]. apply filter_In in Hin. exists kv; tauto.
Qed.

Lemma wf_filter (p : K * V -> bool) (d : list (K * V)) :
  Dict.wf d = true -> Dict.wf (filter p d) = true.
Proof.
  unfold Dict.wf. rewrite !uniqb_NoDup.
  induction d as [|[k v] d IH]; simpl; intros Hnd; [constructor|].
  apply NoDup_cons_iff in Hnd. destruct Hnd as [Hk Hnd].
  destruct (p (k, v)); simpl; auto.
  constructor; auto.
  intros Hin. apply Hk. exact (keys_filter _ _ _ Hin).
Qed.

Lemma wf_del (k : K) (d : list (K * V)) :
  Dict.wf d = true -> Dict.wf (Dict.del k d) = true.
Proof. apply wf_filter. Qed.

(** Two entries of a dictionary with the same key are the same entry. *)
Lemma wf_entry_unique (d : list (K * V)) (k : K) (v v' : V) :
  Dict.wf d = true -> In (k, v) d -> In (k, v') d -> v = v'.
Proof.
  unfold Dict.wf. rewrite uniqb_NoDup.
  induction d as [|[k0 v0] d IH]; simpl; [tauto|].
  intros Hnd H1 H2. apply NoDup_cons_iff in Hnd. destruct Hnd as [Hk Hnd].
  assert (Hkey : forall w, In (k, w) d -> In k (map fst d)).
  { intros w Hw. apply in_map_iff. exists (k, w); auto. }
  destruct H1 as [E1|H1], H2 as [E2|H2].
  - congruence.
  - injection E1 as -> ->. elim Hk. eauto.
  - injection E2 as -> ->. elim Hk. eauto.
  - eauto.
Qed.

Lemma get_Some_In (d : list (K * V)) (k : K) (v : V) :
  Dict.get k d = Some v -> In (k, v) d.
Proof.
  induction d as [|[k0 v0] d IH]; simpl; [discriminate|].
  destruct (keqb k k0) eqn:E.
  - apply keqb_eq in E. intros [= ->]. subst. auto.
  - auto.
Qed.

Lemma get_None_keys (d : list (K * V)) (k : K) :
  Dict.get k d = None <-> ~ In k (Dict.keys d).
Proof.
  induction d as [|[k0 v0] d IH]; simpl; [tauto|].
  destruct (keqb k k0) eqn:E.
  - apply keqb_eq in E. subst. split; [discriminate | tauto].
  - apply keqb_neq in E. rewrite IH. split; [|tauto].
    intros Hn [E'|Hin]; [congruence | tauto].
Qed.

Lemma In_get (d : list (K * V)) (k : K) (v : V) :
  Dict.wf d = true -> In (k, v) d -> Dict.get k d = Some v.
Proof.
  intros Hwf Hin. destruct (Dict.get k d) as [w|] eqn:E.
  - apply get_Some_In in E. f_equal. exact (wf_entry_unique _ _ _ _ Hwf E Hin).
  - apply get_None_keys in E. elim E. apply in_map_iff. exists (k, v); auto.
Qed.

Lemma mem_In (d : list (K * V)) (k : K) :
  Dict.mem k d = true <-> In k (Dict.keys d).
Proof. apply inb_In. Qed.


Lemma del_absent (k : K) (d : list (K * V)) :
  Dict.mem k d = false -> Dict.del k d = d.
Proof.
  unfold Dict.mem. rewrite inb_not_In. intros Hn.
  unfold Dict.del. induction d as [|[k0 v0] d IH]; simpl in *; auto.
  destruct (keqb k k0) eqn:E; simpl.
  - apply keqb_eq in E. subst. tauto.
  - f_equal. apply IH. tauto.
Qed.

(** [for a in blacklist: del d[a]] keeps the entries whose key is not in
    the blacklist. *)
Lemma del_all_filter (bl : list K) (d : list (K * V)) :
  del_all bl d = filter (fun kv => negb (inb (fst kv) bl)) d.
Proof.
  unfold del_all. revert d.
  induction bl as [|a bl IH]; intros d; simpl.
  - induction d as [|kv d IHd]; simpl; congruence.
  - rewrite IH. unfold Dict.del.
    induction d as [|kv d IHd]; simpl; auto.
    destruct (keqb a (fst kv)) eqn:E; simpl.
    + apply keqb_eq in E. subst. rewrite keqb_refl. simpl. exact IHd.
    + assert (E' : keqb (fst kv) a = false).
      { apply keqb_neq. apply keqb_neq in E. congruence. }
      rewrite E'. simpl. destruct (inb (fst kv) bl); simpl; congruence.
Qed.

(** A loop over a snapshot that deletes the entries chosen by [P]. *)
Lemma fold_del_snapshot (P : K * V -> bool)
    (step : list (K * V) -> K * V -> list (K * V)) :
  (forall live item,
      step live item = if P item then Dict.del (fst item) live else live) ->
  forall snap live,
    fold_left step snap live = del_all (Dict.keys (filter P snap)) live.
Proof.
  intros Hstep. unfold del_all.
  induction snap as [|item snap IH]; intros live; simpl; auto.
  rewrite IH, Hstep. destruct (P item); reflexivity.
Qed.

(** With unique keys, deleting the keys of the chosen entries deletes the
    chosen entries and no other. *)
Lemma filter_blacklist (P : K * V -> bool) (d : list (K * V)) :
  Dict.wf d = true ->
  filter (fun kv => negb (inb (fst kv) (Dict.keys (filter P d)))) d
  = filter (fun kv => negb (P kv)) d.
Proof.
  intros Hwf. apply filter_ext_in. intros [k v] Hin. simpl. f_equal.
  destruct (P (k, v)) eqn:EP.
  - apply inb_In. apply in_map_iff. exists (k, v). split; auto.
    apply filter_In; auto.
  - apply inb_not_In. intros Hk. apply in_map_iff in Hk.
    destruct Hk as [[k' v'] [E Hf]]. simpl in E. subst k'.
    apply filter_In in Hf. destruct Hf as [Hin' HP].
    rewrite (wf_entry_unique _ _ _ _ Hwf Hin' Hin) in HP. congruence.
Qed.

Lemma fold_del_self (P : K * V -> bool)
    (step : list (K * V) -> K * V -> list (K * V)) (d : list (K * V)) :
  (forall live item,
      step live item = if P item then Dict.del (fst item) live else live) ->
  Dict.wf d = true ->
  fold_left step d d = filter (fun kv => negb (P kv)) d.
Proof.
  intros Hstep Hwf.
  rewrite (fold_del_snapshot P step Hstep), del_all_filter.
  apply filter_blacklist; assumption.
Qed.

Lemma set_fresh (k : K) (v : V) (d : list (K * V)) :
  ~ In k (Dict.keys d) -> Dict.set k v d = d ++ [(k, v)].
Proof.
  induction d as [|[k0 v0] d IH]; simpl; auto.
  intros Hn. destruct (keqb k k0) eqn:E.
  - apply keqb_eq in E. subst. tauto.
  - f_equal. apply IH. tauto.
Qed.

End DictFacts.

Lemma filter_all {A} (p : A -> bool) (l : list A) :
  (forall x, In x l -> p x = true) -> filter p l = l.
Proof.
  induction l as [|x l IH]; simpl; intros Hp; auto.
  rewrite (Hp x (or_introl eq_refl)). f_equal. apply IH. auto.
Qed.

Lemma filter_filter {A} (p q : A -> bool) (l : list A) :
  filter p (filter q l) = filter (fun x => q x && p x) l.
Proof.
  induction l as [|x l IH]; simpl; auto.
  destruct (q x); simpl; [destruct (p x)|]; simpl; congruence.
Qed.

(** ** [modify_desc] *)

Lemma first_match_None (skips : list TypeMatcher) (t : TypeDescriptor) :
  first_match skips t = None <-> ~ matches_any skips t.
Proof.
  unfold matches_any. induction skips as [|tm skips IH]; simpl.
  - split; [intros _ [tm [[] _]] | reflexivity].
  - destruct (flatmatches tm t) eqn:E.
    + split; [discriminate|]. intros Hn. elim Hn. exists tm; auto.
    + destruct (first_match skips t) as [j|] eqn:E1; simpl.
      * split; [discriminate|]. intros Hn. destruct IH as [_ IH2].
        assert (Hno : Some j = @None nat).
        { apply IH2. intros [tm0 [Hin Hf]]. apply Hn. exists tm0; auto. }
        discriminate.
      * split; [|reflexivity]. intros _ [tm0 [[->|Hin] Hf]]; [congruence|].
        destruct IH as [IH1 _]. apply (IH1 eq_refl). exists tm0; auto.
Qed.

Lemma first_match_Some (skips : list TypeMatcher) (t : TypeDescriptor) :
  forall j, first_match skips t = Some j -> first_at skips t j.
Proof.
  unfold first_at. induction skips as [|tm skips IH]; simpl; [discriminate|].
  intros j. destruct (flatmatches tm t) eqn:E.
  - intros [= <-]. split; [exists tm; auto | intros j' tm' Hlt; lia].
  - destruct (first_match skips t) as [j0|]; simpl; [|discriminate].
    intros [= <-]. destruct (IH j0 eq_refl) as [Hex Hbefore]. split.
    + exact Hex.
    + intros [|j'] tm' Hlt; simpl.
      * intros [= <-]. exact E.
      * apply Hbefore. lia.
Qed.

Lemma scan_args_None (skips : list TypeMatcher) (m_args : list Arg) (i : nat) :
  scan_args skips m_args i = None
  <-> forall arg, In arg m_args -> ~ matches_any skips (arg_type arg).
Proof.
  revert i. induction m_args as [|a m_args IH]; intros i; simpl.
  - split; [intros _ arg [] | reflexivity].
  - destruct (first_match skips (arg_type a)) as [j|] eqn:E.
    + split; [discriminate|]. intros Hn.
      assert (Hno : first_match skips (arg_type a) = None).
      { apply first_match_None. apply Hn. auto. }
      congruence.
    + rewrite IH. apply first_match_None in E. split.
      * intros Hrest arg [<-|Hin]; auto.
      * intros Hall arg Hin. apply Hall. auto.
Qed.

Lemma scan_args_Some (skips : list TypeMatcher) (m_args : list Arg) :
  forall i site j,
    scan_args skips m_args i = Some (site, j) ->
    exists n arg,
      site = AtArg (i + n) /\ nth_error m_args n = Some arg
      /\ first_at skips (arg_type arg) j
      /\ forall n' arg', n' < n -> nth_error m_args n' = Some arg' ->
                         ~ matches_any skips (arg_type arg').
Proof.
  induction m_args as [|a m_args IH]; intros i site j; simpl; [discriminate|].
  destruct (first_match skips (arg_type a)) as [j0|] eqn:E.
  - intros [= <- <-]. exists 0, a. rewrite Nat.add_0_r.
    repeat split; auto.
    + destruct (first_match_Some _ _ E) as [Hex _]. exact Hex.
    + destruct (first_match_Some _ _ E) as [_ Hb]. exact Hb.
    + intros n' arg' Hlt. lia.
  - intros Hscan. destruct (IH _ _ _ Hscan) as [n [arg [Hs [Hn [Hf Hb]]]]].
    exists (S n), arg. repeat split; auto.
    + rewrite Hs. f_equal. lia.
    + destruct Hf as [Hex _]. exact Hex.
    + destruct Hf as [_ Hf]. exact Hf.
    + intros [|n'] arg' Hlt; simpl.
      * intros [= <-]. apply first_match_None. exact E.
      * apply Hb. lia.
Qed.

Lemma scan_method_None (skips : list TypeMatcher) (m_key : Signature)
    (m_ret : option MethodInfo) :
  scan_method skips m_key m_ret = None <-> ~ method_matched skips m_key m_ret.
Proof.
  unfold scan_method, method_matched. destruct m_ret as [info|].
  - destruct (first_match skips (ret info)) as [j|] eqn:E.
    + split; [discriminate|]. intros Hn. elim Hn. left. exists info.
      split; auto.
      destruct (first_match_Some _ _ E) as [[tm [Hnth Hf]] _].
      exists tm. split; auto. eapply nth_error_In; eauto.
    + apply first_match_None in E. rewrite scan_args_None. split.
      * intros Hargs [[info' [[= <-] Hm]]|[arg [Hin Hm]]]; [tauto|].
        exact (Hargs arg Hin Hm).
      * intros Hn arg Hin Hm. apply Hn. right. exists arg; auto.
  - rewrite scan_args_None. split.
    + intros Hargs [[info' [[=] _]]|[arg [Hin Hm]]]. exact (Hargs arg Hin Hm).
    + intros Hn arg Hin Hm. apply Hn. right. exists arg; auto.
Qed.

Lemma modify_desc_attrs_filter (skips : list TypeMatcher) (desc : ClassDesc) :
  Dict.wf (attrs desc) = true ->
  attrs (modify_desc skips desc) = filter (attr_kept skips) (attrs desc).
Proof.
  intros Ha. unfold modify_desc; simpl.
  rewrite (fold_del_self (fun item => negb (attr_kept skips item))); auto.
  - apply filter_ext. intros item. apply negb_involutive.
  - intros live item. unfold attr_kept.
    destruct (first_match skips (snd item)); reflexivity.
Qed.

Lemma modify_desc_methods_filter (skips : list TypeMatcher) (desc : ClassDesc) :
  Dict.wf (methods desc) = true ->
  methods (modify_desc skips desc) = filter (method_kept skips) (methods desc).
Proof.
  intros Hm. unfold modify_desc; simpl.
  rewrite (fold_del_self (fun item => negb (method_kept skips item))); auto.
  - apply filter_ext. intros item. apply negb_involutive.
  - intros live item. unfold method_kept.
    destruct (scan_method skips (fst item) (snd item)); reflexivity.
Qed.

Lemma modify_desc_filter (skips : list TypeMatcher) (desc : ClassDesc) :
  wf_class desc = true ->
  modify_desc skips desc
  = {| tarname := tarname desc;
       attrs := filter (attr_kept skips) (attrs desc);
       methods := filter (method_kept skips) (methods desc) |}.
Proof.
  unfold wf_class. rewrite andb_true_iff. intros [Ha Hm].
  rewrite <- (modify_desc_attrs_filter skips desc Ha).
  rewrite <- (modify_desc_methods_filter skips desc Hm).
  reflexivity.
Qed.

Lemma first_at_matches (skips : list TypeMatcher) (t : TypeDescriptor) (j : nat) :
  first_at skips t j -> matches_any skips t.
Proof.
  intros [[tm [Hnth Hf]] _]. exists tm. split; auto.
  eapply nth_error_In; eauto.
Qed.

Lemma scan_method_AtReturn (skips : list TypeMatcher) (m_key : Signature)
    (m_ret : option MethodInfo) (j : nat) :
  scan_method skips m_key m_ret = Some (AtReturn, j) ->
  exists info, m_ret = Some info /\ first_at skips (ret info) j.
Proof.
  unfold scan_method. intros H. destruct m_ret as [info|].
  - exists info. split; auto.
    destruct (first_match skips (ret info)) as [j0|] eqn:E.
    + injection H as <-. exact (first_match_Some _ _ E).
    + destruct (scan_args_Some _ _ _ H) as [n [arg [Hs _]]]. discriminate.
  - destruct (scan_args_Some _ _ _ H) as [n [arg [Hs _]]]. discriminate.
Qed.

Lemma scan_method_AtArg (skips : list TypeMatcher) (m_key : Signature)
    (m_ret : option MethodInfo) (i j : nat) :
  scan_method skips m_key m_ret = Some (AtArg i, j) ->
  (forall info, m_ret = Some info -> ~ matches_any skips (ret info))
  /\ exists arg,
       nth_error (sig_args m_key) i = Some arg
       /\ first_at skips (arg_type arg) j
       /\ forall i' arg', i' < i ->
            nth_error (sig_args m_key) i' = Some arg' ->
            ~ matches_any skips (arg_type arg').
Proof.
  unfold scan_method. intros H. split.
  - intros info ->.
    destruct (first_match skips (ret info)) eqn:E; [discriminate|].
    apply first_match_None; assumption.
  - assert (Hargs : scan_args skips (sig_args m_key) 0 = Some (AtArg i, j)).
    { destruct m_ret as [info|]; auto.
      destruct (first_match skips (ret info)); [discriminate | auto]. }
    destruct (scan_args_Some _ _ _ Hargs) as [n [arg [Hs [Hn [Hf Hb]]]]].
    simpl in Hs. injection Hs as ->. exists arg. auto.
Qed.

Lemma scan_method_matched (skips : list TypeMatcher) (m_key : Signature)
    (m_ret : option MethodInfo) :
  scan_method skips m_key m_ret <> None <-> method_matched skips m_key m_ret.
Proof.
  split.
  - destruct (scan_method skips m_key m_ret) as [[[|i] j]|] eqn:E;
      [| |congruence]; intros _.
    + destruct (scan_method_AtReturn _ _ _ E) as [info [-> Hf]].
      left. exists info. split; auto. exact (first_at_matches Hf).
    + destruct (scan_method_AtArg _ _ _ E) as [_ [arg [Hn [Hf _]]]].
      right. exists arg. split; [eapply nth_error_In; eauto|].
      exact (first_at_matches Hf).
  - intros Hm Hnone. apply scan_method_None in Hnone. tauto.
Qed.

(** C1: [modify_desc] deletes a method exactly when some matcher
    flatmatches its return type (when the method has one) or the type of
    one of its arguments, and the methods that stay keep their value.  The
    scan looks at the return type first and then at the arguments in
    declared order, and stops at the first argument and, for it, the first
    matcher that match. *)
Theorem modify_desc_methods_deleted_iff_matched :
  forall (skips : list TypeMatcher) (desc : ClassDesc)
         (m_key : Signature) (m_ret : option MethodInfo),
    Dict.wf (methods desc) = true ->
    In (m_key, m_ret) (methods desc) ->
    (Dict.mem m_key (methods (modify_desc skips desc)) = false
     <-> method_matched skips m_key m_ret)
    /\ (~ method_matched skips m_key m_ret ->
        Dict.get m_key (methods (modify_desc skips desc)) = Some m_ret)
    /\ (scan_method skips m_key m_ret <> None
        <-> method_matched skips m_key m_ret)
    /\ (forall j, scan_method skips m_key m_ret = Some (AtReturn, j) ->
          exists info, m_ret = Some info /\ first_at skips (ret info) j)
    /\ (forall i j, scan_method skips m_key m_ret = Some (AtArg i, j) ->
          (forall info, m_ret = Some info -> ~ matches_any skips (ret info))
          /\ exists arg,
               nth_error (sig_args m_key) i = Some arg
               /\ first_at skips (arg_type arg) j
               /\ forall i' arg', i' < i ->
                    nth_error (sig_args m_key) i' = Some arg' ->
                    ~ matches_any skips (arg_type arg')).
Proof.
  intros skips desc m_key m_ret Hwf Hin.
  pose proof (scan_method_matched skips m_key m_ret) as Hscan.
  rewrite (modify_desc_methods_filter skips desc Hwf).
  split; [split|split; [|split; [split|split]]].
  - intros Hmem. apply Hscan. intros Hnone.
    apply inb_not_In in Hmem. apply Hmem.
    apply in_map_iff. exists (m_key, m_ret). split; auto.
    apply filter_In. split; auto. unfold method_kept; simpl.
    rewrite Hnone. reflexivity.
  - intros Hm. apply inb_not_In. intros Hk.
    apply in_map_iff in Hk. destruct Hk as [[k v] [E Hf]]. simpl in E. subst k.
    apply filter_In in Hf. destruct Hf as [Hin' Hkept].
    rewrite (wf_entry_unique _ _ _ _ Hwf Hin' Hin) in Hkept.
    unfold method_kept in Hkept; simpl in Hkept.
    apply Hscan in Hm. destruct (scan_method skips m_key m_ret); congruence.
  - intros Hnm. apply In_get.
    + apply wf_filter; assumption.
    + apply filter_In. split; auto. unfold method_kept; simpl.
      apply scan_method_None in Hnm. rewrite Hnm. reflexivity.
  - apply Hscan.
  - apply Hscan.
  - apply scan_method_AtReturn.
  - intros i j Hs. apply (scan_method_AtArg _ _ _ Hs).
Qed.

Lemma modify_desc_methods_witness :
  Dict.wf (methods Bar) = true
  /\ In (foo_vector, None) (methods Bar)
  /\ (Dict.mem foo_vector (methods (modify_desc [matcher "float64"] Bar)) = false
      <-> method_matched [matcher "float64"] foo_vector None).
Proof.
  split; [reflexivity|]. split; [simpl; auto|].
  exact (proj1 (modify_desc_methods_deleted_iff_matched
                  [matcher "float64"] Bar foo_vector None
                  eq_refl (or_introl eq_refl))).
Defined.

Lemma attr_kept_iff (skips : list TypeMatcher)
    (item : string * TypeDescriptor) :
  attr_kept skips item = true <-> ~ matches_any skips (snd item).
Proof.
  unfold attr_kept. rewrite <- first_match_None.
  destruct (first_match skips (snd item)); split; congruence.
Qed.

Lemma method_kept_iff (skips : list TypeMatcher)
    (item : Signature * option MethodInfo) :
  method_kept skips item = true
  <-> ~ method_matched skips (fst item) (snd item).
Proof.
  unfold method_kept. rewrite <- scan_method_None.
  destruct (scan_method skips (fst item) (snd item)); split; congruence.
Qed.

(** C2: the attributes that survive [modify_desc] are exactly the
    attributes whose type no matcher of the list flatmatches.  In
    particular the class [Foo] with the attributes [x: 'float64'] and
    [y: 'int32'], filtered with the global list [['float64']], is left
    with [y: 'int32']. *)
Theorem modify_desc_surviving_attrs :
  forall (skips : list TypeMatcher) (desc : ClassDesc),
    Dict.wf (attrs desc) = true ->
    (forall a t,
        In (a, t) (attrs (modify_desc skips desc))
        <-> In (a, t) (attrs desc) /\ ~ matches_any skips t)
    /\ attrs (modify_desc [matcher "float64"] Foo) = [("y", Atom "int32")]
    /\ skip_types rc_skip_float64 Foo_env
       = (Returns,
          [("foo_module",
            [("Foo", DClass (with_attrs Foo [("y", Atom "int32")]))])],
          [LogRemovingTypes]).
Proof.
  intros skips desc Hwf. split; [|split; reflexivity].
  intros a t. rewrite (modify_desc_attrs_filter skips desc Hwf), filter_In.
  rewrite attr_kept_iff. simpl. tauto.
Qed.

Lemma modify_desc_surviving_attrs_witness :
  Dict.wf (attrs Foo) = true
  /\ (In ("y", Atom "int32") (attrs (modify_desc [matcher "float64"] Foo))
      <-> In ("y", Atom "int32") (attrs Foo)
          /\ ~ matches_any [matcher "float64"] (Atom "int32")).
Proof.
  split; [reflexivity|].
  exact (proj1 (modify_desc_surviving_attrs [matcher "float64"] Foo eq_refl)
               "y" (Atom "int32")).
Defined.

(** ** Iteration over the environment *)

Lemma for_items_rel {V : Type} (body : string -> V -> Proc V) :
  forall d d' l,
    for_items body d = (Returns, d', l) ->
    items_rel (fun k v v' => exists l0, body k v = (Returns, v', l0)) d d'.
Proof.
  unfold items_rel.
  induction d as [|[k v] d IH]; simpl; intros d' l H.
  - injection H as <- _. constructor.
  - destruct (body k v) as [[[[]|e] v'] l1] eqn:Eb; [|discriminate].
    destruct (for_items body d) as [[r rest'] l2] eqn:Er.
    injection H as -> <- _.
    constructor; simpl; eauto.
Qed.

Lemma items_rel_impl {V : Type} (R R' : string -> V -> V -> Prop)
    (d d' : list (string * V)) :
  (forall k v v', In (k, v) d -> In (k, v') d' -> R k v v' -> R' k v v') ->
  items_rel R d d' -> items_rel R' d d'.
Proof.
  unfold items_rel. intros Himp H.
  induction H as [|[k v] [k' v'] d d' [Hk HR] _ IH]; constructor.
  - simpl in *. subst k'. split; [reflexivity | apply Himp; simpl; auto].
  - apply IH. intros k0 v0 v0' H1 H2. apply Himp; simpl; auto.
Qed.

Lemma items_rel_compose {V : Type} (R1 R2 : string -> V -> V -> Prop)
    (d1 d2 d3 : list (string * V)) :
  items_rel R1 d1 d2 -> items_rel R2 d2 d3 ->
  items_rel (fun k v v'' => exists v', R1 k v v' /\ R2 k v' v'') d1 d3.
Proof.
  unfold items_rel. intros H12. revert d3.
  induction H12 as [|[k1 v1] [k2 v2] d1 d2 [Hk HR] _ IH]; intros d3 H23;
    inversion H23 as [|x [k3 v3] l l' [Hk' HR'] Hrest]; subst; constructor.
  - simpl in *. subst. split; eauto.
  - apply IH; assumption.
Qed.

Lemma items_rel_refl {V : Type} (R : string -> V -> V -> Prop)
    (d : list (string * V)) :
  (forall k v, In (k, v) d -> R k v v) -> items_rel R d d.
Proof.
  unfold items_rel. induction d as [|[k v] d IH]; intros HR; constructor.
  - split; auto. apply HR; simpl; auto.
  - apply IH. intros k0 v0 Hin. apply HR; simpl; auto.
Qed.

Lemma items_rel_eq {V : Type} (d d' : list (string * V)) :
  items_rel (fun _ v v' => v = v') d d' -> d = d'.
Proof.
  unfold items_rel. induction 1 as [|[k v] [k' v'] d d' [Hk HR] _ IH]; auto.
  simpl in *. congruence.
Qed.

Lemma items_rel_In_l {V : Type} (R : string -> V -> V -> Prop)
    (d d' : list (string * V)) (k : string) (v : V) :
  items_rel R d d' -> In (k, v) d -> exists v', In (k, v') d' /\ R k v v'.
Proof.
  unfold items_rel.
  induction 1 as [|[k1 v1] [k2 v2] d d' [Hk HR] _ IH]; simpl; [tauto|].
  intros [E|Hin].
  - injection E as -> ->. simpl in *. subst. eauto.
  - destruct (IH Hin) as [v' [Hin' HR']]. eauto.
Qed.

Lemma items_rel_In_r {V : Type} (R : string -> V -> V -> Prop)
    (d d' : list (string * V)) (k : string) (v' : V) :
  items_rel R d d' -> In (k, v') d' -> exists v, In (k, v) d /\ R k v v'.
Proof.
  unfold items_rel.
  induction 1 as [|[k1 v1] [k2 v2] d d' [Hk HR] _ IH]; simpl; [tauto|].
  intros [E|Hin].
  - injection E as -> ->. simpl in *. subst. eauto.
  - destruct (IH Hin) as [v [Hin' HR']]. eauto.
Qed.

(** A body that returns on every value returns on the dictionary. *)
Lemma for_items_returns {V : Type} (body : string -> V -> Proc V)
    (d : list (string * V)) :
  (forall k v, In (k, v) d -> exists v' l, body k v = (Returns, v', l)) ->
  exists d' l, for_items body d = (Returns, d', l).
Proof.
  induction d as [|[k v] d IH]; simpl; intros Hb.
  - eauto.
  - destruct (Hb k v (or_introl eq_refl)) as [v' [l1 ->]].
    destruct IH as [d' [l2 ->]]; eauto.
Qed.

(** A body that leaves every value as it is leaves the dictionary as it
    is. *)
Lemma for_items_stable {V : Type} (body : string -> V -> Proc V)
    (d : list (string * V)) :
  (forall k v, In (k, v) d -> exists l, body k v = (Returns, v, l)) ->
  exists l, for_items body d = (Returns, d, l).
Proof.
  induction d as [|[k v] d IH]; simpl; intros Hb.
  - eauto.
  - destruct (Hb k v (or_introl eq_refl)) as [l1 ->].
    destruct IH as [l2 ->]; eauto.
Qed.

(** An exception of the body on some value is an exception of the loop,
    when the body raises no other exception. *)
Lemma for_items_raises {V : Type} (body : string -> V -> Proc V) (e : Exn)
    (d : list (string * V)) (k : string) (v : V) :
  (forall k0 v0 e0 v0' l0, body k0 v0 = (Raise e0, v0', l0) -> e0 = e) ->
  In (k, v) d ->
  (exists v' l, body k v = (Raise e, v', l)) ->
  exists d' l, for_items body d = (Raise e, d', l).
Proof.
  intros Honly. induction d as [|[k0 v0] d IH]; simpl; [tauto|].
  intros Hin Hr.
  destruct (body k0 v0) as [[[[]|e0] v0'] l0] eqn:Eb.
  - destruct Hin as [E|Hin].
    + injection E as -> ->. destruct Hr as [v' [l Hr]]. congruence.
    + destruct (IH Hin Hr) as [d' [l ->]]. eauto.
  - rewrite (Honly _ _ _ _ _ Eb). eauto.
Qed.

Lemma on_class_returns (body : string -> ClassDesc -> Proc ClassDesc)
    (k : string) (d d' : Desc) (l : Log) :
  on_class body k d = (Returns, d', l) -> desc_rel (step body) k d d'.
Proof.
  destruct d as [c|v]; simpl.
  - destruct (body k c) as [[r c'] l0] eqn:Eb. intros [= -> <- <-].
    simpl. exists l0. assumption.
  - intros [= <- _]. reflexivity.
Qed.

Lemma for_classes_rel (body : string -> ClassDesc -> Proc ClassDesc)
    (env env' : Env) (l : Log) :
  for_classes body env = (Returns, env', l) -> env_rel (step body) env env'.
Proof.
  intros H. apply for_items_rel in H. unfold env_rel.
  eapply items_rel_impl; [|exact H].
  intros m md md' _ _ [l0 Hmd]. apply for_items_rel in Hmd.
  eapply items_rel_impl; [|exact Hmd].
  intros k d d' _ _ [l1 Hd]. exact (on_class_returns _ _ _ Hd).
Qed.

Lemma env_rel_impl (R R' : string -> ClassDesc -> ClassDesc -> Prop)
    (env env' : Env) :
  (forall m k c c',
      class_in env m k c -> class_in env' m k c' -> R k c c' -> R' k c c') ->
  env_rel R env env' -> env_rel R' env env'.
Proof.
  unfold env_rel. intros Himp. apply items_rel_impl.
  intros m md md' Hm Hm'. apply items_rel_impl.
  intros k [c|v] [c'|v'] Hk Hk'; simpl; auto.
  apply (Himp m); [exists md | exists md']; auto.
Qed.

Lemma env_rel_compose (R1 R2 : string -> ClassDesc -> ClassDesc -> Prop)
    (e1 e2 e3 : Env) :
  env_rel R1 e1 e2 -> env_rel R2 e2 e3 ->
  env_rel (fun k c c'' => exists c', R1 k c c' /\ R2 k c' c'') e1 e3.
Proof.
  unfold env_rel. intros H12 H23.
  pose proof (items_rel_compose H12 H23) as H. clear H12 H23.
  eapply items_rel_impl; [|exact H].
  intros m md md'' _ _ [md' [Ha Hb]].
  pose proof (items_rel_compose Ha Hb) as H'.
  eapply items_rel_impl; [|exact H'].
  intros k d d'' _ _ [d' [Hd Hd']].
  destruct d as [c|v], d' as [c'|v'], d'' as [c''|v'']; simpl in *;
    try tauto; eauto; congruence.
Qed.

Lemma env_rel_eq (env env' : Env) :
  env_rel (fun _ c c' => c = c') env env' -> env = env'.
Proof.
  unfold env_rel. intros H. apply items_rel_eq.
  eapply items_rel_impl; [|exact H].
  intros m md md' _ _ Hmd. apply items_rel_eq.
  eapply items_rel_impl; [|exact Hmd].
  intros k [c|v] [c'|v'] _ _; simpl; try tauto; congruence.
Qed.

Lemma env_rel_class_in_l (R : string -> ClassDesc -> ClassDesc -> Prop)
    (env env' : Env) (m k : string) (c : ClassDesc) :
  env_rel R env env' -> class_in env m k c ->
  exists c', class_in env' m k c' /\ R k c c'.
Proof.
  intros H [md [Hm Hk]].
  destruct (items_rel_In_l _ _ H Hm) as [md' [Hm' Hmd]].
  destruct (items_rel_In_l _ _ Hmd Hk) as [[c'|v'] [Hk' Hd]]; simpl in Hd;
    [|tauto].
  exists c'. split; [exists md'; auto | assumption].
Qed.

Lemma env_rel_class_in_r (R : string -> ClassDesc -> ClassDesc -> Prop)
    (env env' : Env) (m k : string) (c' : ClassDesc) :
  env_rel R env env' -> class_in env' m k c' ->
  exists c, class_in env m k c /\ R k c c'.
Proof.
  intros H [md' [Hm' Hk']].
  destruct (items_rel_In_r _ _ H Hm') as [md [Hm Hmd]].
  destruct (items_rel_In_r _ _ Hmd Hk') as [[c|v] [Hk Hd]]; simpl in Hd;
    [|tauto].
  exists c. split; [exists md; auto | assumption].
Qed.

Lemma for_classes_stable (body : string -> ClassDesc -> Proc ClassDesc)
    (env : Env) :
  (forall m k c, class_in env m k c -> stable body k c) ->
  exists l, for_classes body env = (Returns, env, l).
Proof.
  intros Hs. unfold for_classes. apply for_items_stable.
  intros m md Hm. apply for_items_stable.
  intros k [c|v] Hk; simpl; [|eauto].
  destruct (Hs m k c) as [l ->]; [exists md; auto|]. eauto.
Qed.

Lemma for_classes_returns (body : string -> ClassDesc -> Proc ClassDesc)
    (env : Env) :
  (forall m k c, class_in env m k c -> exists c', step body k c c') ->
  exists env' l, for_classes body env = (Returns, env', l).
Proof.
  intros Hs. unfold for_classes. apply for_items_returns.
  intros m md Hm. apply for_items_returns.
  intros k [c|v] Hk; simpl; [|eauto].
  destruct (Hs m k c) as [c' [l ->]]; [exists md; auto|]. eauto.
Qed.

Lemma for_classes_raises (body : string -> ClassDesc -> Proc ClassDesc)
    (e : Exn) (env : Env) (m k : string) (c : ClassDesc) :
  (forall k0 c0 e0 c0' l0, body k0 c0 = (Raise e0, c0', l0) -> e0 = e) ->
  class_in env m k c ->
  (exists c' l, body k c = (Raise e, c', l)) ->
  exists env' l, for_classes body env = (Raise e, env', l).
Proof.
  intros Honly [md [Hm Hk]] [c' [l Hr]]. unfold for_classes.
  assert (Hon : forall k0 d0 e0 d0' l0,
             on_class body k0 d0 = (Raise e0, d0', l0) -> e0 = e).
  { intros k0 [c0|v0] e0 d0' l0; simpl; [|discriminate].
    destruct (body k0 c0) as [[r c0'] l1] eqn:Eb. intros [= -> _ _].
    exact (Honly _ _ _ _ _ Eb). }
  apply for_items_raises with (k := m) (v := md); auto.
  - intros k0 md0 e0 md0' l0 Hmd.
    clear - Hon Hmd. revert md0' l0 Hmd.
    induction md0 as [|[k1 d1] md0 IH]; simpl; intros md0' l0; [discriminate|].
    destruct (on_class body k1 d1) as [[[[]|e1] d1'] l1] eqn:Eo.
    + destruct (for_items (on_class body) md0) as [[r rest'] l2] eqn:Er.
      intros [= -> _ _]. eapply IH; reflexivity.
    + intros [= <- _ _]. exact (Hon _ _ _ _ _ Eo).
  - apply for_items_raises with (k := k) (v := DClass c); auto.
    simpl. rewrite Hr. eauto.
Qed.

Lemma wf_env_class_in (env : Env) :
  wf_env env = true
  <-> forall m k c, class_in env m k c -> wf_class c = true.
Proof.
  unfold wf_env. rewrite forallb_forall. split.
  - intros H m k c [md [Hm Hk]]. specialize (H _ Hm). simpl in H.
    rewrite forallb_forall in H. exact (H _ Hk).
  - intros H [m md] Hm. simpl. apply forallb_forall. intros [k [c|v]] Hk; simpl;
      [|reflexivity].
    apply (H m k). exists md; auto.
Qed.

(** ** [skip_auto] *)

Section SkipAutoFacts.
Variable rc : RunControl TypeMatcher.



Lemma check_args_no_defaults (m_args : list Arg) :
  (forall arg, In arg m_args -> arg_default arg = None) ->
  check_args rc m_args <> Unpack.
Proof.
  induction m_args as [|a m_args IH]; simpl; [discriminate|].
  intros Hd. rewrite (Hd a (or_introl eq_refl)).
  destruct (canon (ts rc) (arg_type a)); [|discriminate].
  apply IH. auto.
Qed.





Lemma scan_methods_returns (cls_name : string)
    (items : list (Signature * option MethodInfo)) :
  (forall m_sig m_attr, In (m_sig, m_attr) items ->
     check_method rc m_sig m_attr <> Unpack) ->
  exists bl l, scan_methods rc cls_name items = (Value bl, l).
Proof.
  induction items as [|[s0 i0] items IH]; simpl; intros Hc; [eauto|].
  destruct IH as [bl [l Hs]]; [intros; apply Hc; auto|].
  pose proof (Hc s0 i0 (or_introl eq_refl)) as H0.
  destruct (check_method rc s0 i0); [eauto | | congruence].
  rewrite Hs. eauto.
Qed.

Lemma check_method_no_defaults (m_sig : Signature)
    (m_attr : option MethodInfo) :
  (forall arg, In arg (sig_args m_sig) -> arg_default arg = None) ->
  check_method rc m_sig m_attr <> Unpack.
Proof.
  intros Hd. unfold check_method. destruct m_attr as [info|].
  - destruct (canon (ts rc) (ret info)); [|discriminate].
    apply check_args_no_defaults; assumption.
  - apply check_args_no_defaults; assumption.
Qed.

End SkipAutoFacts.



(** C3: the documented behaviour is that after [skip_auto] no attribute
    and no method that is left uses a type the canonicalizer does not
    know.  The loop over the arguments unpacks pairs inside a [try] that
    catches [TypeError] only: on an argument with a default value, which
    is a triple, the pass ends with [ValueError] in the middle of the scan,
    before any method is deleted and before the classes that follow are
    looked at.  On [W_env] the method [f], marked and reported, is still
    there with its argument of the unknown type, and so is the attribute
    [z] of the class [V], in whichever order the methods of [W] are
    scanned. *)
Theorem skip_auto_default_keeps_unknown :
  skipauto (rc_auto true) = Some true
  /\ skip_auto (rc_auto true) W_env
     = (Raise ValueError, W_env,
        [LogMethodUnknownType (NameStr "f") "W" (Atom "unknownclass")])
  /\ skip_auto (rc_auto true) W_env_rev = (Raise ValueError, W_env_rev, [])
  /\ class_in W_env "w_module" "W" W
  /\ In (method_key "f" [plain_arg "u" (Atom "unknownclass")], None)
        (methods W)
  /\ class_in W_env "w_module" "V" V
  /\ In ("z", Atom "unknownclass") (attrs V)
  /\ canon (ts (rc_auto true)) (Atom "unknownclass") = None.
Proof.
  split; [reflexivity|]. split; [reflexivity|]. split; [reflexivity|].
  split; [exists [("W", DClass W); ("V", DClass V)]; simpl; auto|].
  split; [simpl; auto|].
  split; [exists [("W", DClass W); ("V", DClass V)]; simpl; auto|].
  split; [simpl; auto | reflexivity].
Qed.

(** The loop over the arguments in [skip_auto] unpacks pairs: an argument
    with a default value, which is a triple, ends the pass with
    [ValueError].  The attributes of the class have been filtered by
    then. *)
Lemma skip_auto_default_argument :
  skip_auto (rc_auto true) Qux_env
  = (Raise ValueError,
     [("qux_module", [("Qux", DClass (with_attrs Qux []))])],
     [LogAttrUnknownType "z" "Qux" (Atom "unknownclass")]).
Proof. reflexivity. Qed.

(** ** [include_methods] *)

Lemma filter_keys {K V : Type} (p : K -> bool) (d : list (K * V)) :
  filter p (Dict.keys d) = Dict.keys (filter (fun kv => p (fst kv)) d).
Proof.
  unfold Dict.keys. induction d as [|[k v] d IH]; simpl; auto.
  destruct (p k); simpl; congruence.
Qed.


Lemma copy_methods_items (live : list (Signature * option MethodInfo)) :
  forall items acc,
    (forall kv, In kv items -> Dict.get (fst kv) live = Some (snd kv)) ->
    NoDup (Dict.keys acc ++ Dict.keys items) ->
    copy_methods live (Dict.keys items) acc = Value (acc ++ items).
Proof.
  induction items as [|[k v] items IH]; simpl; intros acc Hget Hnd.
  - rewrite app_nil_r. reflexivity.
  - pose proof (Hget (k, v) (or_introl eq_refl)) as Hkv. simpl in Hkv.
    rewrite Hkv.
    assert (Hk : ~ In k (Dict.keys acc)).
    { apply NoDup_remove_2 in Hnd. intros Hin. apply Hnd.
      apply in_or_app. auto. }
    rewrite (set_fresh _ _ _ Hk), IH.
    + rewrite <- app_assoc. reflexivity.
    + intros kv Hin. apply Hget. auto.
    + unfold Dict.keys in *. rewrite map_app, <- app_assoc. exact Hnd.
Qed.


(** With unique keys the new dictionary holds the entries of the old one
    whose name is to be kept. *)
Lemma copy_methods_filter (live : list (Signature * option MethodInfo))
    (keeps : list MethodName) :
  Dict.wf live = true ->
  copy_methods live
    (filter (fun x => inb (sig_name x) keeps) (Dict.keys live)) []
  = Value (filter (fun item => inb (sig_name (fst item)) keeps) live).
Proof.
  intros Hwf. rewrite filter_keys.
  rewrite copy_methods_items; [reflexivity| |].
  - intros [k v] Hin. apply filter_In in Hin. simpl.
    apply In_get; tauto.
  - simpl. apply uniqb_NoDup.
    exact (wf_filter (fun item => inb (sig_name (fst item)) keeps) _ Hwf).
Qed.

Lemma include_methods_body_selected (im : list (string * list MethodName))
    (k : string) (c : ClassDesc) (keeps : list MethodName) :
  Dict.wf (methods c) = true ->
  inb (tarname c) (Dict.keys im) = true ->
  Dict.get k im = Some keeps ->
  include_methods_body im k c
  = (Returns,
     with_methods c
       (filter (fun item => inb (sig_name (fst item)) keeps) (methods c)),
     []).
Proof.
  intros Hwf Hsel Hget. unfold include_methods_body.
  rewrite Hsel, Hget, (copy_methods_filter _ keeps Hwf). reflexivity.
Qed.


Lemma printing_inv {S : Type} (msg : LogEvent) (p : Proc S) (r : Result unit)
    (s : S) (l : Log) :
  printing msg p = (r, s, l) -> exists l0, p = (r, s, l0).
Proof.
  destruct p as [[r0 s0] l0]. simpl. intros [= -> -> _]. eauto.
Qed.

(** ** Passes that filter the entries of a class *)

Lemma filter_true {A : Type} (l : list A) : filter (fun _ => true) l = l.
Proof. apply filter_all. reflexivity. Qed.

Lemma restrict_all (p : string * TypeDescriptor -> bool)
    (q : Signature * option MethodInfo -> bool) (c : ClassDesc) :
  (forall x, In x (attrs c) -> p x = true) ->
  (forall x, In x (methods c) -> q x = true) ->
  restrict p q c = c.
Proof.
  intros Hp Hq. destruct c as [tn a m]. unfold restrict; simpl in *.
  rewrite (filter_all p a Hp), (filter_all q m Hq). reflexivity.
Qed.

Lemma restrict_restrict (p p' : string * TypeDescriptor -> bool)
    (q q' : Signature * option MethodInfo -> bool) (c : ClassDesc) :
  restrict p q (restrict p' q' c)
  = restrict (fun x => p' x && p x) (fun x => q' x && q x) c.
Proof. unfold restrict; simpl. rewrite !filter_filter. reflexivity. Qed.

Lemma wf_restrict (p : string * TypeDescriptor -> bool)
    (q : Signature * option MethodInfo -> bool) (c : ClassDesc) :
  wf_class c = true -> wf_class (restrict p q c) = true.
Proof.
  unfold wf_class, restrict; simpl. rewrite !andb_true_iff.
  intros [Ha Hm]. split; apply wf_filter; assumption.
Qed.

Lemma narrowed_refl (c : ClassDesc) : narrowed c c.
Proof.
  exists (fun _ => true), (fun _ => true). symmetry.
  apply restrict_all; reflexivity.
Qed.

Lemma narrowed_trans (c1 c2 c3 : ClassDesc) :
  narrowed c1 c2 -> narrowed c2 c3 -> narrowed c1 c3.
Proof.
  intros [p [q ->]] [p' [q' ->]]. rewrite restrict_restrict.
  eexists; eexists; reflexivity.
Qed.

Lemma wf_narrowed (c c' : ClassDesc) :
  narrowed c c' -> wf_class c = true -> wf_class c' = true.
Proof. intros [p [q ->]]. apply wf_restrict. Qed.

(** When a filtering body returns, it has narrowed the class. *)
Lemma filter_pass_step (body : string -> ClassDesc -> Proc ClassDesc)
    (k : string) (c c' : ClassDesc) :
  filter_pass body -> wf_class c = true -> step body k c c' ->
  narrowed c c'.
Proof.
  intros [ok [pa [pm [Hbody _]]]] Hwf [l Hstep].
  specialize (Hbody k c Hwf). destruct (ok k c).
  - destruct Hbody as [l0 Hb]. rewrite Hb in Hstep. injection Hstep as <- _.
    eexists; eexists; reflexivity.
  - destruct Hbody as [e [c0 [l0 Hb]]]. congruence.
Qed.

(** What a filtering body has left stays as it is under the body, also
    after more entries are removed. *)
Lemma filter_pass_stable (body : string -> ClassDesc -> Proc ClassDesc)
    (k : string) (c c1 c5 : ClassDesc) :
  filter_pass body -> wf_class c = true -> step body k c c1 ->
  narrowed c1 c5 -> stable body k c5.
Proof.
  intros [ok [pa [pm [Hbody Hok]]]] Hwf [l Hstep] [p [q ->]].
  pose proof (Hbody k c Hwf) as Hc. destruct (ok k c) eqn:Eok.
  - destruct Hc as [l0 Hb]. rewrite Hb in Hstep. injection Hstep as <- _.
    set (c1 := restrict (pa k (tarname c)) (pm k (tarname c)) c).
    assert (Hwf5 : wf_class (restrict p q c1) = true).
    { apply wf_restrict. apply wf_restrict. assumption. }
    pose proof (Hbody k (restrict p q c1) Hwf5) as H5.
    rewrite (Hok k c1 p q (Hok k c _ _ Eok)) in H5.
    destruct H5 as [l5 H5]. exists l5. rewrite H5. f_equal. f_equal.
    apply restrict_all; simpl.
    + intros x Hx. apply filter_In in Hx. destruct Hx as [Hx _].
      apply filter_In in Hx. tauto.
    + intros x Hx. apply filter_In in Hx. destruct Hx as [Hx _].
      apply filter_In in Hx. tauto.
  - destruct Hc as [e [c0 [l0 Hb]]]. congruence.
Qed.

(** A filtering pass is idempotent. *)
Lemma filter_pass_idempotent (body : string -> ClassDesc -> Proc ClassDesc)
    (env env' : Env) (l : Log) :
  filter_pass body -> wf_env env = true ->
  for_classes body env = (Returns, env', l) ->
  exists l', for_classes body env' = (Returns, env', l').
Proof.
  intros Hf Hwf Hrun. apply for_classes_rel in Hrun.
  apply for_classes_stable. intros m k c' Hc'.
  destruct (env_rel_class_in_r Hrun Hc') as [c [Hc Hstep]].
  apply (filter_pass_stable (c := c) (c1 := c')); auto.
  - exact (proj1 (wf_env_class_in env) Hwf m k c Hc).
  - apply narrowed_refl.
Qed.

(** The classes stay well formed. *)
Lemma filter_pass_wf_env (body : string -> ClassDesc -> Proc ClassDesc)
    (env env' : Env) (l : Log) :
  filter_pass body -> wf_env env = true ->
  for_classes body env = (Returns, env', l) ->
  wf_env env' = true.
Proof.
  intros Hf Hwf Hrun. apply for_classes_rel in Hrun.
  apply wf_env_class_in. intros m k c' Hc'.
  destruct (env_rel_class_in_r Hrun Hc') as [c [Hc Hstep]].
  pose proof (proj1 (wf_env_class_in env) Hwf m k c Hc) as Hwfc.
  eapply wf_narrowed; [eapply filter_pass_step; eauto | assumption].
Qed.

Lemma filter_pass_id : filter_pass (fun _ c => (Returns, c, [])).
Proof.
  exists (fun _ _ => true), (fun _ _ _ => true), (fun _ _ _ => true).
  split; [|reflexivity].
  intros k c _. exists []. rewrite restrict_all; reflexivity.
Qed.

Lemma scan_args_nil (m_args : list Arg) (i : nat) : scan_args [] m_args i = None.
Proof. revert i. induction m_args; simpl; auto. Qed.

Lemma method_kept_nil (item : Signature * option MethodInfo) :
  method_kept [] item = true.
Proof.
  unfold method_kept, scan_method.
  destruct (snd item); simpl; rewrite scan_args_nil; reflexivity.
Qed.

Lemma skip_types_filter_pass (rc : RunControl TypeMatcher) :
  filter_pass (skip_types_cls rc).
Proof.
  unfold skip_types_cls. destruct (skiptypes rc) as [|m|l|v];
    try apply filter_pass_id.
  - set (lst := fun tn : string =>
                  if inb tn (Dict.keys m) then
                    match skips rc with
                    | Some sk =>
                        match Dict.get tn sk with Some l => l | None => [] end
                    | None => []
                    end
                  else []).
    exists (fun _ c =>
              if inb (tarname c) (Dict.keys m) then
                match skips rc with
                | Some sk =>
                    match Dict.get (tarname c) sk with
                    | Some _ => true
                    | None => false
                    end
                | None => false
                end
              else true),
           (fun _ tn => attr_kept (lst tn)),
           (fun _ tn => method_kept (lst tn)).
    split; [|intros ? ? ? ? Hok; exact Hok].
    intros k c Hwf. unfold skip_types_mapping_body, lst.
    destruct (inb (tarname c) (Dict.keys m)).
    + destruct (skips rc) as [sk|]; [|eauto].
      destruct (Dict.get (tarname c) sk) as [l|]; [|eauto].
      exists []. rewrite (modify_desc_filter l c Hwf). reflexivity.
    + exists []. rewrite restrict_all; auto.
      intros x _. apply method_kept_nil.
  - exists (fun _ _ => true), (fun _ _ => attr_kept l),
           (fun _ _ => method_kept l).
    split; [|intros ? ? ? ? Hok; exact Hok].
    intros k c Hwf. exists []. unfold skip_types_sequence_body.
    rewrite (modify_desc_filter l c Hwf). reflexivity.
Qed.

Lemma skip_attrs_loop_del_all (k_key : string) (skippers : list string) :
  forall a_nms,
    fst (skip_attrs_loop k_key skippers a_nms) = del_all skippers a_nms.
Proof.
  induction skippers as [|m rest IH]; intros a_nms; simpl; auto.
  destruct (Dict.mem m a_nms) eqn:Em.
  - rewrite IH. reflexivity.
  - specialize (IH a_nms).
    destruct (skip_attrs_loop k_key rest a_nms) as [a l]. simpl in *.
    rewrite IH. unfold del_all at 2. simpl.
    rewrite (del_absent _ _ Em). reflexivity.
Qed.

Lemma skip_attrs_filter_pass (rc : RunControl TypeMatcher) :
  filter_pass (skip_attrs_cls rc).
Proof.
  unfold skip_attrs_cls. destruct (skipattrs rc) as [sa|];
    [|apply filter_pass_id].
  set (lst := fun (k tn : string) =>
                if inb tn (Dict.keys sa) then
                  match Dict.get k sa with Some l => l | None => [] end
                else []).
  exists (fun k c =>
            if inb (tarname c) (Dict.keys sa) then
              match Dict.get k sa with Some _ => true | None => false end
            else true),
         (fun k tn item => negb (inb (fst item) (lst k tn))),
         (fun _ _ _ => true).
  split; [|intros ? ? ? ? Hok; exact Hok].
  intros k c Hwf. unfold skip_attrs_body, lst.
  destruct (inb (tarname c) (Dict.keys sa)).
  - destruct (Dict.get k sa) as [skippers|]; [|eauto].
    pose proof (skip_attrs_loop_del_all k skippers (attrs c)) as Hloop.
    destruct (skip_attrs_loop k skippers (attrs c)) as [a l]. simpl in Hloop.
    exists l. subst a. rewrite del_all_filter.
    unfold restrict, with_attrs. rewrite filter_true. reflexivity.
  - exists []. rewrite restrict_all; auto.
Qed.

Lemma include_methods_filter_pass (rc : RunControl TypeMatcher) :
  filter_pass (include_methods_cls rc).
Proof.
  unfold include_methods_cls. destruct (includemethods rc) as [im|];
    [|apply filter_pass_id].
  exists (fun k c =>
            if inb (tarname c) (Dict.keys im) then
              match Dict.get k im with Some _ => true | None => false end
            else true),
         (fun _ _ _ => true),
         (fun k tn item =>
            if inb tn (Dict.keys im) then
              match Dict.get k im with
              | Some keeps => inb (sig_name (fst item)) keeps
              | None => true
              end
            else true).
  split; [|intros ? ? ? ? Hok; exact Hok].
  intros k c Hwf.
  assert (Hwfm : Dict.wf (methods c) = true).
  { unfold wf_class in Hwf. apply andb_true_iff in Hwf. tauto. }
  destruct (inb (tarname c) (Dict.keys im)) eqn:Esel.
  - destruct (Dict.get k im) as [keeps|] eqn:Eget.
    + exists []. rewrite (include_methods_body_selected im k c Hwfm Esel Eget).
      unfold restrict, with_methods. rewrite filter_true. reflexivity.
    + unfold include_methods_body. rewrite Esel, Eget. eauto.
  - unfold include_methods_body. rewrite Esel.
    exists []. rewrite restrict_all; auto.
Qed.

Lemma scan_attrs_fst (rc : RunControl TypeMatcher) (cls_name : string)
    (items : list (string * TypeDescriptor)) :
  fst (scan_attrs rc cls_name items)
  = Dict.keys (filter (fun item => negb (attr_known rc item)) items).
Proof.
  induction items as [|[a t] items IH]; simpl; auto.
  destruct (scan_attrs rc cls_name items) as [bl l]. simpl in IH.
  unfold attr_known at 1. simpl.
  destruct (canon (ts rc) t); simpl; congruence.
Qed.

Lemma scan_methods_fst (rc : RunControl TypeMatcher) (cls_name : string)
    (items : list (Signature * option MethodInfo)) :
  if forallb (method_unpacks rc) items
  then exists l,
      scan_methods rc cls_name items
      = (Value (Dict.keys
                  (filter (fun item => negb (method_not_unknown rc item))
                          items)), l)
  else exists e l, scan_methods rc cls_name items = (Raise e, l).
Proof.
  induction items as [|[m_sig m_attr] items IH]; simpl; [eauto|].
  unfold method_unpacks at 1, method_not_unknown at 1 3. simpl.
  destruct (check_method rc m_sig m_attr) eqn:Ec; simpl.
  - exact IH.
  - destruct (forallb (method_unpacks rc) items).
    + destruct IH as [l ->]. eauto.
    + destruct IH as [e [l ->]]. eauto.
  - eauto.
Qed.

Lemma forallb_filter {A : Type} (p q : A -> bool) (l : list A) :
  forallb p l = true -> forallb p (filter q l) = true.
Proof.
  rewrite !forallb_forall. intros H x Hx. apply filter_In in Hx.
  apply H. tauto.
Qed.

Lemma skip_auto_filter_pass (rc : RunControl TypeMatcher) :
  filter_pass (skip_auto_cls rc).
Proof.
  unfold skip_auto_cls. destruct (skipauto rc) as [b|];
    [|apply filter_pass_id].
  exists (fun _ c => forallb (method_unpacks rc) (methods c)),
         (fun _ _ => attr_known rc),
         (fun _ _ => method_not_unknown rc).
  split.
  - intros k c Hwf. unfold wf_class in Hwf. apply andb_true_iff in Hwf.
    destruct Hwf as [Hwfa Hwfm].
    unfold skip_auto_body.
    pose proof (scan_attrs_fst rc k (attrs c)) as Ha.
    destruct (scan_attrs rc k (attrs c)) as [abl l1]. simpl in Ha. simpl.
    pose proof (scan_methods_fst rc k (methods c)) as Hm.
    destruct (forallb (method_unpacks rc) (methods c)).
    + destruct Hm as [l2 ->]. exists (l1 ++ l2). subst abl.
      unfold restrict, with_methods, with_attrs; simpl.
      rewrite !del_all_filter, !filter_blacklist; auto.
      rewrite (filter_ext _ (attr_known rc)
                 (fun x => negb_involutive (attr_known rc x))).
      rewrite (filter_ext _ (method_not_unknown rc)
                 (fun x => negb_involutive (method_not_unknown rc x))).
      reflexivity.
    + destruct Hm as [e [l2 ->]]. eauto.
  - intros k c p q. simpl. apply forallb_filter.
Qed.

(** ** The passes as loops over the classes *)

Lemma for_classes_id (env : Env) :
  exists l, for_classes (fun _ c => (Returns, c, [])) env = (Returns, env, l).
Proof. apply for_classes_stable. intros m k c _. exists []. reflexivity. Qed.

Lemma runs_to_printing {S : Type} (msg : LogEvent) (p : S -> Proc S) (s s' : S) :
  runs_to (fun x => printing msg (p x)) s s' <-> runs_to p s s'.
Proof.
  unfold runs_to. split.
  - intros [l H]. exact (printing_inv _ _ H).
  - intros [l H]. rewrite H. simpl. eauto.
Qed.

Lemma runs_to_id (body : Env -> Proc Env) (env env' : Env) :
  (exists l, body env = (Returns, env, l)) ->
  runs_to (fun e => (Returns, e, [])) env env' <-> runs_to body env env'.
Proof.
  intros [l0 Hb]. unfold runs_to. split.
  - intros [l [= <- _]]. eauto.
  - intros [l H]. rewrite Hb in H. injection H as <- _. eauto.
Qed.

Lemma skip_types_runs (rc : RunControl TypeMatcher) (env env' : Env) :
  runs_to (skip_types rc) env env'
  <-> runs_to (for_classes (skip_types_cls rc)) env env'.
Proof.
  unfold skip_types, skip_types_cls.
  destruct (skiptypes rc) as [|m|l|v].
  - apply runs_to_id, for_classes_id.
  - apply (runs_to_printing LogRemovingTypes
             (for_classes (skip_types_mapping_body rc m))).
  - apply (runs_to_printing LogRemovingTypes
             (for_classes (skip_types_sequence_body l))).
  - destruct (for_classes_id env) as [l0 Hid]. unfold runs_to. split.
    + intros [l [= <- _]]. eauto.
    + intros [l H]. rewrite Hid in H. injection H as <- _. eauto.
Qed.

Lemma skip_attrs_runs (rc : RunControl TypeMatcher) (env env' : Env) :
  runs_to (skip_attrs rc) env env'
  <-> runs_to (for_classes (skip_attrs_cls rc)) env env'.
Proof.
  unfold skip_attrs, skip_attrs_cls. destruct (skipattrs rc) as [sa|].
  - apply (runs_to_printing LogRemovingSkipattrs
             (for_classes (skip_attrs_body sa))).
  - apply runs_to_id, for_classes_id.
Qed.

Lemma skip_auto_runs (rc : RunControl TypeMatcher) (env env' : Env) :
  runs_to (skip_auto rc) env env'
  <-> runs_to (for_classes (skip_auto_cls rc)) env env'.
Proof.
  unfold skip_auto, skip_auto_cls. destruct (skipauto rc) as [b|].
  - reflexivity.
  - apply runs_to_id, for_classes_id.
Qed.

Lemma include_methods_runs (rc : RunControl TypeMatcher) (env env' : Env) :
  runs_to (include_methods rc) env env'
  <-> runs_to (for_classes (include_methods_cls rc)) env env'.
Proof.
  unfold include_methods, include_methods_cls.
  destruct (includemethods rc) as [im|].
  - apply (runs_to_printing LogRemovingAllBut
             (for_classes (include_methods_body im))).
  - apply runs_to_id, for_classes_id.
Qed.

(** A pass that is a loop of a filtering body over the classes. *)
Lemma filtering_pass_idempotent (pass : Env -> Proc Env)
    (body : string -> ClassDesc -> Proc ClassDesc) (env : Env) :
  (forall e e', runs_to pass e e' <-> runs_to (for_classes body) e e') ->
  filter_pass body -> wf_env env = true -> idempotent_at pass env.
Proof.
  intros Hruns Hf Hwf env' l Hrun.
  assert (H1 : runs_to pass env env') by (exists l; assumption).
  apply Hruns in H1. destruct H1 as [l1 H1].
  apply Hruns. eapply filter_pass_idempotent; eauto.
Qed.

Lemma env_rel_refl (R : string -> ClassDesc -> ClassDesc -> Prop) (env : Env) :
  (forall k c, R k c c) -> env_rel R env env.
Proof.
  intros HR. unfold env_rel. apply items_rel_refl. intros m md _.
  apply items_rel_refl. intros k [c|v] _; simpl; auto.
Qed.

Lemma env_narrowed_trans (e1 e2 e3 : Env) :
  env_rel (fun _ => narrowed) e1 e2 -> env_rel (fun _ => narrowed) e2 e3 ->
  env_rel (fun _ => narrowed) e1 e3.
Proof.
  intros H12 H23. pose proof (env_rel_compose H12 H23) as H.
  eapply env_rel_impl; [|exact H].
  intros m k c c'' _ _ [c' [Ha Hb]]. exact (narrowed_trans Ha Hb).
Qed.

(** What a filtering pass has left stays as it is under the pass, also
    after other passes have removed more entries. *)
Lemma filtering_pass_stable_later (pass : Env -> Proc Env)
    (body : string -> ClassDesc -> Proc ClassDesc) (env env1 env5 : Env) :
  (forall e e', runs_to pass e e' <-> runs_to (for_classes body) e e') ->
  filter_pass body -> wf_env env = true -> runs_to pass env env1 ->
  env_rel (fun _ => narrowed) env1 env5 ->
  runs_to pass env5 env5.
Proof.
  intros Hruns Hf Hwf Hrun Hn. apply Hruns in Hrun. destruct Hrun as [l Hrun].
  apply Hruns. apply for_classes_rel in Hrun.
  apply for_classes_stable. intros m k c5 Hc5.
  destruct (env_rel_class_in_r Hn Hc5) as [c1 [Hc1 Hn1]].
  destruct (env_rel_class_in_r Hrun Hc1) as [c [Hc Hstep]].
  apply (filter_pass_stable (c := c) (c1 := c1)); auto.
  exact (proj1 (wf_env_class_in env) Hwf m k c Hc).
Qed.

Lemma andthen_runs {S : Type} (p q : S -> Proc S) (s s'' : S) :
  runs_to (andthen p q) s s''
  <-> exists s', runs_to p s s' /\ runs_to q s' s''.
Proof.
  unfold runs_to, andthen. split.
  - intros [l H]. destruct (p s) as [[[[]|e] s'] l1]; [|discriminate].
    destruct (q s') as [[r s2] l2] eqn:Eq. injection H as -> <- _.
    exists s'. eauto.
  - intros [s' [[l1 ->] [l2 ->]]]. eauto.
Qed.

(** ** Idempotence *)

Lemma filter_pass_narrowing (body : string -> ClassDesc -> Proc ClassDesc) :
  filter_pass body -> narrowing body.
Proof. intros Hf k c c' Hwf Hstep. eapply filter_pass_step; eauto. Qed.

Lemma skip_methods_loop_narrows (k_key : string) (m_nms : list Signature)
    (skippers : list string) :
  forall live live' l,
    skip_methods_loop k_key m_nms skippers live = (Returns, live', l) ->
    exists q, live' = filter q live.
Proof.
  induction skippers as [|m rest IH]; simpl; intros live live' l.
  - intros [= <- _]. exists (fun _ => true). symmetry. apply filter_true.
  - destruct (filter (starts_with m) m_nms) as [|del_key others].
    + destruct (skip_methods_loop k_key m_nms rest live) as [[r0 live0] l0]
        eqn:E. simpl. intros [= -> <- _]. exact (IH _ _ _ E).
    + destruct (Dict.mem del_key live); [|discriminate].
      intros H. destruct (IH _ _ _ H) as [q ->].
      unfold Dict.del. rewrite filter_filter. eexists. reflexivity.
Qed.

Lemma skip_methods_narrowing (rc : RunControl TypeMatcher) :
  narrowing (skip_methods_cls rc).
Proof.
  unfold skip_methods_cls. destruct (skipmethods rc) as [sm|].
  - intros k c c' _ [l Hstep]. unfold skip_methods_body in Hstep.
    destruct (inb (tarname c) (Dict.keys sm)).
    + destruct (Dict.get k sm) as [skippers|]; [|discriminate].
      destruct (skip_methods_loop k (Dict.keys (methods c)) skippers
                                  (methods c)) as [[r live] l0] eqn:E.
      injection Hstep as -> <- _.
      destruct (skip_methods_loop_narrows _ _ _ _ E) as [q ->].
      exists (fun _ => true), q. unfold restrict, with_methods.
      rewrite filter_true. reflexivity.
    + injection Hstep as <- _. apply narrowed_refl.
  - intros k c c' _ [l [= <- _]]. apply narrowed_refl.
Qed.

Lemma skip_methods_runs (rc : RunControl TypeMatcher) (env env' : Env) :
  runs_to (skip_methods rc) env env'
  <-> runs_to (for_classes (skip_methods_cls rc)) env env'.
Proof.
  unfold skip_methods, skip_methods_cls. destruct (skipmethods rc) as [sm|].
  - apply (runs_to_printing LogRemovingSkipmethods
             (for_classes (skip_methods_body sm))).
  - apply runs_to_id, for_classes_id.
Qed.

(** A pass that only removes entries leaves a narrowed environment whose
    dictionaries still have unique keys. *)
Lemma narrowing_pass_narrows (pass : Env -> Proc Env)
    (body : string -> ClassDesc -> Proc ClassDesc) (env env' : Env) :
  (forall e e', runs_to pass e e' <-> runs_to (for_classes body) e e') ->
  narrowing body -> wf_env env = true -> runs_to pass env env' ->
  env_rel (fun _ => narrowed) env env' /\ wf_env env' = true.
Proof.
  intros Hruns Hn Hwf Hrun. apply Hruns in Hrun. destruct Hrun as [l Hrun].
  apply for_classes_rel in Hrun.
  assert (Hrel : env_rel (fun _ => narrowed) env env').
  { eapply env_rel_impl; [|exact Hrun].
    intros m k c c' Hc _ Hstep. apply (Hn k); auto.
    exact (proj1 (wf_env_class_in env) Hwf m k c Hc). }
  split; [exact Hrel|].
  apply wf_env_class_in. intros m k c' Hc'.
  destruct (env_rel_class_in_r Hrel Hc') as [c [Hc Hnc]].
  eapply wf_narrowed; [exact Hnc|].
  exact (proj1 (wf_env_class_in env) Hwf m k c Hc).
Qed.

Lemma filter_same_length {A : Type} (p : A -> bool) (l : list A) :
  length l <= length (filter p l) -> filter p l = l.
Proof.
  induction l as [|x l IH]; simpl; auto.
  destruct (p x); simpl; intros Hlen.
  - f_equal. apply IH. lia.
  - pose proof (filter_length_le p l). lia.
Qed.

Lemma narrowed_antisym (c c' : ClassDesc) :
  narrowed c c' -> narrowed c' c -> c = c'.
Proof.
  intros [p [q ->]] [p' [q' H]]. destruct c as [tn a ms].
  unfold restrict in *; simpl in *. injection H as Ha Hm.
  assert (La : length a <= length (filter p a)).
  { rewrite Ha at 1. apply filter_length_le. }
  assert (Lm : length ms <= length (filter q ms)).
  { rewrite Hm at 1. apply filter_length_le. }
  rewrite (filter_same_length p a La), (filter_same_length q ms Lm).
  reflexivity.
Qed.

Lemma items_rel_antisym {V : Type} (R : string -> V -> V -> Prop)
    (d d' : list (string * V)) :
  (forall k v v', R k v v' -> R k v' v -> v = v') ->
  items_rel R d d' -> items_rel R d' d -> d = d'.
Proof.
  unfold items_rel. intros Has H. induction H as
      [|[k v] [k' v'] d d' [Hk HR] _ IH]; intros H'; auto.
  inversion H' as [|x y l1 l2 [Hk' HR'] Hrest]; subst. simpl in *. subst k'.
  f_equal; [|apply IH; assumption].
  f_equal. apply (Has k); assumption.
Qed.

Lemma env_narrowed_antisym (e e' : Env) :
  env_rel (fun _ => narrowed) e e' -> env_rel (fun _ => narrowed) e' e ->
  e = e'.
Proof.
  unfold env_rel. apply items_rel_antisym. intros m md md'.
  apply items_rel_antisym. intros k [c|v] [c'|v']; simpl; try tauto.
  - intros H H'. f_equal. apply narrowed_antisym; assumption.
  - intros -> _. reflexivity.
Qed.

Lemma runs_to_deterministic {S : Type} (p : S -> Proc S) (s a b : S) :
  runs_to p s a -> runs_to p s b -> a = b.
Proof. intros [l1 H1] [l2 H2]. congruence. Qed.

(** C4, as stated, fails: [skip_methods] deletes one method for each
    prefix, so with two overloads of [turnOn] a second run deletes the
    overload that the first run has left. *)
Lemma pipeline_not_idempotent :
  ~ idempotent_at (execute rc_turn_off) Computer_env
  /\ ~ idempotent_at (skip_methods rc_turn_off) Computer_env.
Proof.
  split; intros H.
  - destruct (H _ _ eq_refl) as [l' H']. vm_compute in H'. discriminate.
  - destruct (H _ _ eq_refl) as [l' H']. vm_compute in H'. discriminate.
Qed.

(** C4, amended: on an environment whose dictionaries have unique keys,
    each of the passes [skip_types], [skip_attrs], [skip_auto] and
    [include_methods] that returns leaves an environment on which it
    returns again and which it does not change.  When [execute] returns, a
    second [execute] returns with the same environment exactly when
    [skip_methods] finds nothing more to delete in it; this is so when
    [skipmethods] is not specified. *)
Theorem filtering_passes_idempotent :
  forall (rc : RunControl TypeMatcher) (env : Env),
    wf_env env = true ->
    idempotent_at (skip_types rc) env
    /\ idempotent_at (skip_attrs rc) env
    /\ idempotent_at (skip_auto rc) env
    /\ idempotent_at (include_methods rc) env
    /\ (forall env' l,
          execute rc env = (Returns, env', l) ->
          (runs_to (execute rc) env' env'
           <-> runs_to (skip_methods rc) env' env'))
    /\ (skipmethods rc = None -> idempotent_at (execute rc) env).
Proof.
  intros rc env Hwf.
  pose proof (skip_types_runs rc) as R1.
  pose proof (skip_methods_runs rc) as R2.
  pose proof (skip_attrs_runs rc) as R3.
  pose proof (skip_auto_runs rc) as R4.
  pose proof (include_methods_runs rc) as R5.
  pose proof (skip_types_filter_pass rc) as F1.
  pose proof (skip_attrs_filter_pass rc) as F3.
  pose proof (skip_auto_filter_pass rc) as F4.
  pose proof (include_methods_filter_pass rc) as F5.
  pose proof (skip_methods_narrowing rc) as G2.
  pose proof (filter_pass_narrowing F1) as G1.
  pose proof (filter_pass_narrowing F3) as G3.
  pose proof (filter_pass_narrowing F4) as G4.
  pose proof (filter_pass_narrowing F5) as G5.
  assert (Hpipe : forall e5 l,
             execute rc env = (Returns, e5, l) ->
             (runs_to (execute rc) e5 e5
              <-> runs_to (skip_methods rc) e5 e5)).
  { intros e5 l Hrun.
    assert (Hexec : runs_to (execute rc) env e5) by (exists l; assumption).
    unfold execute in Hexec.
    apply andthen_runs in Hexec. destruct Hexec as [e1 [H1 Hexec]].
    apply andthen_runs in Hexec. destruct Hexec as [e2 [H2 Hexec]].
    apply andthen_runs in Hexec. destruct Hexec as [e3 [H3 Hexec]].
    apply andthen_runs in Hexec. destruct Hexec as [e4 [H4 H5]].
    destruct (narrowing_pass_narrows R1 G1 Hwf H1) as [N1 W1].
    destruct (narrowing_pass_narrows R2 G2 W1 H2) as [N2 W2].
    destruct (narrowing_pass_narrows R3 G3 W2 H3) as [N3 W3].
    destruct (narrowing_pass_narrows R4 G4 W3 H4) as [N4 W4].
    destruct (narrowing_pass_narrows R5 G5 W4 H5) as [N5 W5].
    assert (S1 : runs_to (skip_types rc) e5 e5).
    { apply filtering_pass_stable_later
        with (body := skip_types_cls rc) (env := env) (env1 := e1); auto.
      exact (env_narrowed_trans N2
               (env_narrowed_trans N3 (env_narrowed_trans N4 N5))). }
    assert (S3 : runs_to (skip_attrs rc) e5 e5).
    { apply filtering_pass_stable_later
        with (body := skip_attrs_cls rc) (env := e2) (env1 := e3); auto.
      exact (env_narrowed_trans N4 N5). }
    assert (S4 : runs_to (skip_auto rc) e5 e5).
    { apply filtering_pass_stable_later
        with (body := skip_auto_cls rc) (env := e3) (env1 := e4); auto. }
    assert (S5 : runs_to (include_methods rc) e5 e5).
    { apply filtering_pass_stable_later
        with (body := include_methods_cls rc) (env := e4) (env1 := e5); auto.
      apply env_rel_refl. intros k c. apply narrowed_refl. }
    split.
    - intros Hagain. unfold execute in Hagain.
      apply andthen_runs in Hagain. destruct Hagain as [a1 [A1 Hagain]].
      apply andthen_runs in Hagain. destruct Hagain as [a2 [A2 Hagain]].
      apply andthen_runs in Hagain. destruct Hagain as [a3 [A3 Hagain]].
      apply andthen_runs in Hagain. destruct Hagain as [a4 [A4 A5]].
      rewrite (runs_to_deterministic A1 S1) in *.
      destruct (narrowing_pass_narrows R2 G2 W5 A2) as [M2 V2].
      destruct (narrowing_pass_narrows R3 G3 V2 A3) as [M3 V3].
      destruct (narrowing_pass_narrows R4 G4 V3 A4) as [M4 V4].
      destruct (narrowing_pass_narrows R5 G5 V4 A5) as [M5 _].
      assert (Eq : e5 = a2).
      { apply env_narrowed_antisym; [exact M2|].
        exact (env_narrowed_trans M3 (env_narrowed_trans M4 M5)). }
      rewrite <- Eq in A2. exact A2.
    - intros S2. unfold execute.
      apply andthen_runs. exists e5. split; [assumption|].
      apply andthen_runs. exists e5. split; [assumption|].
      apply andthen_runs. exists e5. split; [assumption|].
      apply andthen_runs. exists e5. split; assumption. }
  split; [eapply filtering_pass_idempotent; eassumption|].
  split; [eapply filtering_pass_idempotent; eassumption|].
  split; [eapply filtering_pass_idempotent; eassumption|].
  split; [eapply filtering_pass_idempotent; eassumption|].
  split; [exact Hpipe|].
  intros Hsm e5 l Hrun. apply (Hpipe e5 l Hrun).
  exists []. unfold skip_methods. rewrite Hsm. reflexivity.
Qed.

Lemma filtering_passes_idempotent_witness :
  wf_env Baz_env = true
  /\ idempotent_at (skip_auto (rc_auto true)) Baz_env
  /\ idempotent_at (execute (rc_auto true)) Baz_env.
Proof.
  split; [reflexivity|].
  destruct (filtering_passes_idempotent (rc_auto true) Baz_env eq_refl)
    as [_ [_ [Hauto [_ [_ Hexec]]]]].
  split; [exact Hauto | exact (Hexec eq_refl)].
Defined.

(** ** Where the code departs from its documentation *)

(** With [rc.skips] absent the mapping branch of [skip_types] raises as
    soon as it reaches a class named in [rc.skiptypes]. *)
Lemma skip_types_mapping_raises (rc : RunControl TypeMatcher)
    (mp : list (string * list TypeMatcher)) (env : Env) (m k : string)
    (c : ClassDesc) :
  skiptypes rc = STMapping mp -> skips rc = None ->
  class_in env m k c -> inb (tarname c) (Dict.keys mp) = true ->
  exists env' l, skip_types rc env = (Raise AttributeError, env', l).
Proof.
  intros Hst Hsk Hc Hsel. unfold skip_types. rewrite Hst.
  destruct (for_classes_raises (skip_types_mapping_body rc mp)
              (e := AttributeError) (env := env) (m := m) (k := k) (c := c))
    as [env' [l Hr]]; auto.
  - intros k0 c0 e0 c0' l0. unfold skip_types_mapping_body. rewrite Hsk.
    destruct (inb (tarname c0) (Dict.keys mp)); congruence.
  - unfold skip_types_mapping_body. rewrite Hsel, Hsk. eauto.
  - rewrite Hr. simpl. eauto.
Qed.

(** C6: the documented behaviour is that a class named in a per-class
    [skiptypes] is filtered with the list stored under its name.  The
    mapping branch reads the list from [rc.skips], which [setup] does not
    define: for [skiptypes = {'Foo': ['float64']}] the pass raises
    [AttributeError] on [Foo] and removes nothing, and when [rc.skips]
    exists its list is the one applied. *)
Theorem skip_types_per_class_reads_skips :
  setup raw_per_class = (Value rc_per_class, [])
  /\ skip_types rc_per_class Foo_env
     = (Raise AttributeError, Foo_env, [LogRemovingTypes])
  /\ skip_types rc_per_class_skips Foo_env
     = (Returns, Foo_env, [LogRemovingTypes]).
Proof. repeat split; reflexivity. Qed.

(** C7: the documented behaviour is one deletion for each prefix and a
    warning when nothing matches.  The keys are listed once, before the
    loop over the prefixes: the second [turnOn] finds the key that the
    first one has deleted and the deletion raises [KeyError], although the
    other overload of [turnOn] is still there. *)
Theorem skip_methods_stale_keys :
  skip_methods rc_turn_off_twice Computer_env
  = (Raise KeyError,
     [("computer_module",
       [("Computer",
         DClass (with_methods Computer
                   (Dict.del (method_key "turnOn" []) (methods Computer))))])],
     [LogRemovingSkipmethods])
  /\ existsb (starts_with "turnOn")
       (Dict.keys (Dict.del (method_key "turnOn" []) (methods Computer)))
     = true.
Proof. split; reflexivity. Qed.

(** C8: the documented behaviour is that [skipauto] filters when it is
    [True].  The pass only tests whether [skipauto] is specified: with
    [skipauto = False] it removes the attribute and the method of unknown
    type all the same. *)
Theorem skip_auto_runs_when_false :
  skip_auto (rc_auto false) Baz_env
  = (Returns,
     [("baz_module",
       [("Baz",
         DClass {| tarname := "Baz";
                   attrs := [("n", Atom "int32")];
                   methods := [(method_key "size" [],
                                Some {| ret := Atom "int32" |})] |})])],
     [LogAttrUnknownType "z" "Baz" (Atom "unknownclass");
      LogMethodUnknownType (NameStr "get") "Baz" (Atom "unknownclass")])
  /\ skip_auto (rc_auto false) Baz_env = skip_auto (rc_auto true) Baz_env.
Proof. split; reflexivity. Qed.

(** The parts of C8 that hold: a pass whose rule is not specified leaves
    the environment as it is and prints nothing. *)
Lemma unset_rules_change_nothing (rc : RunControl TypeMatcher) (env : Env) :
  (skiptypes rc = STNotSpecified -> skip_types rc env = (Returns, env, []))
  /\ (skipmethods rc = None -> skip_methods rc env = (Returns, env, []))
  /\ (skipattrs rc = None -> skip_attrs rc env = (Returns, env, []))
  /\ (skipauto rc = None -> skip_auto rc env = (Returns, env, []))
  /\ (includemethods rc = None -> include_methods rc env = (Returns, env, [])).
Proof.
  unfold skip_types, skip_methods, skip_attrs, skip_auto, include_methods.
  repeat split; intros ->; reflexivity.
Qed.

Lemma fold_left_unchanged {A B : Type} (f : A -> B -> A) (l : list B) :
  (forall a x, f a x = a) -> forall a, fold_left f l a = a.
Proof.
  intros Hf. induction l as [|x l IH]; intros a; simpl; auto.
  rewrite Hf. apply IH.
Qed.

Lemma modify_desc_nil (desc : ClassDesc) : modify_desc [] desc = desc.
Proof.
  destruct desc as [tn a ms]. unfold modify_desc; simpl. f_equal.
  - apply fold_left_unchanged. reflexivity.
  - apply fold_left_unchanged. intros live x.
    pose proof (method_kept_nil x) as Hk. unfold method_kept in Hk.
    destruct (scan_method [] (fst x) (snd x)); [discriminate | reflexivity].
Qed.

(** A rule that is specified and empty runs its pass, which removes
    nothing. *)
Lemma empty_rules_change_nothing (rc : RunControl TypeMatcher) (env : Env) :
  (skiptypes rc = STSequence [] -> runs_to (skip_types rc) env env)
  /\ (skiptypes rc = STMapping [] -> runs_to (skip_types rc) env env)
  /\ (skipmethods rc = Some [] -> runs_to (skip_methods rc) env env)
  /\ (skipattrs rc = Some [] -> runs_to (skip_attrs rc) env env)
  /\ (includemethods rc = Some [] -> runs_to (include_methods rc) env env).
Proof.
  unfold skip_types, skip_methods, skip_attrs, include_methods.
  repeat split; intros ->.
  - apply (runs_to_printing LogRemovingTypes
             (for_classes (skip_types_sequence_body []))).
    apply for_classes_stable. intros m k c _. exists [].
    unfold skip_types_sequence_body. rewrite modify_desc_nil. reflexivity.
  - apply (runs_to_printing LogRemovingTypes
             (for_classes (skip_types_mapping_body rc []))).
    apply for_classes_stable. intros m k c _. exists []. reflexivity.
  - apply (runs_to_printing LogRemovingSkipmethods
             (for_classes (skip_methods_body []))).
    apply for_classes_stable. intros m k c _. exists []. reflexivity.
  - apply (runs_to_printing LogRemovingSkipattrs
             (for_classes (skip_attrs_body []))).
    apply for_classes_stable. intros m k c _. exists []. reflexivity.
  - apply (runs_to_printing LogRemovingAllBut
             (for_classes (include_methods_body []))).
    apply for_classes_stable. intros m k c _. exists []. reflexivity.
Qed.

(** ** [setup] *)

Lemma TypeMatcher_new_malformed (v : PyVal) :
  malformed v -> TypeMatcher_new v = Raise MalformedPattern.
Proof. unfold malformed, TypeMatcher_new. intros ->. reflexivity. Qed.

Lemma matchers_of_raise (l : list PyVal) (e : Exn) :
  matchers_of l = Raise e -> e = MalformedPattern.
Proof.
  induction l as [|v l IH]; simpl; [discriminate|].
  unfold TypeMatcher_new. destruct (parse_pattern v).
  - destruct (matchers_of l); [discriminate|]. intros [= <-]. auto.
  - intros [= <-]. reflexivity.
Qed.

Lemma matchers_of_malformed (l : list PyVal) :
  Exists malformed l -> matchers_of l = Raise MalformedPattern.
Proof.
  induction 1 as [v l Hv|v l _ IH]; simpl.
  - rewrite (TypeMatcher_new_malformed Hv). reflexivity.
  - rewrite IH. destruct (TypeMatcher_new v) as [tm|e] eqn:E; auto.
    unfold TypeMatcher_new in E. destruct (parse_pattern v); congruence.
Qed.

(** When every entry is a pattern the list comprehension returns one
    matcher for each entry, in order. *)
Lemma matchers_of_value (l : list PyVal) (tms : list TypeMatcher) :
  matchers_of l = Value tms ->
  Forall2 (fun v tm => parse_pattern v = Some (pattern tm)) l tms.
Proof.
  revert tms. induction l as [|v l IH]; simpl; intros tms.
  - intros [= <-]. constructor.
  - unfold TypeMatcher_new. destruct (parse_pattern v) as [p|] eqn:Ep;
      [|discriminate].
    destruct (matchers_of l) as [tms0|]; [|discriminate].
    intros [= <-]. constructor; auto.
Qed.

Lemma setup_mapping_malformed (raw : list (string * list PyVal)) (k : string)
    (l : list PyVal) :
  Dict.wf raw = true -> In (k, l) raw -> Exists malformed l ->
  forall klss acc,
    incl klss (Dict.keys raw) -> In k klss ->
    setup_mapping raw klss acc = Raise MalformedPattern.
Proof.
  intros Hwf Hin Hbad.
  induction klss as [|kls klss IH]; simpl; intros acc Hincl Hk; [tauto|].
  assert (Hkls : In kls (Dict.keys raw)) by (apply Hincl; simpl; auto).
  destruct (Dict.get kls raw) as [l0|] eqn:Eg.
  - destruct (matchers_of l0) as [tms|e] eqn:Em.
    + destruct Hk as [->|Hk].
      * rewrite (In_get _ _ _ Hwf Hin) in Eg. injection Eg as <-.
        rewrite (matchers_of_malformed Hbad) in Em. discriminate.
      * apply IH; auto. intros x Hx. apply Hincl. simpl; auto.
    + rewrite (matchers_of_raise _ Em). reflexivity.
  - apply get_None_keys in Eg. tauto.
Qed.

(** C9, as stated, fails: [None] is not a pattern and cannot be turned
    into matchers, yet [setup] returns, the five passes run and
    [skip_types] ignores the value. *)
Lemma unparsable_skiptypes_ignored :
  TypeMatcher_new PNone = Raise MalformedPattern
  /\ fst (setup raw_none) <> Raise MalformedPattern
  /\ run raw_none Foo_env = (Returns, Foo_env, [LogRemovingTypes]).
Proof.
  split; [reflexivity|]. split; [|reflexivity].
  intros H. vm_compute in H. discriminate H.
Qed.

(** C9, amended: when [skiptypes] is a sequence, or a mapping with unique
    keys, and one of its entries is not a pattern, [setup] raises
    [MalformedPattern] and the run ends before any pass, with the
    environment as it was.  A value that is neither a mapping nor a
    sequence is not an error: [setup] leaves it as it is and [skip_types]
    removes nothing.  When every entry of a sequence is a pattern, [setup]
    replaces it with one matcher for each entry. *)
Theorem setup_rejects_malformed_entries :
  forall (rc : RunControl PyVal) (env : Env),
    (forall l,
        skiptypes rc = STSequence l -> Exists malformed l ->
        setup rc = (Raise MalformedPattern, [])
        /\ run rc env = (Raise MalformedPattern, env, []))
    /\ (forall mp k l,
          skiptypes rc = STMapping mp -> Dict.wf mp = true ->
          In (k, l) mp -> Exists malformed l ->
          setup rc = (Raise MalformedPattern, [])
          /\ run rc env = (Raise MalformedPattern, env, []))
    /\ (forall v,
          skiptypes rc = STOther v ->
          setup rc = (Value (with_skiptypes rc (STOther v)), [])
          /\ skip_types (with_skiptypes rc (STOther v)) env
             = (Returns, env, [LogRemovingTypes]))
    /\ (forall l tms,
          skiptypes rc = STSequence l -> matchers_of l = Value tms ->
          fst (setup rc) = Value (with_skiptypes rc (STSequence tms))
          /\ Forall2 (fun v tm => parse_pattern v = Some (pattern tm)) l tms).
Proof.
  intros rc env. split; [|split; [|split]].
  - intros l Hst Hbad.
    assert (Hs : setup rc = (Raise MalformedPattern, [])).
    { unfold setup. rewrite Hst, (matchers_of_malformed Hbad). reflexivity. }
    split; [exact Hs|]. unfold run. rewrite Hs. reflexivity.
  - intros mp k l Hst Hwf Hin Hbad.
    assert (Hs : setup rc = (Raise MalformedPattern, [])).
    { unfold setup. rewrite Hst.
      rewrite setup_mapping_malformed with (k := k) (l := l); auto.
      - apply incl_refl.
      - apply in_map_iff. exists (k, l). auto. }
    split; [exact Hs|]. unfold run. rewrite Hs. reflexivity.
  - intros v Hst. unfold setup. rewrite Hst. split; reflexivity.
  - intros l tms Hst Hm. split; [|exact (matchers_of_value _ Hm)].
    unfold setup. rewrite Hst, Hm. reflexivity.
Qed.

Lemma setup_rejects_malformed_entries_witness :
  skiptypes raw_bad_list = STSequence [PStr "float64"; PInt 3]
  /\ Exists malformed [PStr "float64"; PInt 3]
  /\ run raw_bad_list Foo_env = (Raise MalformedPattern, Foo_env, []).
Proof.
  assert (Hbad : Exists malformed [PStr "float64"; PInt 3]).
  { apply Exists_cons_tl. apply Exists_cons_hd. reflexivity. }
  split; [reflexivity|]. split; [exact Hbad|].
  exact (proj2 (proj1 (setup_rejects_malformed_entries raw_bad_list Foo_env)
                      [PStr "float64"; PInt 3] eq_refl Hbad)).
Defined.

(** ** The key under which the rules of a class are looked up *)

Lemma skip_methods_loop_raise (k_key : string) (m_nms : list Signature)
    (skippers : list string) :
  forall live e live' l,
    skip_methods_loop k_key m_nms skippers live = (Raise e, live', l) ->
    e = KeyError.
Proof.
  induction skippers as [|m rest IH]; simpl; intros live e live' l;
    [discriminate|].
  destruct (filter (starts_with m) m_nms) as [|del_key others].
  - destruct (skip_methods_loop k_key m_nms rest live) as [[r0 live0] l0]
      eqn:E. simpl. intros [= -> _ _]. exact (IH _ _ _ _ E).
  - destruct (Dict.mem del_key live).
    + apply IH.
    + intros [= <- _ _]. reflexivity.
Qed.

Lemma skip_methods_body_raise (sm : list (string * list string))
    (k : string) (c : ClassDesc) (e : Exn) (c' : ClassDesc) (l : Log) :
  skip_methods_body sm k c = (Raise e, c', l) -> e = KeyError.
Proof.
  unfold skip_methods_body.
  destruct (inb (tarname c) (Dict.keys sm)); [|discriminate].
  destruct (Dict.get k sm) as [skippers|]; [|congruence].
  destruct (skip_methods_loop k (Dict.keys (methods c)) skippers (methods c))
    as [[r live] l0] eqn:E.
  intros [= -> _ _]. exact (skip_methods_loop_raise _ _ _ _ E).
Qed.

Lemma skip_attrs_body_raise (sa : list (string * list string))
    (k : string) (c : ClassDesc) (e : Exn) (c' : ClassDesc) (l : Log) :
  skip_attrs_body sa k c = (Raise e, c', l) -> e = KeyError.
Proof.
  unfold skip_attrs_body.
  destruct (inb (tarname c) (Dict.keys sa)); [|discriminate].
  destruct (Dict.get k sa) as [skippers|]; [|congruence].
  destruct (skip_attrs_loop k skippers (attrs c)). discriminate.
Qed.

Lemma copy_methods_raise (live : list (Signature * option MethodInfo))
    (m_keep : list Signature) :
  forall acc e, copy_methods live m_keep acc = Raise e -> e = KeyError.
Proof.
  induction m_keep as [|mm m_keep IH]; simpl; intros acc e; [discriminate|].
  destruct (Dict.get mm live); [apply IH | congruence].
Qed.

Lemma include_methods_body_raise (im : list (string * list MethodName))
    (k : string) (c : ClassDesc) (e : Exn) (c' : ClassDesc) (l : Log) :
  include_methods_body im k c = (Raise e, c', l) -> e = KeyError.
Proof.
  unfold include_methods_body.
  destruct (inb (tarname c) (Dict.keys im)); [|discriminate].
  destruct (Dict.get k im) as [keeps|]; [|congruence].
  destruct (copy_methods (methods c)
              (filter (fun x => inb (sig_name x) keeps)
                      (Dict.keys (methods c))) []) as [new_meths|e0] eqn:E;
    [discriminate|].
  intros [= <- _ _]. exact (copy_methods_raise _ _ _ E).
Qed.





(** * Further properties *)

(** ** How the loops over the environment end *)

Lemma for_items_raise_inv {V : Type} (body : string -> V -> Proc V) (e : Exn) :
  forall d d' l,
    for_items body d = (Raise e, d', l) ->
    exists k v v' l0, In (k, v) d /\ body k v = (Raise e, v', l0).
Proof.
  induction d as [|[k v] d IH]; simpl; intros d' l; [discriminate|].
  destruct (body k v) as [[[[]|e0] v'] l1] eqn:Eb.
  - destruct (for_items body d) as [[r rest'] l2] eqn:Er.
    intros [= -> _ _].
    destruct (IH _ _ eq_refl) as [k0 [v0 [v0' [l0 [Hin Hb]]]]].
    exists k0, v0, v0', l0. auto.
  - intros [= <- _ _]. exists k, v, v', l1. auto.
Qed.

Lemma for_classes_raise_inv (body : string -> ClassDesc -> Proc ClassDesc)
    (e : Exn) (env env' : Env) (l : Log) :
  for_classes body env = (Raise e, env', l) ->
  exists m k c c' l0, class_in env m k c /\ body k c = (Raise e, c', l0).
Proof.
  unfold for_classes. intros H.
  destruct (for_items_raise_inv _ _ H) as [m [md [md' [l0 [Hm Hmd]]]]].
  destruct (for_items_raise_inv _ _ Hmd) as [k [d [d' [l1 [Hk Hd]]]]].
  destruct d as [c|v]; simpl in Hd; [|discriminate].
  destruct (body k c) as [[r c'] l2] eqn:Eb. injection Hd as -> _ _.
  exists m, k, c, c', l2. split; [exists md; auto | assumption].
Qed.

Lemma printing_raise_inv {S : Type} (msg : LogEvent) (p : Proc S) (e : Exn)
    (s : S) (l : Log) :
  printing msg p = (Raise e, s, l) -> exists l0, p = (Raise e, s, l0).
Proof.
  destruct p as [[r0 s0] l0]. simpl. intros [= -> -> _]. eauto.
Qed.

(** ** [skip_attrs] *)

Lemma skip_attrs_body_result (sa : list (string * list string)) (k : string)
    (c : ClassDesc) :
  (inb (tarname c) (Dict.keys sa) = true -> Dict.get k sa <> None) ->
  exists l, skip_attrs_body sa k c = (Returns, skip_attrs_result sa k c, l).
Proof.
  unfold skip_attrs_body, skip_attrs_result. intros Hk.
  destruct (inb (tarname c) (Dict.keys sa)); [|eauto].
  destruct (Dict.get k sa) as [skippers|]; [|elim (Hk eq_refl); reflexivity].
  pose proof (skip_attrs_loop_del_all k skippers (attrs c)) as Hloop.
  destruct (skip_attrs_loop k skippers (attrs c)) as [a l].
  simpl in Hloop. subst a. rewrite del_all_filter. eauto.
Qed.

(** X1: [skip_attrs] returns exactly when every class whose target name is
    a key of [skipattrs] is stored under a key of [skipattrs]; the only
    exception it raises is [KeyError]; an attribute that is absent never
    makes it raise.  When it returns, a selected class has lost exactly the
    attributes named in the list found under its key, and every other class
    is as it was. *)
Theorem skip_attrs_effect :
  forall (rc : RunControl TypeMatcher) (sa : list (string * list string))
         (env : Env),
    skipattrs rc = Some sa ->
    ((exists env' l, skip_attrs rc env = (Returns, env', l))
     <-> (forall m k c,
             class_in env m k c ->
             inb (tarname c) (Dict.keys sa) = true -> Dict.get k sa <> None))
    /\ (forall e env' l, skip_attrs rc env = (Raise e, env', l) -> e = KeyError)
    /\ (forall env' l,
          skip_attrs rc env = (Returns, env', l) ->
          env_rel (fun k c c' => c' = skip_attrs_result sa k c) env env').
Proof.
  intros rc sa env Hsa. unfold skip_attrs. rewrite Hsa.
  assert (Hret : forall env' l,
             for_classes (skip_attrs_body sa) env = (Returns, env', l) ->
             forall m k c, class_in env m k c ->
               inb (tarname c) (Dict.keys sa) = true ->
               Dict.get k sa <> None).
  { intros env' l Hrun m k c Hc Hsel Hget.
    apply for_classes_rel in Hrun.
    destruct (env_rel_class_in_l Hrun Hc) as [c' [_ [l0 Hstep]]].
    unfold skip_attrs_body in Hstep. rewrite Hsel, Hget in Hstep.
    discriminate. }
  split; [split|split].
  - intros [env' [l Hrun]]. apply printing_inv in Hrun.
    destruct Hrun as [l0 Hrun]. exact (Hret _ _ Hrun).
  - intros Hkeys.
    assert (Hall : forall m k c, class_in env m k c ->
                     exists c', step (skip_attrs_body sa) k c c').
    { intros m k c Hc.
      destruct (skip_attrs_body_result sa k c (Hkeys m k c Hc)) as [l Hb].
      eexists. exists l. exact Hb. }
    destruct (for_classes_returns Hall) as [env' [l Hrun]].
    rewrite Hrun. simpl. eauto.
  - intros e env' l Hrun. apply printing_raise_inv in Hrun.
    destruct Hrun as [l0 Hrun].
    destruct (for_classes_raise_inv _ _ Hrun) as [m [k [c [c' [l1 [_ Hb]]]]]].
    exact (skip_attrs_body_raise _ _ _ Hb).
  - intros env' l Hrun. apply printing_inv in Hrun.
    destruct Hrun as [l0 Hrun].
    pose proof (Hret _ _ Hrun) as Hkeys.
    apply for_classes_rel in Hrun. eapply env_rel_impl; [|exact Hrun].
    intros m k c c' Hc _ [l1 Hstep].
    destruct (skip_attrs_body_result sa k c (Hkeys m k c Hc)) as [l2 Hb].
    congruence.
Qed.

Lemma skip_attrs_effect_witness :
  skipattrs rc_skip_attrs = Some [("Foo", ["x"; "w"])]
  /\ exists env' l, skip_attrs rc_skip_attrs Foo_env = (Returns, env', l).
Proof.
  split; [reflexivity|].
  apply (proj1 (skip_attrs_effect rc_skip_attrs Foo_env eq_refl)).
  intros m k c [md [[Hm|[]] Hk]]. injection Hm as <- <-.
  destruct Hk as [Hk|[]]. injection Hk as <- <-.
  intros _. discriminate.
Defined.

Lemma mem_del_other {K V : Type} `{EqbKeyOk K} (k k' : K) (d : list (K * V)) :
  k' <> k -> Dict.mem k' (Dict.del k d) = Dict.mem k' d.
Proof.
  intros Hne. apply eq_true_iff_eq. unfold Dict.mem. rewrite !inb_In.
  unfold Dict.keys, Dict.del. rewrite !in_map_iff. split.
  - intros [kv [E Hin]]. apply filter_In in Hin. exists kv. tauto.
  - intros [kv [E Hin]]. exists kv. split; auto. apply filter_In.
    split; auto. apply negb_true_iff, keqb_neq. congruence.
Qed.

Lemma skip_attrs_loop_log (k_key : string) (skippers : list string) :
  NoDup skippers ->
  forall a_nms,
    snd (skip_attrs_loop k_key skippers a_nms)
    = map (fun m => LogAttrNotFound m k_key)
          (filter (fun m => negb (Dict.mem m a_nms)) skippers).
Proof.
  induction 1 as [|m rest Hm _ IH]; intros a_nms; simpl; auto.
  destruct (Dict.mem m a_nms) eqn:Em; simpl.
  - rewrite IH. f_equal. apply filter_ext_in. intros m' Hin. f_equal.
    apply mem_del_other. congruence.
  - specialize (IH a_nms).
    destruct (skip_attrs_loop k_key rest a_nms) as [a l]. simpl in *.
    congruence.
Qed.

(** X2: for a selected class and a list of distinct names, the body of
    [skip_attrs] returns, removes the named attributes and prints one
    warning, naming the attribute and the key of the class, for each name
    of the list that is not an attribute of the class, in the order of the
    list. *)
Theorem skip_attrs_warnings :
  forall (sa : list (string * list string)) (k : string) (c : ClassDesc)
         (skippers : list string),
    inb (tarname c) (Dict.keys sa) = true ->
    Dict.get k sa = Some skippers ->
    NoDup skippers ->
    skip_attrs_body sa k c
    = (Returns,
       with_attrs c
         (filter (fun item => negb (inb (fst item) skippers)) (attrs c)),
       map (fun m => LogAttrNotFound m k)
           (filter (fun m => negb (Dict.mem m (attrs c))) skippers)).
Proof.
  intros sa k c skippers Hsel Hget Hnd.
  unfold skip_attrs_body. rewrite Hsel, Hget.
  pose proof (skip_attrs_loop_del_all k skippers (attrs c)) as Ha.
  pose proof (skip_attrs_loop_log k Hnd (attrs c)) as Hl.
  destruct (skip_attrs_loop k skippers (attrs c)) as [a l].
  simpl in *. subst a l. rewrite del_all_filter. reflexivity.
Qed.

Lemma skip_attrs_warnings_witness :
  skip_attrs_body [("Foo", ["x"; "w"])] "Foo" Foo
  = (Returns, with_attrs Foo [("y", Atom "int32")],
     [LogAttrNotFound "w" "Foo"]).
Proof.
  apply (skip_attrs_warnings [("Foo", ["x"; "w"])] "Foo" Foo
           (skippers := ["x"; "w"])); [reflexivity | reflexivity |].
  apply uniqb_NoDup. reflexivity.
Defined.


(** ** [skip_methods] *)

Lemma first_hit_starts (m_nms : list Signature) (m : string) (s : Signature) :
  first_hit m_nms m = Some s -> In s m_nms /\ starts_with m s = true.
Proof.
  unfold first_hit. intros H.
  assert (Hin : In s (filter (starts_with m) m_nms)).
  { destruct (filter (starts_with m) m_nms); simpl in H; [discriminate|].
    injection H as ->. simpl; auto. }
  apply filter_In in Hin. exact Hin.
Qed.

Lemma first_hits_In (m_nms : list Signature) (skippers : list string)
    (s : Signature) :
  In s (first_hits m_nms skippers)
  <-> exists m, In m skippers /\ first_hit m_nms m = Some s.
Proof.
  unfold first_hits. rewrite in_flat_map. split.
  - intros [m [Hm Hs]]. exists m. split; auto.
    destruct (first_hit m_nms m); simpl in Hs; [|tauto].
    destruct Hs as [->|[]]. reflexivity.
  - intros [m [Hm Hs]]. exists m. split; auto. rewrite Hs. simpl; auto.
Qed.

Lemma mem_del_false {K V : Type} `{EqbKeyOk K} (k k' : K) (d : list (K * V)) :
  Dict.mem k' d = false -> Dict.mem k' (Dict.del k d) = false.
Proof.
  unfold Dict.mem. rewrite !inb_not_In. intros Hn Hin. apply Hn.
  exact (keys_filter _ _ _ Hin).
Qed.

Lemma first_hits_cons (m_nms : list Signature) (m : string)
    (rest : list string) :
  first_hits m_nms (m :: rest)
  = match first_hit m_nms m with
    | Some s => s :: first_hits m_nms rest
    | None => first_hits m_nms rest
    end.
Proof. unfold first_hits. simpl. destruct (first_hit m_nms m); reflexivity. Qed.

Lemma unmatched_cons (m_nms : list Signature) (m : string)
    (rest : list string) :
  unmatched m_nms (m :: rest)
  = match first_hit m_nms m with
    | Some _ => unmatched m_nms rest
    | None => m :: unmatched m_nms rest
    end.
Proof. unfold unmatched. simpl. destruct (first_hit m_nms m); reflexivity. Qed.

Lemma skip_methods_loop_cons (k_key : string) (m_nms : list Signature)
    (m : string) (rest : list string)
    (live : list (Signature * option MethodInfo)) :
  skip_methods_loop k_key m_nms (m :: rest) live
  = match first_hit m_nms m with
    | None =>
        printing (LogMethodNotFound m k_key)
          (skip_methods_loop k_key m_nms rest live)
    | Some del_key =>
        if Dict.mem del_key live
        then skip_methods_loop k_key m_nms rest (Dict.del del_key live)
        else (Raise KeyError, live, [])
    end.
Proof.
  simpl. unfold first_hit.
  destruct (filter (starts_with m) m_nms); reflexivity.
Qed.

(** A key that a later prefix finds and that is no longer in the
    dictionary ends the loop with [KeyError]. *)
Lemma skip_methods_loop_missing (k_key : string) (m_nms : list Signature)
    (skippers : list string) :
  forall live,
    (exists s, In s (first_hits m_nms skippers) /\ Dict.mem s live = false) ->
    exists live' l,
      skip_methods_loop k_key m_nms skippers live = (Raise KeyError, live', l).
Proof.
  induction skippers as [|m rest IH]; intros live [s [Hs Hmem]].
  - destruct Hs.
  - rewrite skip_methods_loop_cons. rewrite first_hits_cons in Hs.
    destruct (first_hit m_nms m) as [s0|].
    + destruct (Dict.mem s0 live) eqn:E0; [|eauto].
      apply IH. exists s. destruct Hs as [->|Hs]; [congruence|].
      split; [exact Hs | apply mem_del_false; assumption].
    + destruct (IH live) as [live' [l Hr]]; [exists s; auto|].
      rewrite Hr. simpl. eauto.
Qed.

Lemma mem_del_same {K V : Type} `{EqbKeyOk K} (k : K) (d : list (K * V)) :
  Dict.mem k (Dict.del k d) = false.
Proof.
  unfold Dict.mem. apply inb_not_In. unfold Dict.keys, Dict.del.
  rewrite in_map_iff. intros [kv [E Hin]]. apply filter_In in Hin.
  destruct Hin as [_ Hne]. rewrite E, keqb_refl in Hne. discriminate.
Qed.

Lemma skip_methods_loop_hits (k_key : string) (m_nms : list Signature)
    (skippers : list string) :
  forall live,
    (forall s, In s (first_hits m_nms skippers) -> Dict.mem s live = true) ->
    if Dict.uniqb (first_hits m_nms skippers)
    then skip_methods_loop k_key m_nms skippers live
         = (Returns, del_all (first_hits m_nms skippers) live,
            map (fun m => LogMethodNotFound m k_key) (unmatched m_nms skippers))
    else exists live' l,
        skip_methods_loop k_key m_nms skippers live = (Raise KeyError, live', l).
Proof.
  induction skippers as [|m rest IH]; intros live Hall; [reflexivity|].
  rewrite skip_methods_loop_cons, first_hits_cons, unmatched_cons.
  rewrite first_hits_cons in Hall.
  destruct (first_hit m_nms m) as [s0|].
  - rewrite (Hall s0 (or_introl eq_refl)). simpl.
    destruct (inb s0 (first_hits m_nms rest)) eqn:Edup; simpl.
    + apply skip_methods_loop_missing. exists s0. split.
      * apply inb_In in Edup. exact Edup.
      * apply mem_del_same.
    + apply IH. intros s Hs. rewrite mem_del_other; [apply Hall; simpl; auto|].
      intros ->. apply inb_not_In in Edup. tauto.
  - specialize (IH live Hall).
    destruct (Dict.uniqb (first_hits m_nms rest)).
    + rewrite IH. reflexivity.
    + destruct IH as [live' [l ->]]. simpl. eauto.
Qed.

(** X3: for a selected class, the body of [skip_methods] looks each prefix
    up in the list of keys taken before the loop.  It returns exactly when
    no two prefixes find the same key: then the keys found are the methods
    deleted, and one warning is printed for each prefix that finds no key.
    When two prefixes find the same key the body raises [KeyError]. *)
Theorem skip_methods_first_hits :
  forall (sm : list (string * list string)) (k : string) (c : ClassDesc)
         (skippers : list string),
    inb (tarname c) (Dict.keys sm) = true ->
    Dict.get k sm = Some skippers ->
    (Dict.uniqb (first_hits (Dict.keys (methods c)) skippers) = true ->
     skip_methods_body sm k c
     = (Returns,
        with_methods c
          (filter (fun item =>
                     negb (inb (fst item)
                               (first_hits (Dict.keys (methods c)) skippers)))
                  (methods c)),
        map (fun m => LogMethodNotFound m k)
            (unmatched (Dict.keys (methods c)) skippers)))
    /\ (Dict.uniqb (first_hits (Dict.keys (methods c)) skippers) = false ->
        exists c' l, skip_methods_body sm k c = (Raise KeyError, c', l)).
Proof.
  intros sm k c skippers Hsel Hget.
  unfold skip_methods_body. rewrite Hsel, Hget.
  pose proof (skip_methods_loop_hits k (Dict.keys (methods c)) skippers
                (methods c)) as Hloop.
  assert (Hall : forall s,
             In s (first_hits (Dict.keys (methods c)) skippers) ->
             Dict.mem s (methods c) = true).
  { intros s Hs. apply first_hits_In in Hs. destruct Hs as [m [_ Hs]].
    apply first_hit_starts in Hs. apply inb_In. tauto. }
  specialize (Hloop Hall).
  destruct (Dict.uniqb (first_hits (Dict.keys (methods c)) skippers)).
  - split; [|discriminate]. intros _. rewrite Hloop, del_all_filter.
    reflexivity.
  - split; [discriminate|]. intros _. destruct Hloop as [live' [l ->]].
    eauto.
Qed.

Lemma skip_methods_first_hits_witness :
  skip_methods_body [("Computer", ["blowUp"; "sleep"; "fly"])] "Computer"
                    Computer
  = (Returns,
     with_methods Computer
       [(method_key "checkEmail" [], None);
        (method_key "turnOn" [], None);
        (method_key "turnOn" [plain_arg "fast" (Atom "bool")], None);
        (method_key "crash" [], None)],
     [LogMethodNotFound "fly" "Computer"]).
Proof.
  exact (proj1 (skip_methods_first_hits
                  [("Computer", ["blowUp"; "sleep"; "fly"])] "Computer"
                  Computer eq_refl eq_refl) eq_refl).
Defined.

Lemma length_del {K V : Type} `{EqbKeyOk K} (k : K) (d : list (K * V)) :
  Dict.wf d = true -> length d <= S (length (Dict.del k d)).
Proof.
  unfold Dict.wf. rewrite uniqb_NoDup. unfold Dict.del.
  induction d as [|[k0 v0] d IH]; simpl; intros Hnd; [lia|].
  apply NoDup_cons_iff in Hnd. destruct Hnd as [Hk0 Hnd].
  destruct (keqb k k0) eqn:E; simpl.
  - apply keqb_eq in E. subst k0.
    rewrite filter_all; [lia|]. intros [k1 v1] Hin. simpl.
    apply negb_true_iff, keqb_neq. intros ->. apply Hk0.
    apply in_map_iff. exists (k1, v1). auto.
  - specialize (IH Hnd). lia.
Qed.

(** However the loop ends, what it leaves is the dictionary without some
    of the keys that the prefixes find, at most one for each prefix. *)
Lemma skip_methods_loop_any (k_key : string) (m_nms : list Signature)
    (skippers : list string) :
  forall live r live' l,
    skip_methods_loop k_key m_nms skippers live = (r, live', l) ->
    exists dels,
      incl dels (first_hits m_nms skippers)
      /\ length dels <= length skippers
      /\ live' = del_all dels live.
Proof.
  induction skippers as [|m rest IH]; intros live r live' l.
  - simpl. intros [= _ <- _]. exists []. repeat split; auto.
    apply incl_refl.
  - rewrite skip_methods_loop_cons, first_hits_cons.
    destruct (first_hit m_nms m) as [s0|].
    + destruct (Dict.mem s0 live).
      * intros Hloop. destruct (IH _ _ _ _ Hloop) as [dels [Hi [Hl ->]]].
        exists (s0 :: dels). repeat split.
        -- intros x [<-|Hx]; simpl; auto.
        -- simpl. lia.
      * intros [= _ <- _]. exists []. repeat split; simpl.
        -- intros x [].
        -- lia.
    + destruct (skip_methods_loop k_key m_nms rest live) as [[r0 live0] l0]
        eqn:E. simpl. intros [= _ <- _].
      destruct (IH _ _ _ _ E) as [dels [Hi [Hl ->]]].
      exists dels. repeat split; auto.
Qed.

Lemma length_del_all {K V : Type} `{EqbKeyOk K} (bl : list K) :
  forall d : list (K * V),
    Dict.wf d = true -> length d <= length (del_all bl d) + length bl.
Proof.
  unfold del_all. induction bl as [|a bl IH]; intros d Hwf; simpl; [lia|].
  pose proof (IH (Dict.del a d) (wf_del a d Hwf)) as H1.
  pose proof (length_del a d Hwf) as H2. lia.
Qed.

(** X4: however the body of [skip_methods] ends, it leaves the name and
    the attributes of the class as they were, it adds no method and changes
    no value, and it keeps every method whose name starts with none of the
    prefixes of the list.  Every method it has deleted is the first key,
    in the list of keys taken before the loop, that some prefix of the list
    finds: a prefix accounts for one deleted method at most, and the
    number of methods deleted is at most the number of prefixes.  A class
    that is not selected, or whose key has no list, is left as it was. *)
Theorem skip_methods_body_frame :
  forall (sm : list (string * list string)) (k : string) (c c' : ClassDesc)
         (r : Result unit) (l : Log),
    skip_methods_body sm k c = (r, c', l) ->
    tarname c' = tarname c
    /\ attrs c' = attrs c
    /\ incl (methods c') (methods c)
    /\ (forall skippers item,
          Dict.get k sm = Some skippers ->
          In item (methods c) ->
          (forall m, In m skippers -> starts_with m (fst item) = false) ->
          In item (methods c'))
    /\ (forall skippers,
          Dict.get k sm = Some skippers -> Dict.wf (methods c) = true ->
          length (methods c) <= length (methods c') + length skippers)
    /\ (forall skippers item,
          Dict.get k sm = Some skippers ->
          In item (methods c) ->
          In item (methods c')
          \/ exists m,
               In m skippers
               /\ first_hit (Dict.keys (methods c)) m = Some (fst item))
    /\ (inb (tarname c) (Dict.keys sm) = false \/ Dict.get k sm = None ->
        c' = c).
Proof.
  intros sm k c c' r l. unfold skip_methods_body.
  destruct (inb (tarname c) (Dict.keys sm)) eqn:Hsel.
  - destruct (Dict.get k sm) as [skippers|] eqn:Hget.
    + destruct (skip_methods_loop k (Dict.keys (methods c)) skippers
                  (methods c)) as [[r0 live] l0] eqn:E.
      intros [= _ <- _]. simpl.
      destruct (skip_methods_loop_any _ _ _ _ E) as [dels [Hi [Hl ->]]].
      split; [reflexivity|]. split; [reflexivity|].
      split; [|split; [|split; [|split]]].
      * intros x Hx. rewrite del_all_filter in Hx. apply filter_In in Hx.
        tauto.
      * intros skippers0 item [= <-] Hin Hno. rewrite del_all_filter.
        apply filter_In. split; auto. apply negb_true_iff, inb_not_In.
        intros Hd. apply Hi, first_hits_In in Hd.
        destruct Hd as [m [Hm Hs]]. apply first_hit_starts in Hs.
        rewrite (Hno m Hm) in Hs. destruct Hs; discriminate.
      * intros skippers0 [= <-] Hwf.
        pose proof (length_del_all dels (methods c) Hwf). lia.
      * intros skippers0 item [= <-] Hin. rewrite del_all_filter.
        destruct (inb (fst item) dels) eqn:Ed.
        -- right. apply inb_In in Ed. apply Hi, first_hits_In in Ed.
           exact Ed.
        -- left. apply filter_In. split; [exact Hin|]. rewrite Ed.
           reflexivity.
      * intros [H|H]; discriminate.
    + intros [= _ <- _].
      split; [reflexivity|]. split; [reflexivity|].
      split; [apply incl_refl|].
      split; [intros skippers item [=]|].
      split; [intros skippers [=]|].
      split; [intros skippers item [=] | reflexivity].
  - intros [= _ <- _].
    split; [reflexivity|]. split; [reflexivity|].
    split; [apply incl_refl|].
    split; [auto|]. split; [intros; lia|].
    split; [auto | reflexivity].
Qed.

Lemma skip_methods_body_frame_witness :
  exists c' l,
    skip_methods_body [("Computer", ["turnOn"; "turnOn"])] "Computer" Computer
    = (Raise KeyError, c', l)
    /\ attrs c' = attrs Computer
    /\ In (method_key "checkEmail" [], None) (methods c')
    /\ forall item,
         In item (methods Computer) ->
         In item (methods c')
         \/ exists m,
              In m ["turnOn"; "turnOn"]
              /\ first_hit (Dict.keys (methods Computer)) m = Some (fst item).
Proof.
  eexists. eexists. split; [reflexivity|].
  destruct (skip_methods_body_frame
              [("Computer", ["turnOn"; "turnOn"])] "Computer" Computer
              eq_refl) as [_ [Ha [_ [Hkeep [_ [Hdel _]]]]]].
  split; [exact Ha|]. split.
  - apply (Hkeep ["turnOn"; "turnOn"]); [reflexivity | simpl; auto |].
    intros m [<-|[<-|[]]]; reflexivity.
  - intros item Hin. exact (Hdel ["turnOn"; "turnOn"] item eq_refl Hin).
Defined.

(** ** What no pass does *)

Lemma for_items_touched {V : Type} (body : string -> V -> Proc V) :
  forall d r d' l,
    for_items body d = (r, d', l) -> items_rel (touched body) d d'.
Proof.
  induction d as [|[k v] d IH]; simpl; intros r d' l H.
  - injection H as _ <- _. constructor.
  - destruct (body k v) as [[[[]|e] v'] l1] eqn:Eb.
    + destruct (for_items body d) as [[r0 rest'] l2] eqn:Er.
      injection H as _ <- _. constructor.
      * split; [reflexivity|]. right. simpl. eauto.
      * exact (IH _ _ _ eq_refl).
    + injection H as _ <- _. constructor.
      * split; [reflexivity|]. right. simpl. eauto.
      * change (items_rel (touched body) d d). apply items_rel_refl.
        intros k0 v0 _. left. reflexivity.
Qed.

Lemma for_classes_touched (body : string -> ClassDesc -> Proc ClassDesc)
    (env env' : Env) (r : Result unit) (l : Log) :
  for_classes body env = (r, env', l) -> env_rel (touched body) env env'.
Proof.
  intros H. apply for_items_touched in H. unfold env_rel.
  eapply items_rel_impl; [|exact H].
  intros m md md' _ _ [->|[r0 [l0 Hmd]]].
  - apply items_rel_refl. intros k [c|v] _; simpl; [left|]; reflexivity.
  - apply for_items_touched in Hmd. eapply items_rel_impl; [|exact Hmd].
    intros k d d' _ _ [->|[r1 [l1 Hd]]].
    + destruct d; simpl; [left|]; reflexivity.
    + destruct d as [c|v]; simpl in *.
      * destruct (body k c) as [[r2 c'] l2] eqn:Eb. injection Hd as _ <- _.
        simpl. right. eauto.
      * injection Hd as _ <- _. reflexivity.
Qed.

(** A loop over the classes whose body only removes entries. *)
Lemma for_classes_only_narrows (body : string -> ClassDesc -> Proc ClassDesc)
    (env env' : Env) (r : Result unit) (l : Log) :
  (forall k c r0 c' l0,
      wf_class c = true -> body k c = (r0, c', l0) -> narrowed c c') ->
  wf_env env = true ->
  for_classes body env = (r, env', l) ->
  env_rel (fun _ => narrowed) env env' /\ wf_env env' = true.
Proof.
  intros Hbody Hwf Hrun. apply for_classes_touched in Hrun.
  assert (Hrel : env_rel (fun _ => narrowed) env env').
  { eapply env_rel_impl; [|exact Hrun].
    intros m k c c' Hc _ [->|[r0 [l0 Hb]]]; [apply narrowed_refl|].
    apply (Hbody k c r0 c' l0); auto.
    exact (proj1 (wf_env_class_in env) Hwf m k c Hc). }
  split; [exact Hrel|].
  apply wf_env_class_in. intros m k c' Hc'.
  destruct (env_rel_class_in_r Hrel Hc') as [c [Hc Hn]].
  eapply wf_narrowed; [exact Hn|].
  exact (proj1 (wf_env_class_in env) Hwf m k c Hc).
Qed.

Lemma narrowed_attrs (c : ClassDesc) (p : string * TypeDescriptor -> bool) :
  narrowed c (with_attrs c (filter p (attrs c))).
Proof.
  exists p, (fun _ => true). unfold restrict, with_attrs.
  rewrite filter_true. reflexivity.
Qed.

Lemma narrowed_methods (c : ClassDesc)
    (q : Signature * option MethodInfo -> bool) :
  narrowed c (with_methods c (filter q (methods c))).
Proof.
  exists (fun _ => true), q. unfold restrict, with_methods.
  rewrite filter_true. reflexivity.
Qed.

Lemma skip_types_cls_narrows (rc : RunControl TypeMatcher) (k : string)
    (c c' : ClassDesc) (r : Result unit) (l : Log) :
  wf_class c = true -> skip_types_cls rc k c = (r, c', l) -> narrowed c c'.
Proof.
  intros Hwf. unfold skip_types_cls.
  destruct (skiptypes rc) as [|mp|sq|v].
  - intros [= _ <- _]. apply narrowed_refl.
  - unfold skip_types_mapping_body.
    destruct (inb (tarname c) (Dict.keys mp)).
    + destruct (skips rc) as [sk|].
      * destruct (Dict.get (tarname c) sk) as [sl|].
        -- intros [= _ <- _]. rewrite (modify_desc_filter sl c Hwf).
           eexists; eexists; reflexivity.
        -- intros [= _ <- _]. apply narrowed_refl.
      * intros [= _ <- _]. apply narrowed_refl.
    + intros [= _ <- _]. apply narrowed_refl.
  - unfold skip_types_sequence_body. intros [= _ <- _].
    rewrite (modify_desc_filter sq c Hwf). eexists; eexists; reflexivity.
  - intros [= _ <- _]. apply narrowed_refl.
Qed.

Lemma skip_methods_cls_narrows (rc : RunControl TypeMatcher) (k : string)
    (c c' : ClassDesc) (r : Result unit) (l : Log) :
  skip_methods_cls rc k c = (r, c', l) -> narrowed c c'.
Proof.
  unfold skip_methods_cls. destruct (skipmethods rc) as [sm|].
  - unfold skip_methods_body.
    destruct (inb (tarname c) (Dict.keys sm)).
    + destruct (Dict.get k sm) as [skippers|].
      * destruct (skip_methods_loop k (Dict.keys (methods c)) skippers
                    (methods c)) as [[r0 live] l0] eqn:E.
        intros [= _ <- _].
        destruct (skip_methods_loop_any _ _ _ _ E) as [dels [_ [_ ->]]].
        rewrite del_all_filter. apply narrowed_methods.
      * intros [= _ <- _]. apply narrowed_refl.
    + intros [= _ <- _]. apply narrowed_refl.
  - intros [= _ <- _]. apply narrowed_refl.
Qed.

Lemma skip_attrs_cls_narrows (rc : RunControl TypeMatcher) (k : string)
    (c c' : ClassDesc) (r : Result unit) (l : Log) :
  skip_attrs_cls rc k c = (r, c', l) -> narrowed c c'.
Proof.
  unfold skip_attrs_cls. destruct (skipattrs rc) as [sa|].
  - unfold skip_attrs_body.
    destruct (inb (tarname c) (Dict.keys sa)).
    + destruct (Dict.get k sa) as [skippers|].
      * pose proof (skip_attrs_loop_del_all k skippers (attrs c)) as Ha.
        destruct (skip_attrs_loop k skippers (attrs c)) as [a l0].
        simpl in Ha. subst a. intros [= _ <- _].
        rewrite del_all_filter. apply narrowed_attrs.
      * intros [= _ <- _]. apply narrowed_refl.
    + intros [= _ <- _]. apply narrowed_refl.
  - intros [= _ <- _]. apply narrowed_refl.
Qed.

Lemma skip_auto_cls_narrows (rc : RunControl TypeMatcher) (k : string)
    (c c' : ClassDesc) (r : Result unit) (l : Log) :
  skip_auto_cls rc k c = (r, c', l) -> narrowed c c'.
Proof.
  unfold skip_auto_cls. destruct (skipauto rc) as [b|].
  - unfold skip_auto_body.
    destruct (scan_attrs rc k (attrs c)) as [abl l1]. simpl.
    destruct (scan_methods rc k (methods c)) as [[bl|e] l2].
    + intros [= _ <- _]. rewrite !del_all_filter.
      eexists; eexists. unfold restrict, with_methods, with_attrs. simpl.
      reflexivity.
    + intros [= _ <- _]. rewrite del_all_filter. apply narrowed_attrs.
  - intros [= _ <- _]. apply narrowed_refl.
Qed.

Lemma include_methods_cls_narrows (rc : RunControl TypeMatcher) (k : string)
    (c c' : ClassDesc) (r : Result unit) (l : Log) :
  wf_class c = true -> include_methods_cls rc k c = (r, c', l) ->
  narrowed c c'.
Proof.
  intros Hwf. unfold include_methods_cls.
  destruct (includemethods rc) as [im|].
  - unfold include_methods_body.
    destruct (inb (tarname c) (Dict.keys im)).
    + destruct (Dict.get k im) as [keeps|].
      * unfold wf_class in Hwf. apply andb_true_iff in Hwf.
        rewrite (copy_methods_filter _ keeps (proj2 Hwf)).
        intros [= _ <- _]. apply narrowed_methods.
      * intros [= _ <- _]. apply narrowed_refl.
    + intros [= _ <- _]. apply narrowed_refl.
  - intros [= _ <- _]. apply narrowed_refl.
Qed.

Lemma pass_as_loop (pass : Env -> Proc Env)
    (body : string -> ClassDesc -> Proc ClassDesc) (msg : LogEvent)
    (env : Env) :
  pass env = printing msg (for_classes body env)
  \/ (pass env = (Returns, env, []) /\ body = fun _ c => (Returns, c, []))
  \/ (pass env = (Returns, env, [msg]) /\ body = fun _ c => (Returns, c, [])) ->
  forall r env' l,
    pass env = (r, env', l) -> exists l', for_classes body env = (r, env', l').
Proof.
  intros [Hp|[[Hp ->]|[Hp ->]]] r env' l H; rewrite Hp in H.
  - exact (printing_inv _ _ H).
  - injection H as <- <- _. apply for_classes_id.
  - injection H as <- <- _. apply for_classes_id.
Qed.

Lemma skip_types_loop (rc : RunControl TypeMatcher) (env env' : Env)
    (r : Result unit) (l : Log) :
  skip_types rc env = (r, env', l) ->
  exists l', for_classes (skip_types_cls rc) env = (r, env', l').
Proof.
  apply pass_as_loop with (msg := LogRemovingTypes).
  unfold skip_types, skip_types_cls. destruct (skiptypes rc); auto.
Qed.

Lemma skip_methods_loop_env (rc : RunControl TypeMatcher) (env env' : Env)
    (r : Result unit) (l : Log) :
  skip_methods rc env = (r, env', l) ->
  exists l', for_classes (skip_methods_cls rc) env = (r, env', l').
Proof.
  apply pass_as_loop with (msg := LogRemovingSkipmethods).
  unfold skip_methods, skip_methods_cls. destruct (skipmethods rc); auto.
Qed.

Lemma skip_attrs_loop_env (rc : RunControl TypeMatcher) (env env' : Env)
    (r : Result unit) (l : Log) :
  skip_attrs rc env = (r, env', l) ->
  exists l', for_classes (skip_attrs_cls rc) env = (r, env', l').
Proof.
  apply pass_as_loop with (msg := LogRemovingSkipattrs).
  unfold skip_attrs, skip_attrs_cls. destruct (skipattrs rc); auto.
Qed.

Lemma include_methods_loop (rc : RunControl TypeMatcher) (env env' : Env)
    (r : Result unit) (l : Log) :
  include_methods rc env = (r, env', l) ->
  exists l', for_classes (include_methods_cls rc) env = (r, env', l').
Proof.
  apply pass_as_loop with (msg := LogRemovingAllBut).
  unfold include_methods, include_methods_cls.
  destruct (includemethods rc); auto.
Qed.

Lemma skip_auto_loop (rc : RunControl TypeMatcher) (env env' : Env)
    (r : Result unit) (l : Log) :
  skip_auto rc env = (r, env', l) ->
  exists l', for_classes (skip_auto_cls rc) env = (r, env', l').
Proof.
  unfold skip_auto, skip_auto_cls. destruct (skipauto rc) as [b|].
  - eauto.
  - intros [= <- <- _]. apply for_classes_id.
Qed.

Lemma only_narrows_andthen (p q : Env -> Proc Env) :
  only_narrows p -> only_narrows q -> only_narrows (andthen p q).
Proof.
  intros Hp Hq env r env' l Hwf. unfold andthen.
  destruct (p env) as [[[[]|e] e1] l1] eqn:Ep.
  - destruct (Hp _ _ _ _ Hwf Ep) as [N1 W1].
    destruct (q e1) as [[r2 e2] l2] eqn:Eq. intros [= _ <- _].
    destruct (Hq _ _ _ _ W1 Eq) as [N2 W2].
    split; [exact (env_narrowed_trans N1 N2) | exact W2].
  - intros [= _ <- _]. exact (Hp _ _ _ _ Hwf Ep).
Qed.

Lemma skip_types_only_narrows (rc : RunControl TypeMatcher) :
  only_narrows (skip_types rc).
Proof.
  intros env r env' l Hwf H. apply skip_types_loop in H.
  destruct H as [l' H].
  eapply for_classes_only_narrows; [|exact Hwf|exact H].
  intros k c r0 c' l0. apply skip_types_cls_narrows.
Qed.

Lemma skip_methods_only_narrows (rc : RunControl TypeMatcher) :
  only_narrows (skip_methods rc).
Proof.
  intros env r env' l Hwf H. apply skip_methods_loop_env in H.
  destruct H as [l' H].
  eapply for_classes_only_narrows; [|exact Hwf|exact H].
  intros k c r0 c' l0 _. apply skip_methods_cls_narrows.
Qed.

Lemma skip_attrs_only_narrows (rc : RunControl TypeMatcher) :
  only_narrows (skip_attrs rc).
Proof.
  intros env r env' l Hwf H. apply skip_attrs_loop_env in H.
  destruct H as [l' H].
  eapply for_classes_only_narrows; [|exact Hwf|exact H].
  intros k c r0 c' l0 _. apply skip_attrs_cls_narrows.
Qed.

Lemma skip_auto_only_narrows (rc : RunControl TypeMatcher) :
  only_narrows (skip_auto rc).
Proof.
  intros env r env' l Hwf H. apply skip_auto_loop in H.
  destruct H as [l' H].
  eapply for_classes_only_narrows; [|exact Hwf|exact H].
  intros k c r0 c' l0 _. apply skip_auto_cls_narrows.
Qed.

Lemma include_methods_only_narrows (rc : RunControl TypeMatcher) :
  only_narrows (include_methods rc).
Proof.
  intros env r env' l Hwf H. apply include_methods_loop in H.
  destruct H as [l' H].
  eapply for_classes_only_narrows; [|exact Hwf|exact H].
  intros k c r0 c' l0. apply include_methods_cls_narrows.
Qed.

Lemma execute_only_narrows (rc : RunControl TypeMatcher) :
  only_narrows (execute rc).
Proof.
  unfold execute. repeat apply only_narrows_andthen.
  - apply skip_types_only_narrows.
  - apply skip_methods_only_narrows.
  - apply skip_attrs_only_narrows.
  - apply skip_auto_only_narrows.
  - apply include_methods_only_narrows.
Qed.

Lemma narrowed_incl (c c' : ClassDesc) :
  narrowed c c' ->
  tarname c' = tarname c
  /\ incl (attrs c') (attrs c) /\ incl (methods c') (methods c).
Proof.
  intros [p [q ->]]. unfold restrict; simpl. repeat split.
  - intros x Hx. apply filter_In in Hx. tauto.
  - intros x Hx. apply filter_In in Hx. tauto.
Qed.

Lemma items_rel_keys {V : Type} (R : string -> V -> V -> Prop)
    (d d' : list (string * V)) :
  items_rel R d d' -> map fst d' = map fst d.
Proof.
  unfold items_rel. induction 1 as [|x y d d' [Hk _] _ IH]; simpl; congruence.
Qed.

(** X5: however a pass or [execute] ends, on an environment whose
    dictionaries have unique keys it has only removed attributes and
    methods: the modules and their entries are the same, in the same order
    and under the same keys, descriptions that are not classes are
    untouched, no class has changed its name, and every attribute and
    method that is left was there with the same value.  The dictionaries
    still have unique keys. *)
Theorem passes_only_narrow :
  forall rc : RunControl TypeMatcher,
    only_narrows (skip_types rc)
    /\ only_narrows (skip_methods rc)
    /\ only_narrows (skip_attrs rc)
    /\ only_narrows (skip_auto rc)
    /\ only_narrows (include_methods rc)
    /\ only_narrows (execute rc)
    /\ (forall env env',
          env_rel (fun _ => narrowed) env env' ->
          map fst env' = map fst env
          /\ (forall m k c',
                class_in env' m k c' ->
                exists c,
                  class_in env m k c /\ tarname c' = tarname c
                  /\ incl (attrs c') (attrs c)
                  /\ incl (methods c') (methods c))
          /\ (forall m k c, class_in env m k c ->
                            exists c', class_in env' m k c')
          /\ (forall m md' k v,
                In (m, md') env' -> In (k, DOther v) md' ->
                exists md, In (m, md) env /\ In (k, DOther v) md)).
Proof.
  intros rc.
  split; [apply skip_types_only_narrows|].
  split; [apply skip_methods_only_narrows|].
  split; [apply skip_attrs_only_narrows|].
  split; [apply skip_auto_only_narrows|].
  split; [apply include_methods_only_narrows|]. split.
  - apply execute_only_narrows.
  - intros env env' Hrel. split; [exact (items_rel_keys Hrel)|].
    split; [|split].
    + intros m k c' Hc'.
      destruct (env_rel_class_in_r Hrel Hc') as [c [Hc Hn]].
      exists c. split; [exact Hc | exact (narrowed_incl Hn)].
    + intros m k c Hc.
      destruct (env_rel_class_in_l Hrel Hc) as [c' [Hc' _]]. eauto.
    + intros m md' k v Hm Hk.
      destruct (items_rel_In_r _ _ Hrel Hm) as [md [Hmd Hrel']].
      destruct (items_rel_In_r _ _ Hrel' Hk) as [[c|v0] [Hd Hdr]];
        simpl in Hdr; [tauto|]. subst v0. eauto.
Qed.

Lemma passes_only_narrow_witness :
  wf_env Computer_env = true
  /\ exists env' l,
       execute rc_turn_off_twice Computer_env = (Raise KeyError, env', l)
       /\ env_rel (fun _ => narrowed) Computer_env env'
       /\ wf_env env' = true.
Proof.
  split; [reflexivity|]. eexists. eexists. split; [reflexivity|].
  destruct (passes_only_narrow rc_turn_off_twice)
    as [_ [_ [_ [_ [_ [Hexec _]]]]]].
  exact (Hexec Computer_env _ _ _ eq_refl eq_refl).
Defined.

(** ** [modify_desc] and the list of matchers *)

Lemma matches_any_app (s1 s2 : list TypeMatcher) (t : TypeDescriptor) :
  matches_any (s1 ++ s2) t <-> matches_any s1 t \/ matches_any s2 t.
Proof.
  unfold matches_any. split.
  - intros [tm [Hin Hf]]. apply in_app_or in Hin.
    destruct Hin; [left | right]; exists tm; auto.
  - intros [[tm [Hin Hf]]|[tm [Hin Hf]]]; exists tm; split; auto;
      apply in_or_app; auto.
Qed.

Lemma matches_any_same (s s' : list TypeMatcher) (t : TypeDescriptor) :
  (forall tm, In tm s <-> In tm s') -> matches_any s t <-> matches_any s' t.
Proof.
  intros Hsame. unfold matches_any.
  split; intros [tm [Hin Hf]]; exists tm; split; auto; apply Hsame; auto.
Qed.

Lemma method_matched_app (s1 s2 : list TypeMatcher) (m_key : Signature)
    (m_ret : option MethodInfo) :
  method_matched (s1 ++ s2) m_key m_ret
  <-> method_matched s1 m_key m_ret \/ method_matched s2 m_key m_ret.
Proof.
  unfold method_matched. split.
  - intros [[info [E Hm]]|[arg [Hin Hm]]]; apply matches_any_app in Hm;
      destruct Hm; eauto 7.
  - intros [[[info [E Hm]]|[arg [Hin Hm]]]|[[info [E Hm]]|[arg [Hin Hm]]]];
      [left; exists info | right; exists arg
       | left; exists info | right; exists arg];
      split; auto; apply matches_any_app; auto.
Qed.

Lemma method_matched_same (s s' : list TypeMatcher) (m_key : Signature)
    (m_ret : option MethodInfo) :
  (forall tm, In tm s <-> In tm s') ->
  method_matched s m_key m_ret <-> method_matched s' m_key m_ret.
Proof.
  intros Hsame. unfold method_matched.
  split; intros [[info [E Hm]]|[arg [Hin Hm]]];
    [left; exists info | right; exists arg
     | left; exists info | right; exists arg];
    split; auto; eapply matches_any_same; eauto.
  - intros tm. symmetry. apply Hsame.
  - intros tm. symmetry. apply Hsame.
Qed.

Lemma attr_kept_app (s1 s2 : list TypeMatcher)
    (item : string * TypeDescriptor) :
  attr_kept (s1 ++ s2) item = attr_kept s1 item && attr_kept s2 item.
Proof.
  apply eq_true_iff_eq.
  rewrite andb_true_iff, !attr_kept_iff, matches_any_app. tauto.
Qed.

Lemma method_kept_app (s1 s2 : list TypeMatcher)
    (item : Signature * option MethodInfo) :
  method_kept (s1 ++ s2) item = method_kept s1 item && method_kept s2 item.
Proof.
  apply eq_true_iff_eq.
  rewrite andb_true_iff, !method_kept_iff, method_matched_app. tauto.
Qed.

(** X6: on a class whose dictionaries have unique keys, filtering with the
    concatenation of two lists of matchers is filtering with the first list
    and then with the second. *)
Theorem modify_desc_app :
  forall (s1 s2 : list TypeMatcher) (desc : ClassDesc),
    wf_class desc = true ->
    modify_desc (s1 ++ s2) desc = modify_desc s2 (modify_desc s1 desc).
Proof.
  intros s1 s2 desc Hwf.
  assert (Hwf1 : wf_class (modify_desc s1 desc) = true).
  { rewrite (modify_desc_filter s1 desc Hwf).
    exact (wf_restrict (attr_kept s1) (method_kept s1) desc Hwf). }
  rewrite (modify_desc_filter s2 _ Hwf1).
  rewrite (modify_desc_filter s1 desc Hwf), (modify_desc_filter _ desc Hwf).
  simpl. rewrite !filter_filter. f_equal.
  - apply filter_ext. intros item. apply attr_kept_app.
  - apply filter_ext. intros item. apply method_kept_app.
Qed.

Lemma modify_desc_app_witness :
  wf_class Baz = true
  /\ modify_desc ([matcher "unknownclass"] ++ [matcher "int32"]) Baz
     = modify_desc [matcher "int32"] (modify_desc [matcher "unknownclass"] Baz).
Proof.
  split; [reflexivity|].
  exact (modify_desc_app [matcher "unknownclass"] [matcher "int32"] Baz
                         eq_refl).
Defined.

(** X7: on a class whose dictionaries have unique keys, the result of
    [modify_desc] depends on which matchers are in the list only, not on
    their order or on repetitions. *)
Theorem modify_desc_same_matchers :
  forall (s s' : list TypeMatcher) (desc : ClassDesc),
    wf_class desc = true ->
    (forall tm, In tm s <-> In tm s') ->
    modify_desc s desc = modify_desc s' desc.
Proof.
  intros s s' desc Hwf Hsame.
  rewrite (modify_desc_filter s desc Hwf), (modify_desc_filter s' desc Hwf).
  f_equal.
  - apply filter_ext. intros item. apply eq_true_iff_eq.
    rewrite !attr_kept_iff.
    pose proof (@matches_any_same s s' (snd item) Hsame). tauto.
  - apply filter_ext. intros item. apply eq_true_iff_eq.
    rewrite !method_kept_iff.
    pose proof (@method_matched_same s s' (fst item) (snd item) Hsame).
    tauto.
Qed.

Lemma modify_desc_same_matchers_witness :
  wf_class Baz = true
  /\ modify_desc [matcher "int32"; matcher "unknownclass"] Baz
     = modify_desc [matcher "unknownclass"; matcher "int32"; matcher "int32"]
                   Baz.
Proof.
  split; [reflexivity|].
  apply (modify_desc_same_matchers
           [matcher "int32"; matcher "unknownclass"]
           [matcher "unknownclass"; matcher "int32"; matcher "int32"]
           Baz eq_refl).
  intros tm. simpl. tauto.
Defined.

(** ** [skip_types] *)

Lemma for_items_quiet {V : Type} (body : string -> V -> Proc V)
    (d : list (string * V)) :
  (forall k v, In (k, v) d -> exists v', body k v = (Returns, v', [])) ->
  exists d', for_items body d = (Returns, d', []).
Proof.
  induction d as [|[k v] d IH]; simpl; intros Hb; [eauto|].
  destruct (Hb k v (or_introl eq_refl)) as [v' ->].
  destruct IH as [d' ->]; eauto.
Qed.

Lemma for_classes_quiet (body : string -> ClassDesc -> Proc ClassDesc)
    (env : Env) :
  (forall m k c, class_in env m k c ->
                 exists c', body k c = (Returns, c', [])) ->
  exists env', for_classes body env = (Returns, env', []).
Proof.
  intros Hb. unfold for_classes. apply for_items_quiet.
  intros m md Hm. apply for_items_quiet.
  intros k [c|v] Hk; simpl; [|eauto].
  destruct (Hb m k c) as [c' ->]; [exists md; auto|]. eauto.
Qed.

(** X8: with a list of matchers for all classes, [skip_types] never raises:
    it prints its one message, returns, and has applied [modify_desc] with
    the list to every class of the environment, whatever the key and the
    name of the class. *)
Theorem skip_types_global :
  forall (rc : RunControl TypeMatcher) (sq : list TypeMatcher) (env : Env),
    skiptypes rc = STSequence sq ->
    exists env',
      skip_types rc env = (Returns, env', [LogRemovingTypes])
      /\ env_rel (fun _ c c' => c' = modify_desc sq c) env env'.
Proof.
  intros rc sq env Hst. unfold skip_types. rewrite Hst.
  assert (Hq : forall m k c, class_in env m k c ->
              exists c', skip_types_sequence_body sq k c = (Returns, c', [])).
  { intros m k c _. eexists. reflexivity. }
  destruct (for_classes_quiet _ Hq) as [env' Hrun].
  exists env'. rewrite Hrun. split; [reflexivity|].
  apply for_classes_rel in Hrun. eapply env_rel_impl; [|exact Hrun].
  intros m k c c' _ _ [l Hstep]. unfold skip_types_sequence_body in Hstep.
  congruence.
Qed.

Lemma skip_types_global_witness :
  skiptypes rc_skip_float64 = STSequence [matcher "float64"]
  /\ exists env',
       skip_types rc_skip_float64 Baz_env = (Returns, env', [LogRemovingTypes])
       /\ env_rel (fun _ c c' => c' = modify_desc [matcher "float64"] c)
                  Baz_env env'.
Proof.
  split; [reflexivity|].
  exact (skip_types_global rc_skip_float64 Baz_env eq_refl).
Defined.

Lemma skip_types_mapping_body_result (rc : RunControl TypeMatcher)
    (mp : list (string * list TypeMatcher)) (k : string) (c c' : ClassDesc)
    (l : Log) :
  skip_types_mapping_body rc mp k c = (Returns, c', l) ->
  c' = skip_types_mapping_result rc mp c
  /\ (inb (tarname c) (Dict.keys mp) = true ->
      exists sk sl, skips rc = Some sk /\ Dict.get (tarname c) sk = Some sl).
Proof.
  unfold skip_types_mapping_body, skip_types_mapping_result.
  destruct (inb (tarname c) (Dict.keys mp)).
  - destruct (skips rc) as [sk|]; [|discriminate].
    destruct (Dict.get (tarname c) sk) as [sl|] eqn:Eg; [|discriminate].
    intros [= <- _]. split; [reflexivity|]. intros _. exists sk, sl. auto.
  - intros [= <- _]. split; [reflexivity | discriminate].
Qed.

(** X9: with a per-class [skiptypes], [skip_types] returns exactly when
    [rc.skips] exists and has a list for the target name of every class
    named in [skiptypes].  Then a class named in [skiptypes] has been
    filtered with the list that [rc.skips] holds for it, and every other
    class is as it was; the lists held by [skiptypes] are not used.
    Otherwise the pass raises [AttributeError] when [rc.skips] does not
    exist and [KeyError] when it does. *)
Theorem skip_types_per_class :
  forall (rc : RunControl TypeMatcher) (mp : list (string * list TypeMatcher))
         (env : Env),
    skiptypes rc = STMapping mp ->
    ((exists env' l, skip_types rc env = (Returns, env', l))
     <-> (forall m k c,
             class_in env m k c -> inb (tarname c) (Dict.keys mp) = true ->
             exists sk sl,
               skips rc = Some sk /\ Dict.get (tarname c) sk = Some sl))
    /\ (forall env' l,
          skip_types rc env = (Returns, env', l) ->
          env_rel (fun _ c c' => c' = skip_types_mapping_result rc mp c)
                  env env')
    /\ (forall e env' l,
          skip_types rc env = (Raise e, env', l) ->
          (e = AttributeError /\ skips rc = None)
          \/ (e = KeyError /\ skips rc <> None)).
Proof.
  intros rc mp env Hst. unfold skip_types. rewrite Hst.
  split; [split|split].
  - intros [env' [l Hrun]] m k c Hc Hsel.
    apply printing_inv in Hrun. destruct Hrun as [l0 Hrun].
    apply for_classes_rel in Hrun.
    destruct (env_rel_class_in_l Hrun Hc) as [c' [_ [l1 Hstep]]].
    exact (proj2 (skip_types_mapping_body_result _ _ _ _ Hstep) Hsel).
  - intros Hall.
    assert (Hstep : forall m k c, class_in env m k c ->
               exists c', step (skip_types_mapping_body rc mp) k c c').
    { intros m k c Hc. unfold step, skip_types_mapping_body.
      destruct (inb (tarname c) (Dict.keys mp)) eqn:Hsel; [|eauto].
      destruct (Hall m k c Hc Hsel) as [sk [sl [-> ->]]]. eauto. }
    destruct (for_classes_returns Hstep) as [env' [l Hrun]].
    rewrite Hrun. simpl. eauto.
  - intros env' l Hrun. apply printing_inv in Hrun.
    destruct Hrun as [l0 Hrun]. apply for_classes_rel in Hrun.
    eapply env_rel_impl; [|exact Hrun].
    intros m k c c' _ _ [l1 Hstep].
    exact (proj1 (skip_types_mapping_body_result _ _ _ _ Hstep)).
  - intros e env' l Hrun. apply printing_raise_inv in Hrun.
    destruct Hrun as [l0 Hrun].
    destruct (for_classes_raise_inv _ _ Hrun) as [m [k [c [c' [l1 [_ Hb]]]]]].
    unfold skip_types_mapping_body in Hb.
    destruct (inb (tarname c) (Dict.keys mp)); [|discriminate].
    destruct (skips rc) as [sk|].
    + destruct (Dict.get (tarname c) sk); [discriminate|].
      injection Hb as <- _. right. split; [reflexivity | discriminate].
    + injection Hb as <- _. left. auto.
Qed.

Lemma skip_types_per_class_witness :
  skiptypes rc_per_class_int32 = STMapping [("Foo", [matcher "float64"])]
  /\ exists env' l,
       skip_types rc_per_class_int32 Foo_env = (Returns, env', l)
       /\ env_rel (fun _ c c' =>
                     c' = skip_types_mapping_result rc_per_class_int32
                            [("Foo", [matcher "float64"])] c)
                  Foo_env env'.
Proof.
  split; [reflexivity|]. eexists. eexists. split; [reflexivity|].
  exact (proj1 (proj2 (skip_types_per_class rc_per_class_int32 Foo_env
                         eq_refl)) _ _ eq_refl).
Defined.

(** ** [skip_auto]: how it ends and what it prints *)

Section SkipAutoOutcome.
Variable rc : RunControl TypeMatcher.

Lemma check_args_Unpack (m_args : list Arg) :
  check_args rc m_args = Unpack
  <-> exists n arg,
        nth_error m_args n = Some arg
        /\ arg_default arg <> None
        /\ forall n' arg', n' < n -> nth_error m_args n' = Some arg' ->
             arg_default arg' = None /\ canon (ts rc) (arg_type arg') <> None.
Proof.
  induction m_args as [|a m_args IH]; simpl.
  - split; [discriminate|]. intros [[|n] [arg [Hn _]]]; discriminate.
  - destruct (arg_default a) as [dv|] eqn:Ed.
    + split; [intros _|reflexivity]. exists 0, a. simpl.
      split; [reflexivity|]. split; [congruence|].
      intros n' arg' Hlt. lia.
    + destruct (canon (ts rc) (arg_type a)) as [ct|] eqn:Ec.
      * rewrite IH. split.
        -- intros [n [arg [Hn [Hd Hb]]]]. exists (S n), arg.
           split; [exact Hn|]. split; [exact Hd|].
           intros [|n'] arg' Hlt; simpl.
           ++ intros [= <-]. split; congruence.
           ++ apply Hb. lia.
        -- intros [[|n] [arg [Hn [Hd Hb]]]]; simpl in Hn.
           ++ injection Hn as <-. congruence.
           ++ exists n, arg. split; [exact Hn|]. split; [exact Hd|].
              intros n' arg' Hlt Hn'. apply (Hb (S n') arg'); [lia|exact Hn'].
      * split; [discriminate|].
        intros [[|n] [arg [Hn [Hd Hb]]]]; simpl in Hn.
        -- injection Hn as <-. congruence.
        -- destruct (Hb 0 a) as [_ Hc]; [lia | reflexivity | congruence].
Qed.

Lemma check_method_Unpack (m_sig : Signature) (m_attr : option MethodInfo) :
  check_method rc m_sig m_attr = Unpack <-> reaches_default rc m_sig m_attr.
Proof.
  unfold check_method, reaches_default. rewrite <- check_args_Unpack.
  destruct m_attr as [info|].
  - destruct (canon (ts rc) (ret info)) eqn:Ec.
    + split; [|tauto]. intros H. split; auto. intros info' [= <-]. congruence.
    + split; [discriminate|]. intros [H _]. elim (H info eq_refl Ec).
  - split; [|tauto]. intros H. split; auto. discriminate.
Qed.

Lemma scan_methods_raise (cls_name : string)
    (items : list (Signature * option MethodInfo)) (e : Exn) (l : Log) :
  scan_methods rc cls_name items = (Raise e, l) -> e = ValueError.
Proof.
  revert l. induction items as [|[s0 i0] items IH]; simpl; intros l;
    [discriminate|].
  destruct (check_method rc s0 i0).
  - apply IH.
  - destruct (scan_methods rc cls_name items) as [[bl|e0] l0];
      [discriminate|]. intros [= <- _]. exact (IH _ eq_refl).
  - intros [= <- _]. reflexivity.
Qed.

Lemma skip_auto_body_outcome (cls_name : string) (c : ClassDesc) :
  if forallb (method_unpacks rc) (methods c)
  then exists c' l, skip_auto_body rc cls_name c = (Returns, c', l)
  else exists c' l, skip_auto_body rc cls_name c = (Raise ValueError, c', l).
Proof.
  unfold skip_auto_body.
  destruct (scan_attrs rc cls_name (attrs c)) as [abl l1]. simpl.
  pose proof (scan_methods_fst rc cls_name (methods c)) as Hm.
  destruct (forallb (method_unpacks rc) (methods c)).
  - destruct Hm as [l2 ->]. eauto.
  - destruct Hm as [e [l2 Hm]]. rewrite Hm.
    rewrite (scan_methods_raise _ _ Hm). eauto.
Qed.

Lemma method_unpacks_iff (item : Signature * option MethodInfo) :
  method_unpacks rc item = true
  <-> check_method rc (fst item) (snd item) <> Unpack.
Proof.
  unfold method_unpacks.
  destruct (check_method rc (fst item) (snd item)); split; congruence.
Qed.
End SkipAutoOutcome.

(** X10: when [skipauto] is specified, [skip_auto] returns exactly when the
    check of no method of a class reaches, after types that are all known,
    an argument that carries a default value; the only exception it raises
    is [ValueError]; an unknown type never makes it raise. *)
Theorem skip_auto_outcome :
  forall (rc : RunControl TypeMatcher) (env : Env) (b : bool),
    skipauto rc = Some b ->
    ((exists env' l, skip_auto rc env = (Returns, env', l))
     <-> (forall m k c m_sig m_attr,
             class_in env m k c -> In (m_sig, m_attr) (methods c) ->
             ~ reaches_default rc m_sig m_attr))
    /\ (forall e env' l,
          skip_auto rc env = (Raise e, env', l) -> e = ValueError).
Proof.
  intros rc env b Hb. unfold skip_auto. rewrite Hb. split; [split|].
  - intros [env' [l Hrun]] m k c m_sig m_attr Hc Hin Hreach.
    apply for_classes_rel in Hrun.
    destruct (env_rel_class_in_l Hrun Hc) as [c' [_ [l0 Hstep]]].
    pose proof (skip_auto_body_outcome rc k c) as Hout.
    destruct (forallb (method_unpacks rc) (methods c)) eqn:Ef.
    + rewrite forallb_forall in Ef. specialize (Ef _ Hin).
      apply method_unpacks_iff in Ef. apply Ef.
      apply check_method_Unpack. exact Hreach.
    + destruct Hout as [c0 [l1 Hraise]]. congruence.
  - intros Hno. apply for_classes_returns. intros m k c Hc.
    pose proof (skip_auto_body_outcome rc k c) as Hout.
    destruct (forallb (method_unpacks rc) (methods c)) eqn:Ef.
    + destruct Hout as [c' [l Hret]]. exists c', l. exact Hret.
    + assert (Hall : forallb (method_unpacks rc) (methods c) = true);
        [|congruence].
      apply forallb_forall. intros [m_sig m_attr] Hin.
      apply method_unpacks_iff. simpl. intros Hu.
      apply check_method_Unpack in Hu. exact (Hno m k c _ _ Hc Hin Hu).
  - intros e env' l Hrun.
    destruct (for_classes_raise_inv _ _ Hrun) as [m [k [c [c' [l1 [_ Hb']]]]]].
    pose proof (skip_auto_body_outcome rc k c) as Hout.
    destruct (forallb (method_unpacks rc) (methods c)).
    + destruct Hout as [c0 [l0 Hret]]. congruence.
    + destruct Hout as [c0 [l0 Hraise]]. congruence.
Qed.

Lemma skip_auto_outcome_witness :
  skipauto (rc_auto true) = Some true
  /\ exists env' l,
       skip_auto (rc_auto true) Qux_env = (Raise ValueError, env', l)
       /\ ~ (forall m k c m_sig m_attr,
                class_in Qux_env m k c -> In (m_sig, m_attr) (methods c) ->
                ~ reaches_default (rc_auto true) m_sig m_attr).
Proof.
  split; [reflexivity|]. eexists. eexists. split; [reflexivity|].
  intros Hno.
  destruct (proj2 (proj1 (skip_auto_outcome (rc_auto true) Qux_env eq_refl))
                  Hno) as [env' [l H]].
  vm_compute in H. discriminate H.
Defined.

Lemma for_items_log {V : Type} (body : string -> V -> Proc V) :
  forall d d' l,
    for_items body d = (Returns, d', l) ->
    forall x, In x l <-> exists k v, In (k, v) d /\ In x (snd (body k v)).
Proof.
  induction d as [|[k v] d IH]; simpl; intros d' l H x.
  - injection H as _ <-. split; [intros [] | intros [k [v [[] _]]]].
  - destruct (body k v) as [[[[]|e] v'] l1] eqn:Eb; [|discriminate].
    destruct (for_items body d) as [[r rest'] l2] eqn:Er.
    injection H as -> _ <-. rewrite in_app_iff, (IH _ _ eq_refl x). split.
    + intros [Hx|[k0 [v0 [Hin Hx]]]].
      * exists k, v. rewrite Eb. auto.
      * exists k0, v0. auto.
    + intros [k0 [v0 [[E|Hin] Hx]]].
      * injection E as <- <-. rewrite Eb in Hx. auto.
      * right. eauto.
Qed.

Lemma for_classes_log (body : string -> ClassDesc -> Proc ClassDesc)
    (env env' : Env) (l : Log) :
  for_classes body env = (Returns, env', l) ->
  forall x,
    In x l <-> exists m k c, class_in env m k c /\ In x (snd (body k c)).
Proof.
  unfold for_classes. intros H x.
  pose proof (for_items_rel _ _ H) as Hrel.
  rewrite (for_items_log _ _ H x). split.
  - intros [m [md [Hm Hx]]].
    destruct (items_rel_In_l _ _ Hrel Hm) as [md' [_ [l0 Hmd]]].
    rewrite Hmd in Hx. simpl in Hx.
    apply (for_items_log _ _ Hmd) in Hx.
    destruct Hx as [k [[c|v] [Hk Hx]]]; simpl in Hx; [|destruct Hx].
    exists m, k, c. split; [exists md; auto|].
    destruct (body k c) as [[r c'] l1]. exact Hx.
  - intros [m [k [c [[md [Hm Hk]] Hx]]]]. exists m, md. split; auto.
    destruct (items_rel_In_l _ _ Hrel Hm) as [md' [_ [l0 Hmd]]].
    rewrite Hmd. simpl. apply (for_items_log _ _ Hmd).
    exists k, (DClass c). split; auto. simpl.
    destruct (body k c) as [[r c'] l1]. exact Hx.
Qed.

Section SkipAutoLog.
Variable rc : RunControl TypeMatcher.

Lemma scan_attrs_log (cls_name : string)
    (items : list (string * TypeDescriptor)) (x : LogEvent) :
  In x (snd (scan_attrs rc cls_name items))
  <-> exists a t,
        x = LogAttrUnknownType a cls_name t
        /\ In (a, t) items /\ canon (ts rc) t = None.
Proof.
  induction items as [|[a0 t0] items IH]; simpl.
  - split; [intros [] | intros [a [t [_ [[] _]]]]].
  - destruct (scan_attrs rc cls_name items) as [bl l]. simpl in IH.
    destruct (canon (ts rc) t0) as [ct|] eqn:Ec; simpl.
    + rewrite IH. split.
      * intros [a [t [E [Hin Hc]]]]. exists a, t. auto.
      * intros [a [t [E [[E0|Hin] Hc]]]]; [|exists a, t; auto].
        injection E0 as <- <-. congruence.
    + rewrite IH. split.
      * intros [<-|[a [t [E [Hin Hc]]]]].
        -- exists a0, t0. auto.
        -- exists a, t. auto.
      * intros [a [t [E [[E0|Hin] Hc]]]].
        -- injection E0 as <- <-. left. congruence.
        -- right. exists a, t. auto.
Qed.

Lemma scan_methods_log (cls_name : string)
    (items : list (Signature * option MethodInfo)) (bl : list Signature)
    (l : Log) (x : LogEvent) :
  scan_methods rc cls_name items = (Value bl, l) ->
  In x l
  <-> exists m_sig m_attr t,
        x = LogMethodUnknownType (sig_name m_sig) cls_name t
        /\ In (m_sig, m_attr) items
        /\ check_method rc m_sig m_attr = Unknown t.
Proof.
  revert bl l. induction items as [|[s0 i0] items IH]; simpl; intros bl l.
  - intros [= _ <-]. split; [intros [] | intros [s [i [t [_ [[] _]]]]]].
  - destruct (check_method rc s0 i0) as [|t0|] eqn:Ec.
    + intros Hs. rewrite (IH _ _ Hs). split.
      * intros [s [i [t [E [Hin Hc]]]]]. exists s, i, t. auto.
      * intros [s [i [t [E [[E0|Hin] Hc]]]]]; [|exists s, i, t; auto].
        injection E0 as <- <-. congruence.
    + destruct (scan_methods rc cls_name items) as [[bl0|e] l0];
        [|discriminate].
      intros [= _ <-]. simpl. rewrite (IH _ _ eq_refl). split.
      * intros [<-|[s [i [t [E [Hin Hc]]]]]].
        -- exists s0, i0, t0. auto.
        -- exists s, i, t. auto.
      * intros [s [i [t [E [[E0|Hin] Hc]]]]].
        -- injection E0 as <- <-. left. congruence.
        -- right. exists s, i, t. auto.
    + discriminate.
Qed.

Lemma skip_auto_body_log (cls_name : string) (c c' : ClassDesc) (l : Log)
    (x : LogEvent) :
  skip_auto_body rc cls_name c = (Returns, c', l) ->
  In x l
  <-> (exists a t,
          x = LogAttrUnknownType a cls_name t
          /\ In (a, t) (attrs c) /\ canon (ts rc) t = None)
      \/ (exists m_sig m_attr t,
             x = LogMethodUnknownType (sig_name m_sig) cls_name t
             /\ In (m_sig, m_attr) (methods c)
             /\ check_method rc m_sig m_attr = Unknown t).
Proof.
  unfold skip_auto_body.
  pose proof (scan_attrs_log cls_name (attrs c) x) as Ha.
  destruct (scan_attrs rc cls_name (attrs c)) as [abl l1]. simpl in *.
  destruct (scan_methods rc cls_name (methods c)) as [[bl|e] l2] eqn:Es;
    [|discriminate].
  intros [= _ <-]. rewrite in_app_iff, Ha.
  pose proof (@scan_methods_log cls_name (methods c) bl l2 x Es) as Hm.
  rewrite Hm. reflexivity.
Qed.
End SkipAutoLog.

Lemma for_items_log_eq {V : Type} (body : string -> V -> Proc V)
    (f : string -> V -> Log) :
  (forall k v v' l, body k v = (Returns, v', l) -> l = f k v) ->
  forall d d' l,
    for_items body d = (Returns, d', l) ->
    l = flat_map (fun kv => f (fst kv) (snd kv)) d.
Proof.
  intros Hf. induction d as [|[k v] d IH]; simpl; intros d' l H.
  - injection H as _ <-. reflexivity.
  - destruct (body k v) as [[[[]|e] v'] l1] eqn:Eb; [|discriminate].
    destruct (for_items body d) as [[r rest'] l2] eqn:Er.
    injection H as -> _ <-.
    rewrite (Hf _ _ _ _ Eb), (IH _ _ eq_refl). reflexivity.
Qed.

Lemma scan_attrs_messages (rc : RunControl TypeMatcher) (k : string)
    (c : ClassDesc) :
  snd (scan_attrs rc k (attrs c)) = attr_messages rc k c.
Proof.
  unfold attr_messages. induction (attrs c) as [|[a t] items IH]; simpl;
    [reflexivity|].
  destruct (scan_attrs rc k items) as [bl l]. simpl in IH.
  destruct (canon (ts rc) t); simpl; rewrite IH; reflexivity.
Qed.

Lemma scan_methods_messages (rc : RunControl TypeMatcher) (k : string)
    (c : ClassDesc) (bl : list Signature) (l : Log) :
  scan_methods rc k (methods c) = (Value bl, l) ->
  l = method_messages rc k c.
Proof.
  unfold method_messages. revert bl l.
  induction (methods c) as [|[s0 i0] items IH]; simpl; intros bl l.
  - intros [= _ <-]. reflexivity.
  - destruct (check_method rc s0 i0) as [|t0|].
    + apply IH.
    + destruct (scan_methods rc k items) as [[bl0|e] l0]; [|discriminate].
      intros [= _ <-]. simpl. rewrite (IH _ _ eq_refl). reflexivity.
    + discriminate.
Qed.

Lemma skip_auto_body_messages (rc : RunControl TypeMatcher) (k : string)
    (c c' : ClassDesc) (l : Log) :
  skip_auto_body rc k c = (Returns, c', l) ->
  l = attr_messages rc k c ++ method_messages rc k c.
Proof.
  unfold skip_auto_body.
  pose proof (scan_attrs_messages rc k c) as Ha.
  destruct (scan_attrs rc k (attrs c)) as [abl l1]. simpl in *.
  destruct (scan_methods rc k (methods c)) as [[bl|e] l2] eqn:Es;
    [|discriminate].
  intros [= _ <-].
  rewrite Ha, (@scan_methods_messages rc k c bl l2 Es). reflexivity.
Qed.

Lemma skip_auto_log (rc : RunControl TypeMatcher) (env env' : Env)
    (l : Log) :
  for_classes (skip_auto_body rc) env = (Returns, env', l) ->
  l = skip_auto_messages rc env.
Proof.
  unfold for_classes, skip_auto_messages.
  apply for_items_log_eq with
    (f := fun _ md =>
            flat_map (fun kd =>
                        match snd kd with
                        | DClass c =>
                            attr_messages rc (fst kd) c
                            ++ method_messages rc (fst kd) c
                        | DOther _ => []
                        end) md).
  intros m md md' l0.
  apply for_items_log_eq with
    (f := fun k d =>
            match d with
            | DClass c => attr_messages rc k c ++ method_messages rc k c
            | DOther _ => []
            end).
  intros k [c|v] d' l1; simpl.
  - destruct (skip_auto_body rc k c) as [[r c'] l2] eqn:Eb.
    intros [= -> _ <-]. exact (@skip_auto_body_messages rc k c c' l2 Eb).
  - intros [= _ <-]. reflexivity.
Qed.

(** X11: when [skip_auto] returns, what it has printed is exactly this
    list, in this order: module by module and class by class, for one
    class first one message for each attribute whose type the
    canonicalizer does not know, in the order of the attributes, then one
    message for each method whose check ends on an unknown type, in the
    order of the methods, naming the method, the key of the class and
    that type; two overloads that fail give two messages.  So a message
    for an attribute is in the list exactly when such an attribute
    exists, a message for a method exactly when such a method exists, and
    nothing else is printed. *)
Theorem skip_auto_reports :
  forall (rc : RunControl TypeMatcher) (env env' : Env) (b : bool) (l : Log),
    skipauto rc = Some b ->
    skip_auto rc env = (Returns, env', l) ->
    l = skip_auto_messages rc env
    /\ (forall a k t,
          In (LogAttrUnknownType a k t) l
          <-> exists m c,
                class_in env m k c /\ In (a, t) (attrs c)
                /\ canon (ts rc) t = None)
    /\ (forall n k t,
          In (LogMethodUnknownType n k t) l
          <-> exists m c m_sig m_attr,
                class_in env m k c /\ In (m_sig, m_attr) (methods c)
                /\ sig_name m_sig = n
                /\ check_method rc m_sig m_attr = Unknown t)
    /\ (forall x, In x l ->
          (exists a k t, x = LogAttrUnknownType a k t)
          \/ (exists n k t, x = LogMethodUnknownType n k t)).
Proof.
  intros rc env env' b l Hb Hrun. unfold skip_auto in Hrun.
  rewrite Hb in Hrun.
  split; [exact (@skip_auto_log rc env env' l Hrun)|].
  pose proof (for_classes_log _ _ Hrun) as Hlog.
  pose proof (for_classes_rel _ _ Hrun) as Hrel.
  assert (Hbody : forall m k c x,
             class_in env m k c ->
             In x (snd (skip_auto_body rc k c))
             <-> (exists a t,
                     x = LogAttrUnknownType a k t
                     /\ In (a, t) (attrs c) /\ canon (ts rc) t = None)
                 \/ (exists m_sig m_attr t,
                        x = LogMethodUnknownType (sig_name m_sig) k t
                        /\ In (m_sig, m_attr) (methods c)
                        /\ check_method rc m_sig m_attr = Unknown t)).
  { intros m k c x Hc.
    destruct (env_rel_class_in_l Hrel Hc) as [c' [_ [l0 Hstep]]].
    rewrite Hstep. simpl. eapply skip_auto_body_log. exact Hstep. }
  split; [|split].
  - intros a k t. rewrite Hlog. split.
    + intros [m [k0 [c [Hc Hx]]]]. apply (Hbody m k0 c _ Hc) in Hx.
      destruct Hx as [[a0 [t0 [E [Hin Hcn]]]]|[s [i [t0 [E _]]]]];
        [|discriminate].
      injection E as E1 E2 E3. subst a0 k0 t0. exists m, c. auto.
    + intros [m [c [Hc [Hin Hcn]]]]. exists m, k, c. split; auto.
      apply (Hbody m k c _ Hc). left. exists a, t. auto.
  - intros n k t. rewrite Hlog. split.
    + intros [m [k0 [c [Hc Hx]]]]. apply (Hbody m k0 c _ Hc) in Hx.
      destruct Hx as [[a0 [t0 [E _]]]|[s [i [t0 [E [Hin Hcm]]]]]];
        [discriminate|].
      injection E as E1 E2 E3. subst n k0 t0. exists m, c, s, i. auto.
    + intros [m [c [s [i [Hc [Hin [<- Hcm]]]]]]]. exists m, k, c.
      split; auto. apply (Hbody m k c _ Hc). right. exists s, i, t. auto.
  - intros x Hx. apply Hlog in Hx. destruct Hx as [m [k [c [Hc Hx]]]].
    apply (Hbody m k c _ Hc) in Hx.
    destruct Hx as [[a [t [-> _]]]|[s [i [t [-> _]]]]]; [left|right]; eauto.
Qed.

Lemma skip_auto_reports_witness :
  skipauto (rc_auto true) = Some true
  /\ exists env' l,
       skip_auto (rc_auto true) Twin_env = (Returns, env', l)
       /\ l = [LogMethodUnknownType (NameStr "get") "Twin"
                 (Atom "unknownclass");
               LogMethodUnknownType (NameStr "get") "Twin"
                 (Atom "unknownclass")].
Proof.
  split; [reflexivity|]. eexists. eexists. split; [reflexivity|].
  exact (proj1 (@skip_auto_reports (rc_auto true) Twin_env _ true _
                  eq_refl eq_refl)).
Defined.

(** ** The order of the filtering passes *)

Lemma items_rel_functional {V : Type} (R R' : string -> V -> V -> Prop)
    (d d1 d2 : list (string * V)) :
  (forall k v v1 v2, In (k, v) d -> R k v v1 -> R' k v v2 -> v1 = v2) ->
  items_rel R d d1 -> items_rel R' d d2 -> d1 = d2.
Proof.
  unfold items_rel. intros Hfun H1. revert d2.
  induction H1 as [|[k v] [k1 v1] d d1 [Hk HR] _ IH]; intros d2 H2;
    inversion H2 as [|x [k2 v2] l l' [Hk' HR'] Hrest]; subst; auto.
  simpl in *. subst. f_equal.
  - f_equal. apply (Hfun k2 v); auto.
  - apply IH; auto. intros k0 v0 w1 w2 Hin. apply Hfun. auto.
Qed.

Lemma env_rel_functional (R R' : string -> ClassDesc -> ClassDesc -> Prop)
    (env e1 e2 : Env) :
  (forall m k c c1 c2,
      class_in env m k c -> R k c c1 -> R' k c c2 -> c1 = c2) ->
  env_rel R env e1 -> env_rel R' env e2 -> e1 = e2.
Proof.
  unfold env_rel. intros Hfun. apply items_rel_functional.
  intros m md md1 md2 Hm. apply items_rel_functional.
  intros k [c|v] [c1|v1] [c2|v2] Hk; simpl; try tauto.
  - intros H1 H2. f_equal. apply (Hfun m k c); auto. exists md; auto.
  - congruence.
Qed.

Lemma filter_step_restrict
    (body : string -> ClassDesc -> Proc ClassDesc)
    (ok : string -> ClassDesc -> bool)
    (pa : string -> string -> string * TypeDescriptor -> bool)
    (pm : string -> string -> Signature * option MethodInfo -> bool)
    (k : string) (x y : ClassDesc) (l : Log) :
  (forall k0 c0,
      wf_class c0 = true ->
      if ok k0 c0
      then exists l0,
          body k0 c0
          = (Returns,
             restrict (pa k0 (tarname c0)) (pm k0 (tarname c0)) c0, l0)
      else exists e c' l0, body k0 c0 = (Raise e, c', l0)) ->
  wf_class x = true -> body k x = (Returns, y, l) ->
  y = restrict (pa k (tarname x)) (pm k (tarname x)) x.
Proof.
  intros Hb Hx Hs. specialize (Hb k x Hx). destruct (ok k x).
  - destruct Hb as [l0 Hb]. congruence.
  - destruct Hb as [e [c' [l0 Hb]]]. congruence.
Qed.

Lemma filter_pass_commute_class
    (bodyP bodyQ : string -> ClassDesc -> Proc ClassDesc)
    (k : string) (c c1 c2 d1 d2 : ClassDesc) :
  filter_pass bodyP -> filter_pass bodyQ -> wf_class c = true ->
  step bodyP k c c1 -> step bodyQ k c1 c2 ->
  step bodyQ k c d1 -> step bodyP k d1 d2 ->
  c2 = d2.
Proof.
  intros [okP [paP [pmP [HP _]]]] [okQ [paQ [pmQ [HQ _]]]] Hwf
         [l1 S1] [l2 S2] [l3 S3] [l4 S4].
  pose proof (@filter_step_restrict bodyP okP paP pmP k c c1 l1 HP Hwf S1)
    as E1. subst c1.
  pose proof (@filter_step_restrict bodyQ okQ paQ pmQ k c d1 l3 HQ Hwf S3)
    as E3. subst d1.
  pose proof (@filter_step_restrict bodyQ okQ paQ pmQ k _ c2 l2 HQ
                (wf_restrict _ _ c Hwf) S2) as E2.
  pose proof (@filter_step_restrict bodyP okP paP pmP k _ d2 l4 HP
                (wf_restrict _ _ c Hwf) S4) as E4.
  subst c2 d2. simpl. rewrite !restrict_restrict. unfold restrict. f_equal.
  - apply filter_ext. intros x. apply andb_comm.
  - apply filter_ext. intros x. apply andb_comm.
Qed.

Lemma filtering_passes_commute (p q : Env -> Proc Env)
    (bodyP bodyQ : string -> ClassDesc -> Proc ClassDesc) (env : Env) :
  (forall e e', runs_to p e e' <-> runs_to (for_classes bodyP) e e') ->
  (forall e e', runs_to q e e' <-> runs_to (for_classes bodyQ) e e') ->
  filter_pass bodyP -> filter_pass bodyQ -> wf_env env = true ->
  commute_at p q env.
Proof.
  intros RP RQ FP FQ Hwf e e' Hpq Hqp.
  apply andthen_runs in Hpq. destruct Hpq as [e1 [P1 Q1]].
  apply andthen_runs in Hqp. destruct Hqp as [f1 [Q2 P2]].
  apply RP in P1, P2. apply RQ in Q1, Q2.
  destruct P1 as [l1 P1], P2 as [l2 P2], Q1 as [l3 Q1], Q2 as [l4 Q2].
  apply for_classes_rel in P1, P2, Q1, Q2.
  pose proof (env_rel_compose P1 Q1) as Hpq.
  pose proof (env_rel_compose Q2 P2) as Hqp.
  eapply env_rel_functional; [|exact Hpq|exact Hqp].
  intros m k c c2 d2 Hc [c1 [S1 S2]] [d1 [S3 S4]]. simpl in *.
  apply filter_pass_commute_class
    with (bodyP := bodyP) (bodyQ := bodyQ) (k := k) (c := c) (c1 := c1)
         (d1 := d1); auto.
  exact (proj1 (wf_env_class_in env) Hwf m k c Hc).
Qed.

(** X12: on an environment whose dictionaries have unique keys, any two of
    the passes [skip_types], [skip_attrs], [skip_auto] and
    [include_methods] leave the same environment in either order, when
    both orders return. *)
Theorem filtering_passes_order :
  forall (rc : RunControl TypeMatcher) (env : Env),
    wf_env env = true ->
    commute_at (skip_types rc) (skip_attrs rc) env
    /\ commute_at (skip_types rc) (skip_auto rc) env
    /\ commute_at (skip_types rc) (include_methods rc) env
    /\ commute_at (skip_attrs rc) (skip_auto rc) env
    /\ commute_at (skip_attrs rc) (include_methods rc) env
    /\ commute_at (skip_auto rc) (include_methods rc) env.
Proof.
  intros rc env Hwf.
  pose proof (skip_types_runs rc) as R1.
  pose proof (skip_attrs_runs rc) as R3.
  pose proof (skip_auto_runs rc) as R4.
  pose proof (include_methods_runs rc) as R5.
  pose proof (skip_types_filter_pass rc) as F1.
  pose proof (skip_attrs_filter_pass rc) as F3.
  pose proof (skip_auto_filter_pass rc) as F4.
  pose proof (include_methods_filter_pass rc) as F5.
  repeat split; eapply filtering_passes_commute; eassumption.
Qed.

Lemma filtering_passes_order_witness :
  wf_env Baz_env = true
  /\ commute_at (skip_types (with_skiptypes (rc_auto true)
                               (STSequence [matcher "int32"])))
                (skip_auto (with_skiptypes (rc_auto true)
                              (STSequence [matcher "int32"])))
                Baz_env.
Proof.
  split; [reflexivity|].
  exact (proj1 (proj2 (filtering_passes_order
                         (with_skiptypes (rc_auto true)
                            (STSequence [matcher "int32"]))
                         Baz_env eq_refl))).
Defined.

(** ** [setup] on a per-class mapping *)

Lemma matchers_of_wellformed (l : list PyVal) :
  (forall v, In v l -> ~ malformed v) ->
  exists tms, matchers_of l = Value tms.
Proof.
  induction l as [|v l IH]; simpl; intros Hok; [eauto|].
  unfold TypeMatcher_new.
  destruct (parse_pattern v) as [p|] eqn:Ep.
  - destruct IH as [tms ->]; [intros; apply Hok; auto|]. eauto.
  - elim (Hok v (or_introl eq_refl)). exact Ep.
Qed.

Lemma setup_mapping_items (raw : list (string * list PyVal)) :
  forall items acc,
    (forall kv, In kv items -> Dict.get (fst kv) raw = Some (snd kv)) ->
    NoDup (Dict.keys acc ++ Dict.keys items) ->
    (forall kv v, In kv items -> In v (snd kv) -> ~ malformed v) ->
    exists conv,
      setup_mapping raw (Dict.keys items) acc = Value (acc ++ conv)
      /\ Forall2 (fun kl ktms =>
                    fst kl = fst ktms
                    /\ matchers_of (snd kl) = Value (snd ktms))
                 items conv.
Proof.
  induction items as [|[k l] items IH]; simpl; intros acc Hget Hnd Hok.
  - exists []. rewrite app_nil_r. split; [reflexivity | constructor].
  - pose proof (Hget (k, l) (or_introl eq_refl)) as Hk. simpl in Hk.
    rewrite Hk.
    destruct (matchers_of_wellformed l) as [tms Htms].
    { intros v Hv. apply (Hok (k, l) v); auto. }
    rewrite Htms.
    assert (Hfresh : ~ In k (Dict.keys acc)).
    { apply NoDup_remove_2 in Hnd. intros Hin. apply Hnd.
      apply in_or_app. auto. }
    rewrite (set_fresh _ _ _ Hfresh).
    destruct (IH (acc ++ [(k, tms)])) as [conv [Hs Hf]].
    + intros kv Hin. apply Hget. auto.
    + unfold Dict.keys in *. rewrite map_app, <- app_assoc. exact Hnd.
    + intros kv v Hin. apply Hok. auto.
    + exists ((k, tms) :: conv). rewrite Hs, <- app_assoc.
      split; [reflexivity|]. constructor; auto.
Qed.

Lemma setup_mapping_raise (raw : list (string * list PyVal)) :
  forall klss acc e,
    incl klss (Dict.keys raw) ->
    setup_mapping raw klss acc = Raise e -> e = MalformedPattern.
Proof.
  induction klss as [|kls klss IH]; simpl; intros acc e Hincl;
    [discriminate|].
  destruct (Dict.get kls raw) as [l|] eqn:Eg.
  - destruct (matchers_of l) as [tms|e0] eqn:Em.
    + apply IH. intros x Hx. apply Hincl. simpl; auto.
    + intros [= <-]. exact (matchers_of_raise _ Em).
  - apply get_None_keys in Eg. elim Eg. apply Hincl. simpl; auto.
Qed.

(** X13: on a per-class [skiptypes] with unique keys whose entries are all
    patterns, [setup] returns a mapping with the same class names in the
    same order, in which each list of raw values is replaced by the list of
    its matchers, and it prints nothing.  Whatever the value of
    [skiptypes], the only exception of [setup] is the one of the
    constructor of the matchers. *)
Theorem setup_per_class :
  forall (rc : RunControl PyVal) (raw : list (string * list PyVal)),
    skiptypes rc = STMapping raw ->
    Dict.wf raw = true ->
    ((forall k l v, In (k, l) raw -> In v l -> ~ malformed v) ->
     exists mp,
       setup rc = (Value (with_skiptypes rc (STMapping mp)), [])
       /\ Forall2 (fun kl ktms =>
                     fst kl = fst ktms
                     /\ matchers_of (snd kl) = Value (snd ktms))
                  raw mp)
    /\ (forall e l, setup rc = (Raise e, l) -> e = MalformedPattern /\ l = []).
Proof.
  intros rc raw Hst Hwf. unfold setup. rewrite Hst. split.
  - intros Hok.
    destruct (setup_mapping_items raw raw []) as [conv [Hs Hf]].
    + intros [k l] Hin. simpl. apply In_get; assumption.
    + simpl. apply uniqb_NoDup. exact Hwf.
    + intros [k l] v Hin Hv. apply (Hok k l v); assumption.
    + exists conv. rewrite Hs. simpl. auto.
  - intros e l.
    destruct (setup_mapping raw (Dict.keys raw) []) as [sk|e0] eqn:Es;
      [discriminate|].
    intros [= <- <-]. split; [|reflexivity].
    eapply setup_mapping_raise; [|exact Es]. apply incl_refl.
Qed.

Lemma setup_per_class_witness :
  exists mp,
    setup raw_two_classes
    = (Value (with_skiptypes raw_two_classes (STMapping mp)), [])
    /\ map fst mp = ["Foo"; "Bar"].
Proof.
  destruct (proj1 (setup_per_class raw_two_classes eq_refl eq_refl))
    as [mp [Hs Hf]].
  - intros k l v [E|[E|[]]] Hv; injection E as <- <-; simpl in Hv.
    + destruct Hv as [<-|[]]. discriminate.
    + destruct Hv as [<-|[<-|[]]]; discriminate.
  - exists mp. split; [exact Hs|].
    vm_compute in Hs. injection Hs as <-. reflexivity.
Defined.

(** ** [include_methods]: the classes it does not name *)

Lemma for_classes_no_log (body : string -> ClassDesc -> Proc ClassDesc)
    (env env' : Env) (l : Log) :
  (forall k c, snd (body k c) = []) ->
  for_classes body env = (Returns, env', l) -> l = [].
Proof.
  intros Hq Hrun. destruct l as [|x l]; [reflexivity|].
  destruct (proj1 (for_classes_log _ _ Hrun x) (or_introl eq_refl))
    as [m [k [c [_ Hx]]]].
  rewrite Hq in Hx. destruct Hx.
Qed.

Lemma include_methods_body_quiet (im : list (string * list MethodName))
    (k : string) (c : ClassDesc) :
  snd (include_methods_body im k c) = [].
Proof.
  unfold include_methods_body.
  destruct (inb (tarname c) (Dict.keys im)); [|reflexivity].
  destruct (Dict.get k im) as [keeps|]; [|reflexivity].
  destruct (copy_methods _ _ _); reflexivity.
Qed.

Lemma filter_none {A : Type} (l : list A) : filter (fun _ => false) l = [].
Proof. induction l; simpl; auto. Qed.

(** X14: when [include_methods] returns, on an environment whose
    dictionaries have unique keys, it has printed its one message only; a
    class whose target name is not a key of [includemethods] is as it was;
    no class has lost an attribute; and a class whose list is empty has no
    method left. *)
Theorem include_methods_frame :
  forall (rc : RunControl TypeMatcher) (im : list (string * list MethodName))
         (env env' : Env) (l : Log),
    includemethods rc = Some im ->
    wf_env env = true ->
    include_methods rc env = (Returns, env', l) ->
    l = [LogRemovingAllBut]
    /\ env_rel (fun k c c' =>
                  tarname c' = tarname c
                  /\ attrs c' = attrs c
                  /\ (inb (tarname c) (Dict.keys im) = false -> c' = c)
                  /\ (inb (tarname c) (Dict.keys im) = true ->
                      Dict.get k im = Some [] -> methods c' = []))
               env env'.
Proof.
  intros rc im env env' l Him Hwf Hrun. unfold include_methods in Hrun.
  rewrite Him in Hrun.
  destruct (for_classes (include_methods_body im) env) as [[r e1] l1] eqn:E.
  simpl in Hrun. injection Hrun as -> -> <-. split.
  - f_equal. eapply for_classes_no_log; [|exact E].
    apply include_methods_body_quiet.
  - apply for_classes_rel in E. eapply env_rel_impl; [|exact E].
    intros m k c c' Hc _ [l0 Hstep].
    pose proof (proj1 (wf_env_class_in env) Hwf m k c Hc) as Hwfc.
    unfold wf_class in Hwfc. apply andb_true_iff in Hwfc.
    destruct Hwfc as [_ Hwfm].
    unfold include_methods_body in Hstep.
    destruct (inb (tarname c) (Dict.keys im)) eqn:Hsel.
    + destruct (Dict.get k im) as [keeps|] eqn:Hget; [|discriminate].
      rewrite (copy_methods_filter _ keeps Hwfm) in Hstep.
      injection Hstep as <- _. simpl.
      split; [reflexivity|]. split; [reflexivity|].
      split; [discriminate|]. intros _ [= ->].
      erewrite filter_ext; [apply filter_none|]. intros a. reflexivity.
    + injection Hstep as <- _. repeat split; auto. discriminate.
Qed.

Lemma include_methods_frame_witness :
  includemethods rc_include_none = Some [("Computer", [])]
  /\ wf_env Computer_env = true
  /\ include_methods rc_include_none Computer_env
     = (Returns,
        [("computer_module", [("Computer", DClass (with_methods Computer []))])],
        [LogRemovingAllBut])
  /\ env_rel (fun k c c' => tarname c' = tarname c /\ attrs c' = attrs c)
             Computer_env
             [("computer_module",
               [("Computer", DClass (with_methods Computer []))])].
Proof.
  split; [reflexivity|]. split; [reflexivity|]. split; [reflexivity|].
  destruct (include_methods_frame rc_include_none Computer_env
              eq_refl eq_refl eq_refl) as [_ Hrel].
  eapply env_rel_impl; [|exact Hrel].
  intros m k c c' _ _ [Ht [Ha _]]. auto.
Defined.

(** ** When [execute] returns *)

Lemma first_hits_apart (skippers : list string) (m_nms : list Signature) :
  prefixes_apart skippers m_nms ->
  Dict.uniqb (first_hits m_nms skippers) = true.
Proof.
  intros [Hnd Hap]. apply uniqb_NoDup.
  induction skippers as [|m rest IH]; [constructor|].
  rewrite first_hits_cons. inversion Hnd as [|? ? Hnotin Hnd']; subst.
  assert (IH' : NoDup (first_hits m_nms rest)).
  { apply IH; [exact Hnd'|]. intros m1 m2 s H1 H2. apply Hap; simpl; auto. }
  destruct (first_hit m_nms m) as [s|] eqn:E; simpl; [|exact IH'].
  constructor; [|exact IH'].
  intros Hin. apply first_hits_In in Hin. destruct Hin as [m' [Hm' Hs']].
  apply first_hit_starts in E. apply first_hit_starts in Hs'.
  assert (m = m') by (apply (Hap m m' s); simpl; tauto).
  subst. tauto.
Qed.

Lemma prefixes_apart_incl (skippers : list string) (l l' : list Signature) :
  incl l' l -> prefixes_apart skippers l -> prefixes_apart skippers l'.
Proof.
  intros Hincl [Hnd Hap]. split; [exact Hnd|].
  intros m1 m2 s H1 H2 Hs. apply Hap; auto.
Qed.

Lemma applicable_narrowed (rc : RunControl TypeMatcher) (env env' : Env) :
  env_rel (fun _ => narrowed) env env' ->
  applicable rc env -> applicable rc env'.
Proof.
  intros Hrel [Hka [Hst [Hsm Hauto]]].
  assert (Hback : forall m k c',
             class_in env' m k c' ->
             exists c, class_in env m k c /\ tarname c' = tarname c
                       /\ incl (methods c') (methods c)).
  { intros m k c' Hc'.
    destruct (env_rel_class_in_r Hrel Hc') as [c [Hc Hn]].
    exists c. destruct (narrowed_incl Hn) as [Ht [_ Hm]]. auto. }
  split; [|split; [exact Hst|split]].
  - intros m k c' Hc'. destruct (Hback m k c' Hc') as [c [Hc [Ht _]]].
    rewrite Ht. exact (Hka m k c Hc).
  - intros sm m k c' skippers Es Hc' Hg.
    destruct (Hback m k c' Hc') as [c [Hc [_ Hm]]].
    apply prefixes_apart_incl with (l := Dict.keys (methods c)).
    + intros s Hs. apply in_map_iff in Hs. destruct Hs as [kv [<- Hkv]].
      apply in_map. apply Hm. exact Hkv.
    + exact (Hsm sm m k c skippers Es Hc Hg).
  - destruct Hauto as [Hn|Hnd]; [left; exact Hn|right].
    intros m k c' m_sig m_attr arg Hc' Hin Harg.
    destruct (Hback m k c' Hc') as [c [Hc [_ Hm]]].
    exact (Hnd m k c m_sig m_attr arg Hc (Hm _ Hin) Harg).
Qed.

Lemma skip_types_returns (rc : RunControl TypeMatcher) (env : Env) :
  applicable rc env -> exists env', runs_to (skip_types rc) env env'.
Proof.
  intros [_ [Hst _]].
  destruct (@for_classes_returns (skip_types_cls rc) env) as [env' [l H]].
  - intros m k c Hc. unfold skip_types_cls, step.
    destruct (skiptypes rc) as [|mp|sl|v] eqn:E; eauto.
    + unfold skip_types_mapping_body.
      destruct (inb (tarname c) (Dict.keys mp)) eqn:Hsel; [|eauto].
      destruct (Hst mp eq_refl) as [sk [-> Hincl]].
      destruct (Dict.get (tarname c) sk) eqn:Eg; [eauto|].
      apply get_None_keys in Eg. elim Eg. apply Hincl. apply inb_In.
      exact Hsel.
    + unfold skip_types_sequence_body. eauto.
  - exists env'. apply skip_types_runs. exists l. exact H.
Qed.

Lemma skip_methods_returns (rc : RunControl TypeMatcher) (env : Env) :
  applicable rc env -> exists env', runs_to (skip_methods rc) env env'.
Proof.
  intros [Hka [_ [Hsm _]]].
  destruct (@for_classes_returns (skip_methods_cls rc) env) as [env' [l H]].
  - intros m k c Hc. unfold skip_methods_cls, step.
    destruct (skipmethods rc) as [sm|] eqn:E; [|eauto].
    unfold skip_methods_body.
    destruct (inb (tarname c) (Dict.keys sm)) eqn:Hsel; [|eauto].
    rewrite (Hka m k c Hc) in Hsel.
    destruct (Dict.get k sm) as [skippers|] eqn:Eg.
    + pose proof (skip_methods_loop_hits k (Dict.keys (methods c)) skippers
                    (methods c)) as Hloop.
      rewrite first_hits_apart in Hloop
        by exact (Hsm sm m k c skippers eq_refl Hc Eg).
      rewrite Hloop; [eauto|].
      intros s Hs. apply first_hits_In in Hs. destruct Hs as [m0 [_ Hs]].
      apply first_hit_starts in Hs. apply inb_In. tauto.
    + apply get_None_keys in Eg. apply inb_In in Hsel. tauto.
  - exists env'. apply skip_methods_runs. exists l. exact H.
Qed.

Lemma skip_attrs_returns (rc : RunControl TypeMatcher) (env : Env) :
  applicable rc env -> exists env', runs_to (skip_attrs rc) env env'.
Proof.
  intros [Hka _].
  destruct (@for_classes_returns (skip_attrs_cls rc) env) as [env' [l H]].
  - intros m k c Hc. unfold skip_attrs_cls, step.
    destruct (skipattrs rc) as [sa|]; [|eauto].
    destruct (@skip_attrs_body_result sa k c) as [l Hl]; [|eauto].
    intros Hsel Eg. rewrite (Hka m k c Hc) in Hsel.
    apply get_None_keys in Eg. apply inb_In in Hsel. tauto.
  - exists env'. apply skip_attrs_runs. exists l. exact H.
Qed.

Lemma skip_auto_returns (rc : RunControl TypeMatcher) (env : Env) :
  applicable rc env -> exists env', runs_to (skip_auto rc) env env'.
Proof.
  intros [_ [_ [_ Hauto]]].
  destruct (@for_classes_returns (skip_auto_cls rc) env) as [env' [l H]].
  - intros m k c Hc. unfold skip_auto_cls, step.
    destruct (skipauto rc) as [b|] eqn:E; [|eauto].
    destruct Hauto as [Hn|Hnd]; [discriminate|].
    unfold skip_auto_body.
    destruct (scan_attrs rc k (attrs c)) as [abl l1]. simpl.
    destruct (@scan_methods_returns rc k (methods c)) as [bl [l2 Hs]].
    { intros m_sig m_attr Hin. apply check_method_no_defaults.
      intros arg Harg. exact (Hnd m k c m_sig m_attr arg Hc Hin Harg). }
    rewrite Hs. eauto.
  - exists env'. apply skip_auto_runs. exists l. exact H.
Qed.

Lemma include_methods_returns (rc : RunControl TypeMatcher) (env : Env) :
  wf_env env = true ->
  applicable rc env -> exists env', runs_to (include_methods rc) env env'.
Proof.
  intros Hwf [Hka _].
  destruct (@for_classes_returns (include_methods_cls rc) env) as [env' [l H]].
  - intros m k c Hc. unfold include_methods_cls, step.
    destruct (includemethods rc) as [im|]; [|eauto].
    destruct (inb (tarname c) (Dict.keys im)) eqn:Hsel.
    + pose proof (proj1 (wf_env_class_in env) Hwf m k c Hc) as Hwfc.
      unfold wf_class in Hwfc. apply andb_true_iff in Hwfc.
      destruct Hwfc as [_ Hwfm].
      destruct (Dict.get k im) as [keeps|] eqn:Eg.
      * erewrite include_methods_body_selected; eauto.
      * rewrite (Hka m k c Hc) in Hsel.
        apply get_None_keys in Eg. apply inb_In in Hsel. tauto.
    + unfold include_methods_body. rewrite Hsel. eauto.
  - exists env'. apply include_methods_runs. exists l. exact H.
Qed.

Lemma andthen_returns (rc : RunControl TypeMatcher) (p q : Env -> Proc Env) :
  only_narrows p ->
  (forall env, wf_env env = true -> applicable rc env ->
               exists env', runs_to p env env') ->
  (forall env, wf_env env = true -> applicable rc env ->
               exists env', runs_to q env env') ->
  forall env, wf_env env = true -> applicable rc env ->
              exists env', runs_to (andthen p q) env env'.
Proof.
  intros Hn Hp Hq env Hwf Happ.
  destruct (Hp env Hwf Happ) as [e1 [l1 H1]].
  destruct (Hn _ _ _ _ Hwf H1) as [N1 W1].
  destruct (Hq e1 W1 (applicable_narrowed N1 Happ)) as [e2 R2].
  exists e2. apply andthen_runs. exists e1. split; [exists l1; exact H1|].
  exact R2.
Qed.

Lemma execute_runs (rc : RunControl TypeMatcher) (env : Env) :
  wf_env env = true -> applicable rc env ->
  exists env', runs_to (execute rc) env env'.
Proof.
  revert env. unfold execute.
  apply andthen_returns;
    [apply skip_types_only_narrows
    |intros env _; apply skip_types_returns|].
  apply andthen_returns;
    [apply skip_methods_only_narrows
    |intros env _; apply skip_methods_returns|].
  apply andthen_returns;
    [apply skip_attrs_only_narrows
    |intros env _; apply skip_attrs_returns|].
  apply andthen_returns;
    [apply skip_auto_only_narrows
    |intros env _; apply skip_auto_returns|].
  intros env. apply include_methods_returns.
Qed.

Lemma computer_applicable : applicable rc_computer Computer_env.
Proof.
  assert (Hin : forall m k c,
             class_in Computer_env m k c -> k = "Computer" /\ c = Computer).
  { intros m k c [md [Hm Hk]]. simpl in Hm. destruct Hm as [E|[]].
    injection E as <- <-. simpl in Hk. destruct Hk as [E|[]].
    injection E as <- <-. auto. }
  split; [|split; [|split]].
  - intros m k c Hc. destruct (Hin m k c Hc) as [-> ->]. reflexivity.
  - intros mp. discriminate.
  - intros sm m k c skippers [= <-] Hc Hg.
    destruct (Hin m k c Hc) as [-> ->]. injection Hg as <-. split.
    + apply (proj1 (uniqb_NoDup _)). reflexivity.
    + intros m1 m2 s H1 H2 Hs. cbv in Hs.
      simpl in H1, H2.
      repeat match goal with
             | H : _ \/ _ |- _ => destruct H as [<-|H]
             | H : False |- _ => destruct H
             end;
        try reflexivity; vm_compute; intros; discriminate.
  - left. reflexivity.
Qed.

(** X15: [execute] returns on an environment whose dictionaries have
    unique keys when every class is stored under its target name, a
    per-class [skiptypes] comes with an attribute [skips] that has all its
    keys, for every class the prefixes of [skipmethods] are distinct and
    no method of the class starts with two of them, and [skipauto] is
    unset or no argument carries a default value.  The environment it
    leaves satisfies the same conditions. *)
Theorem execute_returns :
  forall (rc : RunControl TypeMatcher) (env : Env),
    wf_env env = true ->
    applicable rc env ->
    exists env' l,
      execute rc env = (Returns, env', l)
      /\ wf_env env' = true /\ applicable rc env'.
Proof.
  intros rc env Hwf Happ.
  pose proof (@execute_runs rc env Hwf Happ) as Hrun.
  destruct Hrun as [env' [l Hrun]]. exists env', l.
  destruct (@execute_only_narrows rc env _ env' l Hwf Hrun) as [N W].
  split; [exact Hrun|]. split; [exact W|].
  exact (applicable_narrowed N Happ).
Qed.

Lemma execute_returns_witness :
  wf_env Computer_env = true
  /\ applicable rc_computer Computer_env
  /\ exists env' l, execute rc_computer Computer_env = (Returns, env', l).
Proof.
  split; [reflexivity|]. split; [exact computer_applicable|].
  destruct (@execute_returns rc_computer Computer_env eq_refl
              computer_applicable)
    as [env' [l [H _]]].
  exists env', l. exact H.
Defined.

(** ** The exceptions of [execute] *)

Lemma andthen_raise_inv {S : Type} (p q : S -> Proc S) (s s' : S) (e : Exn)
    (l : Log) :
  andthen p q s = (Raise e, s', l) ->
  (exists l1, p s = (Raise e, s', l1))
  \/ (exists s1 l1 l2, p s = (Returns, s1, l1) /\ q s1 = (Raise e, s', l2)).
Proof.
  unfold andthen. destruct (p s) as [[[[]|e0] s1] l1].
  - destruct (q s1) as [[r2 s2] l2] eqn:Eq. intros [= -> -> _].
    right. exists s1, l1, l2. auto.
  - intros [= -> -> _]. left. eauto.
Qed.

Lemma skip_types_raise (rc : RunControl TypeMatcher) (env env' : Env)
    (e : Exn) (l : Log) :
  skip_types rc env = (Raise e, env', l) ->
  exists mp,
    skiptypes rc = STMapping mp
    /\ ((e = AttributeError /\ skips rc = None /\ env' = env)
        \/ (e = KeyError /\ skips rc <> None)).
Proof.
  unfold skip_types. destruct (skiptypes rc) as [|mp|sl|v]; try discriminate.
  - intros H. apply printing_raise_inv in H. destruct H as [l0 H].
    exists mp. split; [reflexivity|].
    destruct (skips rc) as [sk|] eqn:Esk.
    + right. split; [|discriminate].
      apply for_classes_raise_inv in H.
      destruct H as [m [k [c [c' [l1 [Hc Hb]]]]]].
      unfold skip_types_mapping_body in Hb. rewrite Esk in Hb.
      destruct (inb (tarname c) (Dict.keys mp)); [|discriminate].
      destruct (Dict.get (tarname c) sk); [discriminate|].
      injection Hb as <- _ _. reflexivity.
    + left. split; [|split; [reflexivity|]].
      * apply for_classes_raise_inv in H.
        destruct H as [m [k [c [c' [l1 [Hc Hb]]]]]].
        unfold skip_types_mapping_body in Hb. rewrite Esk in Hb.
        destruct (inb (tarname c) (Dict.keys mp)); [|discriminate].
        injection Hb as <- _ _. reflexivity.
      * apply for_classes_touched in H. symmetry. apply env_rel_eq.
        eapply env_rel_impl; [|exact H].
        intros m k c c' _ _ [->|[r [l1 Hb]]]; [reflexivity|].
        unfold skip_types_mapping_body in Hb. rewrite Esk in Hb.
        destruct (inb (tarname c) (Dict.keys mp)); injection Hb as _ <- _;
          reflexivity.
  - intros H. apply printing_raise_inv in H. destruct H as [l0 H].
    apply for_classes_raise_inv in H.
    destruct H as [m [k [c [c' [l1 [_ Hb]]]]]]. discriminate.
Qed.

Lemma skip_methods_raise (rc : RunControl TypeMatcher) (env env' : Env)
    (e : Exn) (l : Log) :
  skip_methods rc env = (Raise e, env', l) ->
  e = KeyError /\ skipmethods rc <> None.
Proof.
  unfold skip_methods. destruct (skipmethods rc) as [sm|]; [|discriminate].
  intros H. apply printing_raise_inv in H. destruct H as [l0 H].
  apply for_classes_raise_inv in H.
  destruct H as [m [k [c [c' [l1 [_ Hb]]]]]].
  split; [exact (skip_methods_body_raise _ _ _ Hb) | discriminate].
Qed.

Lemma skip_attrs_raise (rc : RunControl TypeMatcher) (env env' : Env)
    (e : Exn) (l : Log) :
  skip_attrs rc env = (Raise e, env', l) ->
  e = KeyError /\ skipattrs rc <> None.
Proof.
  unfold skip_attrs. destruct (skipattrs rc) as [sa|]; [|discriminate].
  intros H. apply printing_raise_inv in H. destruct H as [l0 H].
  apply for_classes_raise_inv in H.
  destruct H as [m [k [c [c' [l1 [_ Hb]]]]]].
  split; [exact (skip_attrs_body_raise _ _ _ Hb) | discriminate].
Qed.

Lemma include_methods_raise (rc : RunControl TypeMatcher) (env env' : Env)
    (e : Exn) (l : Log) :
  include_methods rc env = (Raise e, env', l) ->
  e = KeyError /\ includemethods rc <> None.
Proof.
  unfold include_methods.
  destruct (includemethods rc) as [im|]; [|discriminate].
  intros H. apply printing_raise_inv in H. destruct H as [l0 H].
  apply for_classes_raise_inv in H.
  destruct H as [m [k [c [c' [l1 [_ Hb]]]]]].
  split; [exact (include_methods_body_raise _ _ _ Hb) | discriminate].
Qed.

Lemma skip_auto_raise (rc : RunControl TypeMatcher) (env env' : Env)
    (e : Exn) (l : Log) :
  skip_auto rc env = (Raise e, env', l) ->
  e = ValueError /\ skipauto rc <> None.
Proof.
  unfold skip_auto. destruct (skipauto rc) as [b|]; [|discriminate].
  intros H. apply for_classes_raise_inv in H.
  destruct H as [m [k [c [c' [l1 [_ Hb]]]]]].
  split; [|discriminate].
  unfold skip_auto_body in Hb.
  destruct (scan_attrs rc k (attrs c)) as [abl la]. simpl in Hb.
  destruct (scan_methods rc k (methods c)) as [[bl|e0] l2] eqn:Es;
    [discriminate|].
  injection Hb as <- _ _. eapply scan_methods_raise; exact Es.
Qed.

(** X16: the exceptions with which [execute] can end.  It never ends with
    the exception of the constructor of the matchers.  [AttributeError]
    comes from [skip_types] only, with a per-class [skiptypes] and no
    attribute [skips], and then the environment is as it was.  [KeyError]
    needs a per-class [skiptypes] with an attribute [skips], or one of
    [skipmethods], [skipattrs] and [includemethods].  [ValueError] needs
    [skipauto]. *)
Theorem execute_exceptions :
  forall (rc : RunControl TypeMatcher) (env env' : Env) (e : Exn) (l : Log),
    execute rc env = (Raise e, env', l) ->
    match e with
    | AttributeError =>
        (exists mp, skiptypes rc = STMapping mp)
        /\ skips rc = None /\ env' = env
    | KeyError =>
        (exists mp, skiptypes rc = STMapping mp /\ skips rc <> None)
        \/ skipmethods rc <> None
        \/ skipattrs rc <> None
        \/ includemethods rc <> None
    | ValueError => skipauto rc <> None
    | MalformedPattern => False
    end.
Proof.
  intros rc env env' e l H. unfold execute in H.
  apply andthen_raise_inv in H.
  destruct H as [[l1 H]|[e1 [l1 [l2 [_ H]]]]].
  { apply skip_types_raise in H.
    destruct H as [mp [Hst [[-> [Hsk ->]]|[-> Hsk]]]].
    - split; [eauto|]. auto.
    - left. eauto. }
  apply andthen_raise_inv in H.
  destruct H as [[l3 H]|[e2 [l3 [l4 [_ H]]]]].
  { apply skip_methods_raise in H. destruct H as [-> Hn]. auto. }
  apply andthen_raise_inv in H.
  destruct H as [[l5 H]|[e3 [l5 [l6 [_ H]]]]].
  { apply skip_attrs_raise in H. destruct H as [-> Hn]. auto. }
  apply andthen_raise_inv in H.
  destruct H as [[l7 H]|[e4 [l7 [l8 [_ H]]]]].
  { apply skip_auto_raise in H. destruct H as [-> Hn]. exact Hn. }
  apply include_methods_raise in H. destruct H as [-> Hn]. auto.
Qed.

Lemma execute_exceptions_witness :
  exists env' l,
    execute rc_per_class Foo_env = (Raise AttributeError, env', l)
    /\ skips rc_per_class = None /\ env' = Foo_env.
Proof.
  eexists. eexists. split; [reflexivity|].
  exact (proj2 (@execute_exceptions rc_per_class Foo_env _ AttributeError _
                  eq_refl)).
Defined.

(** ** [include_methods] and the list of a class *)



